(** * Dialogue composer: a shallow embedding of [main.py]

    The development follows the class [DialogueComposer]: Python strings and
    the handful of [re] calls it makes, the static pattern tables, the tone
    classifier, the pacing analyser, the voice transforms, the session state
    (characters, dialogue history, scene context) and the operations on it.

    Conventions.
    - A Python [str] is a list of characters, [str]; the model covers the
      ASCII repertoire (letters A-Z and a-z are the only cased characters).
      On ASCII text [str.lower()] changes letters in place; beyond ASCII it
      can change the length of a text, which [Wide] models for U+0130.
    - A Python [float] is idealised as a rational number of [Q]: sums,
      products and quotients are exact. Where the code compares a computed
      float with a threshold (the pacing score with 0.4, a deviation of
      sentence lengths with 3) or rounds it (to one decimal), the code and
      the model can differ for values on the threshold or within rounding
      distance of it.
    - A Python [dict] is an insertion-ordered association list ([Dict]).
    - [random] and [datetime.now] read from an explicit [World]. *)

From Stdlib Require Import Bool Arith Lia NArith ZArith QArith Qabs Qround Qminmax
  Lqa
  Ascii String List Permutation Sorted.
Import ListNotations.
Open Scope string_scope.
Open Scope nat_scope.
Open Scope list_scope.

Set Implicit Arguments.

(** ** Python strings *)

Definition str := list ascii.

Definition txt (s : string) : str := list_ascii_of_string s.
Coercion txt : string >-> str.

Definition strs (l : list string) : list str := map txt l.

Module Str.

Definition code (c : ascii) : nat := nat_of_ascii c.

Definition in_range (lo hi : nat) (c : ascii) : bool :=
  (lo <=? code c) && (code c <=? hi).

(** [c.isupper()], [c.islower()] on one character. *)
Definition is_upper_char (c : ascii) : bool := in_range 65 90 c.
Definition is_lower_char (c : ascii) : bool := in_range 97 122 c.
Definition is_letter (c : ascii) : bool := is_upper_char c || is_lower_char c.
Definition is_digit (c : ascii) : bool := in_range 48 57 c.

(** [c.isspace()]: tab, newline, vertical tab, form feed, carriage return,
    the four separators 28..31 and the space. *)
Definition is_space (c : ascii) : bool :=
  in_range 9 13 c || in_range 28 32 c.

(** The class [\w] of [re]: alphanumerics and the underscore. *)
Definition is_word (c : ascii) : bool :=
  is_letter c || is_digit c || (code c =? 95).

Definition lower_char (c : ascii) : ascii :=
  if is_upper_char c then ascii_of_nat (code c + 32) else c.
Definition upper_char (c : ascii) : ascii :=
  if is_lower_char c then ascii_of_nat (code c - 32) else c.

(** [s.lower()], [s.upper()] on ASCII text: every character keeps its
    place. *)
Definition lower (s : str) : str := map lower_char s.
Definition upper (s : str) : str := map upper_char s.

Definition eqb_char (a b : ascii) : bool := Ascii.eqb a b.

Fixpoint eqb (a b : str) : bool :=
  match a, b with
  | [], [] => true
  | x :: a', y :: b' => eqb_char x y && eqb a' b'
  | _, _ => false
  end.

(** [s.startswith(p)] *)
Fixpoint startswith (p s : str) : bool :=
  match p, s with
  | [], _ => true
  | x :: p', y :: s' => eqb_char x y && startswith p' s'
  | _ :: _, [] => false
  end.

(** [s.endswith(p)] *)
Definition endswith (p s : str) : bool := startswith (rev p) (rev s).

(** [p in s] *)
Fixpoint contains (p s : str) : bool :=
  startswith p s ||
  match s with
  | [] => false
  | _ :: s' => contains p s'
  end.

(** [s.count(p)] for a non-empty [p]: occurrences counted from the left,
    without overlap. [skip] characters belong to the previous occurrence. *)
Fixpoint count_from (skip : nat) (p s : str) : nat :=
  match s with
  | [] => 0
  | _ :: s' =>
      match skip with
      | S k => count_from k p s'
      | O => if startswith p s then S (count_from (List.length p - 1) p s')
             else count_from 0 p s'
      end
  end.
Definition count (p s : str) : nat := count_from 0 p s.

(** [s.replace(old, new)] for a non-empty [old]; Python leaves the case
    of an empty [old] to a different rule (insertion between characters). *)
Fixpoint replace_from (skip : nat) (old new s : str) : str :=
  match s with
  | [] => []
  | c :: s' =>
      match skip with
      | S k => replace_from k old new s'
      | O => if startswith old s
             then new ++ replace_from (List.length old - 1) old new s'
             else c :: replace_from 0 old new s'
      end
  end.
Definition replace (old new s : str) : str :=
  match old with
  | [] => concat (map (fun c => new ++ [c]) s) ++ new
  | _ => replace_from 0 old new s
  end.

(** [s.lstrip()], [s.rstrip()], [s.strip()] *)
Fixpoint lstrip_by (f : ascii -> bool) (s : str) : str :=
  match s with
  | c :: s' => if f c then lstrip_by f s' else s
  | [] => []
  end.
Definition rstrip_by (f : ascii -> bool) (s : str) : str :=
  rev (lstrip_by f (rev s)).
Definition strip (s : str) : str := rstrip_by is_space (lstrip_by is_space s).

Definition mem_char (c : ascii) (cs : str) : bool := existsb (eqb_char c) cs.

(** [s.rstrip(chars)] *)
Definition rstrip_chars (chars s : str) : str :=
  rstrip_by (fun c => mem_char c chars) s.

(** Pieces of [s] between separators: every separator character closes
    the current piece, so [n] separators give [n + 1] pieces. *)
Fixpoint pieces (sep : ascii -> bool) (cur : str) (s : str) : list str :=
  match s with
  | [] => [rev cur]
  | c :: s' => if sep c then rev cur :: pieces sep [] s'
               else pieces sep (c :: cur) s'
  end.

Definition nonempty (s : str) : bool :=
  match s with [] => false | _ => true end.

(** [s.split()]: the maximal runs of non-whitespace characters. *)
Definition split (s : str) : list str :=
  filter nonempty (pieces is_space [] s).

(** [bool(s.strip())] *)
Definition has_content (s : str) : bool := existsb (fun c => negb (is_space c)) s.

Definition head_upper (s : str) : bool :=
  match s with
  | c :: _ => is_upper_char c
  | [] => false
  end.

End Str.

(** ** Insertion-ordered dictionaries *)

Module Dict.
Section Dict.
Variable V : Type.

Definition t := list (str * V).

Fixpoint get (k : str) (d : t) : option V :=
  match d with
  | [] => None
  | (k', v) :: d' => if Str.eqb k k' then Some v else get k d'
  end.

(** [d[k] = v]: an existing key keeps its place, a new one goes last. *)
Fixpoint set (k : str) (v : V) (d : t) : t :=
  match d with
  | [] => [(k, v)]
  | (k', v') :: d' =>
      if Str.eqb k k' then (k', v) :: d' else (k', v') :: set k v d'
  end.

Definition mem (k : str) (d : t) : bool :=
  match get k d with Some _ => true | None => false end.

Definition keys (d : t) : list str := map fst d.
End Dict.
End Dict.

(** ** The fragment of [re] the program uses

    A pattern is a sequence of atoms, matched from left to right with
    backtracking: alternatives are tried in the order they are written and a
    repetition is greedy (longest first). *)

Module Re.

Inductive atom : Type :=
| Lit (s : str)                          (* literal characters *)
| Alt (alts : list str)                  (* (a|b|c), literal alternatives *)
| Rep (min : nat) (cls : ascii -> bool)   (* cls{min,}, so + is Rep 1 and * is Rep 0 *)
| Opt (c : ascii)                         (* c? *)
| WordB                                   (* \b *)
| Bos                                     (* ^ *)
| Eos.                                    (* $ *)

Definition regex := list atom.

Definition is_word_opt (c : option ascii) : bool :=
  match c with
  | Some c => Str.is_word c
  | None => false
  end.

(** [\b]: exactly one of the two neighbours is a word character; the ends of
    the string count as non-word. *)
Definition boundary (prev : option ascii) (s : str) : bool :=
  xorb (is_word_opt prev) (is_word_opt (hd_error s)).

(** [$] without MULTILINE: at the end, or before a final newline. *)
Definition at_end (s : str) : bool :=
  match s with
  | [] => true
  | [c] => Str.code c =? 10
  | _ => false
  end.

Definition char_eq (ci : bool) (a b : ascii) : bool :=
  if ci then Str.eqb_char (Str.lower_char a) (Str.lower_char b)
  else Str.eqb_char a b.

(** The literal [l] at the start of [s]: the characters it matched and what
    follows them. *)
Fixpoint strip_lit (ci : bool) (l s : str) : option (str * str) :=
  match l, s with
  | [], _ => Some ([], s)
  | a :: l', c :: s' =>
      if char_eq ci a c then
        match strip_lit ci l' s' with
        | Some (m, r) => Some (c :: m, r)
        | None => None
        end
      else None
  | _ :: _, [] => None
  end.

(** The character before the position reached after consuming [m]. *)
Definition prev_after (prev : option ascii) (m : str) : option ascii :=
  fold_left (fun _ c => Some c) m prev.

(** The longest prefix of [s] in the class. *)
Fixpoint run (cls : ascii -> bool) (s : str) : nat :=
  match s with
  | c :: s' => if cls c then S (run cls s') else 0
  | [] => 0
  end.

Section Match.
Variable ci : bool.

(** [first_of k xs]: the first [x] of [xs] on which [k] succeeds. *)
Fixpoint first_of (A B : Type) (k : A -> option B) (xs : list A) : option B :=
  match xs with
  | [] => None
  | x :: xs' => match k x with Some r => Some r | None => first_of k xs' end
  end.

(** The candidate lengths of a greedy repetition: [n], [n - 1], ..., [min]. *)
Fixpoint down_to (min n : nat) : list nat :=
  if n <? min then []
  else match n with
       | O => [0]
       | S n' => n :: down_to min n'
       end.

(** [match_here r prev s]: the pattern [r] at the start of [s], [prev] being
    the character before it; the matched str and the rest. *)
Fixpoint match_here (r : regex) (prev : option ascii) (s : str)
  : option (str * str) :=
  match r with
  | [] => Some ([], s)
  | a :: r' =>
      let continue (m rest : str) :=
        match match_here r' (prev_after prev m) rest with
        | Some (m', rest') => Some (m ++ m', rest')
        | None => None
        end in
      match a with
      | Lit l =>
          match strip_lit ci l s with
          | Some (m, rest) => continue m rest
          | None => None
          end
      | Alt alts =>
          first_of (fun l => match strip_lit ci l s with
                             | Some (m, rest) => continue m rest
                             | None => None
                             end) alts
      | Rep min cls =>
          first_of (fun k => continue (firstn k s) (skipn k s))
                   (down_to min (run cls s))
      | Opt c =>
          match (match s with
                 | c' :: s' => if char_eq ci c c' then continue [c'] s' else None
                 | [] => None
                 end) with
          | Some r => Some r
          | None => continue [] s
          end
      | WordB => if boundary prev s then continue [] s else None
      | Bos => match prev with None => continue [] s | Some _ => None end
      | Eos => if at_end s then continue [] s else None
      end
  end.

Variable r : regex.

(** One left-to-right pass: each character is either kept or belongs to a
    match. A match is looked for at every position that no earlier match
    covers; an empty match is not taken. *)
Inductive seg : Type :=
| Keep (c : ascii)
| Hit (m : str).

Fixpoint scan_from (skip : nat) (prev : option ascii) (s : str) : list seg :=
  match s with
  | [] => []
  | c :: s' =>
      match skip with
      | S k => scan_from k (Some c) s'
      | O =>
          match match_here r prev s with
          | Some ((_ :: _) as m, _) => Hit m :: scan_from (length m - 1) (Some c) s'
          | _ => Keep c :: scan_from 0 (Some c) s'
          end
      end
  end.

Definition scan (s : str) : list seg := scan_from 0 None s.

Definition is_hit (g : seg) : bool :=
  match g with Hit _ => true | Keep _ => false end.

(** [re.search(r, s) is not None] *)
Definition search (s : str) : bool := existsb is_hit (scan s).

(** [re.match(r, s) is not None] *)
Definition matches (s : str) : bool :=
  match match_here r None s with Some _ => true | None => false end.

(** [re.sub(r, repl, s)], [repl] computed from the matched str. *)
Definition sub (repl : str -> str) (s : str) : str :=
  flat_map (fun g => match g with Keep c => [c] | Hit m => repl m end) (scan s).

(** [[m.span() for m in re.finditer(r, s)]] *)
Fixpoint spans_from (pos : nat) (gs : list seg) : list (nat * nat) :=
  match gs with
  | [] => []
  | Keep _ :: gs' => spans_from (S pos) gs'
  | Hit m :: gs' => (pos, pos + length m) :: spans_from (pos + length m) gs'
  end.
Definition finditer (s : str) : list (nat * nat) := spans_from 0 (scan s).

(** [re.split(r, s)] for a pattern without groups. *)
Fixpoint split_from (cur : str) (gs : list seg) : list str :=
  match gs with
  | [] => [rev cur]
  | Keep c :: gs' => split_from (c :: cur) gs'
  | Hit _ :: gs' => rev cur :: split_from [] gs'
  end.
Definition split (s : str) : list str := split_from [] (scan s).

End Match.

End Re.

(** [s[start:end]] *)
Definition slice (s : str) (start stop : nat) : str :=
  firstn (stop - start) (skipn start s).

(** ** The world outside the session: [random] and the clock

    [random.random()] reads the next draw of a tape of rationals in [0, 1);
    [datetime.now().isoformat()] reads the next stamp of the clock. *)

Record World : Type := mkWorld {
  draws : nat -> Q;
  draw_pos : nat;
  stamps : nat -> str;
  stamp_pos : nat
}.

Definition M (A : Type) : Type := World -> A * World.

Definition ret (A : Type) (a : A) : M A := fun w => (a, w).

Definition bind (A B : Type) (m : M A) (k : A -> M B) : M B :=
  fun w => let (a, w') := m w in k a w'.

Notation "x <- m ;; k" := (bind m (fun x => k))
  (at level 61, m at next level, right associativity).

Module Random.

(** [random.random()] *)
Definition random : M Q :=
  fun w => (draws w (draw_pos w),
            mkWorld (draws w) (S (draw_pos w)) (stamps w) (stamp_pos w)).

(** A uniform index below [n], from one draw. *)
Definition randbelow (n : nat) : M nat :=
  u <- random ;;
  ret (Z.to_nat (Qfloor (u * inject_Z (Z.of_nat n))%Q) mod n).

(** [random.choice(xs)] *)
Definition choice (xs : list str) : M str :=
  j <- randbelow (length xs) ;;
  ret (nth j xs []).

Fixpoint set_nth (j : nat) (x : str) (xs : list str) : list str :=
  match xs, j with
  | [], _ => []
  | _ :: xs', O => x :: xs'
  | y :: xs', S j' => y :: set_nth j' x xs'
  end.

(** [random.sample(population, k)]: [k] picks from a pool; each pick is
    replaced in the pool by the pool's last live element. *)
Fixpoint sample_from (pool : list str) (n k : nat) : M (list str) :=
  match k with
  | O => ret []
  | S k' =>
      j <- randbelow n ;;
      let pool' := set_nth j (nth (n - 1) pool []) pool in
      rest <- sample_from pool' (n - 1) k' ;;
      ret (nth j pool [] :: rest)
  end.
Definition sample (population : list str) (k : nat) : M (list str) :=
  sample_from population (length population) k.

End Random.

(** [datetime.now().isoformat()] *)
Definition now_isoformat : M str :=
  fun w => (stamps w (stamp_pos w),
            mkWorld (draws w) (draw_pos w) (stamps w) (S (stamp_pos w))).

(** ** The pattern library *)

Definition _load_cliche_patterns : list str := strs [
  "think outside the box";
  "loose cannon";
  "perfect storm";
  "can of worms";
  "what goes around comes around";
  "dead as a doornail";
  "plenty of fish in the sea";
  "ignorance is bliss";
  "like a kid in a candy store";
  "you can't judge a book by its cover";
  "take the tiger by the tail";
  "every rose has its thorn";
  "good things come to those who wait";
  "in the nick of time";
  "if only walls could talk";
  "the apple doesn't fall far from the tree";
  "the pot calling the kettle black";
  "the grass is always greener on the other side";
  "beating a dead horse"
].

Definition entry (k : string) (vs : list string) : str * list str :=
  (txt k, strs vs).

Definition _load_cliche_alternatives : Dict.t (list str) := [
  entry "think outside the box"
    ["find a new angle"; "break the pattern"; "try something unexpected";
     "look at it differently"; "challenge the assumptions"];
  entry "loose cannon"
    ["unpredictable force"; "wild card"; "walking disaster"; "chaos magnet";
     "human hurricane"];
  entry "perfect storm"
    ["worst-case scenario"; "everything going wrong at once";
     "complete disaster"; "catastrophic alignment"; "nightmare convergence"];
  entry "can of worms"
    ["messy situation"; "complicated problem"; "tangled mess"; "rabbit hole";
     "minefield"];
  entry "what goes around comes around"
    ["karma catches up"; "actions have consequences";
     "the universe balances things out"; "payback time";
     "justice finds a way"];
  entry "dead as a doornail"
    ["completely lifeless"; "stone cold"; "gone for good"; "finished";
     "beyond saving"];
  entry "plenty of fish in the sea"
    ["other opportunities out there"; "not the only option";
     "more chances ahead"; "different paths to explore";
     "other doors will open"];
  entry "ignorance is bliss"
    ["sometimes not knowing is better"; "knowledge can be a burden";
     "the truth hurts"; "some things are better left unknown";
     "reality can be harsh"];
  entry "like a kid in a candy store"
    ["absolutely thrilled"; "overwhelmed with excitement";
     "eyes wide with wonder"; "spoiled for choice";
     "drunk on possibilities"];
  entry "you can't judge a book by its cover"
    ["appearances can be deceiving"; "there's more than meets the eye";
     "looks don't tell the whole story"; "first impressions can be wrong";
     "scratch the surface"];
  entry "in the nick of time"
    ["just barely made it"; "cutting it close"; "with seconds to spare";
     "at the last possible moment"; "pulled it off somehow"];
  entry "beating a dead horse"
    ["pointless argument"; "wasted effort"; "going in circles";
     "talking to a wall"; "spitting in the wind"]
].

Definition _load_trope_database : Dict.t (list str) := [
  entry "villain_monologue"
    ["you see, my plan was"; "before you die"; "you cannot stop me";
     "i have already won"];
  entry "exposition_dump"
    ["as you know"; "remember when we"; "let me tell you about"];
  entry "romantic_tension"
    ["you drive me crazy"; "i hate that i love you";
     "we can't keep doing this"];
  entry "conflict_escalation"
    ["you always do this"; "here we go again"; "typical"]
].

Definition _load_tone_keywords : Dict.t (list str) := [
  entry "angry" ["furious"; "rage"; "damn"; "hell"; "angry"; "mad"; "pissed";
                 "livid"; "hate"];
  entry "sad" ["tears"; "crying"; "hurt"; "broken"; "lost"; "empty"; "alone";
               "depressed"; "sob"];
  entry "happy" ["amazing"; "wonderful"; "fantastic"; "love"; "joy"; "excited";
                 "thrilled"; "delighted"];
  entry "fearful" ["scared"; "terrified"; "afraid"; "nightmare"; "panic";
                   "dangerous"; "worried"; "anxious"];
  entry "sarcastic" ["oh great"; "fantastic"; "wonderful"; "sure"; "right";
                     "obviously"; "brilliant"; "perfect"];
  entry "romantic" ["love"; "heart"; "beautiful"; "forever"; "soul"; "kiss";
                    "darling"; "honey"; "sweetheart"];
  entry "mysterious" ["secret"; "hidden"; "shadow"; "whisper"; "unknown";
                      "strange"; "curious"; "enigma"];
  entry "aggressive" ["fight"; "kill"; "destroy"; "attack"; "war"; "battle";
                      "crush"; "defeat"];
  entry "defensive" ["told you"; "already"; "didn't do"; "wasn't me";
                     "innocent"; "prove it"]
].

(** ** Tone classification *)

Section Tone.
Variable tone_keywords : Dict.t (list str).

(** [sum(1 for keyword in keywords if keyword in text_lower)] *)
Definition keyword_score (text_lower : str) (keywords : list str) : nat :=
  length (filter (fun keyword => Str.contains keyword text_lower) keywords).

(** The loop that fills [tone_scores]: a tone is entered only with a
    positive score. *)
Fixpoint fill_tone_scores (text_lower : str) (table : Dict.t (list str))
  (tone_scores : Dict.t nat) : Dict.t nat :=
  match table with
  | [] => tone_scores
  | (tone, keywords) :: table' =>
      let score := keyword_score text_lower keywords in
      fill_tone_scores text_lower table'
        (if 0 <? score then Dict.set tone score tone_scores else tone_scores)
  end.

(** [max(d, key=d.get)] over the remaining keys: the running best is
    replaced only by a strictly larger value. *)
Fixpoint max_by_value (best : str * nat) (d : Dict.t nat) : str :=
  match d with
  | [] => fst best
  | (k, v) :: d' => max_by_value (if snd best <? v then (k, v) else best) d'
  end.

Definition analyze_tone_with (s : str) : str :=
  let text_lower := Str.lower s in
  let tone_scores := fill_tone_scores text_lower tone_keywords [] in
  match tone_scores with
  | [] => txt "neutral"
  | first :: others => max_by_value first others
  end.

End Tone.

Definition _analyze_tone (s : str) : str :=
  analyze_tone_with _load_tone_keywords s.

(** The count of each tone's keywords that occur in the lowered str, in the
    order the tones are registered. *)
Definition counts_of (table : Dict.t (list str)) (text_lower : str)
  : list (str * nat) :=
  map (fun e => (fst e, keyword_score text_lower (snd e))) table.

Definition tone_counts (s : str) : list (str * nat) :=
  counts_of _load_tone_keywords (Str.lower s).

Definition positive (e : str * nat) : bool := 0 <? snd e.


(** ** Sentences and pacing *)

Definition is_terminal (c : ascii) : bool := Str.mem_char c ".!?".

(** [[s.strip() for s in re.split(r'[.!?]+', text) if s.strip()]] *)
Definition sentences_of (text : str) : list str :=
  map Str.strip
    (filter Str.has_content (Re.split false [Re.Rep 1 is_terminal] text)).

Definition sum_nat (l : list nat) : nat := fold_right Nat.add 0 l.

Definition Qnat (n : nat) : Q := inject_Z (Z.of_nat n).

(** [statistics.mean(l)] for a non-empty list of integers. *)
Definition mean (l : list nat) : Q := (Qnat (sum_nat l) / Qnat (length l))%Q.

(** [len(set(l))] *)
Definition distinct (l : list nat) : nat := length (nodup Nat.eq_dec l).

(** [[len(s.split()) for s in sentences]] *)
Definition word_counts (sentences : list str) : list nat :=
  map (fun s => length (Str.split s)) sentences.

Definition _calculate_pacing_score (text : str) : Q :=
  let sentences := sentences_of text in
  match sentences with
  | [] => (1 # 2)%Q
  | _ =>
      let lengths := word_counts sentences in
      let variety := (Qnat (distinct lengths) / Qnat (length lengths))%Q in
      let avg_length := mean lengths in
      let ideal_length := (8 # 1)%Q in
      let length_score :=
        (1 - Qabs (avg_length - ideal_length) / ideal_length)%Q in
      (variety * (6 # 10) + length_score * (4 # 10))%Q
  end.

Record Pacing : Type := mkPacing {
  pacing_sentence_count : nat;
  pacing_avg_sentence_length : Q;
  rhythm_variety : nat;
  interruptions : nat;
  emphasis : nat;
  pacing_score : Q
}.

Definition _analyze_pacing (text : str) : Pacing :=
  let sentences := sentences_of text in
  mkPacing
    (length sentences)
    (match sentences with [] => 0%Q | _ => mean (word_counts sentences) end)
    (distinct (word_counts sentences))
    (Str.count "--" text + Str.count "..." text)
    (Str.count "!" text + Str.count "?" text)
    (_calculate_pacing_score text).

(** The sentences as the specification words them: the pieces of the text
    between maximal runs of terminal punctuation, without the pieces that
    hold nothing but whitespace. *)
Fixpoint split_runs (sep : ascii -> bool) (in_run : bool) (cur : str) (s : str)
  : list str :=
  match s with
  | [] => [rev cur]
  | c :: s' =>
      if sep c then
        if in_run then split_runs sep true cur s'
        else rev cur :: split_runs sep true [] s'
      else split_runs sep false (c :: cur) s'
  end.

Definition spec_sentences (text : str) : list str :=
  filter Str.has_content (split_runs is_terminal false [] text).

(** ** The session *)

Record Character : Type := mkCharacter {
  name : str;
  voice_patterns : Dict.t Q;
  emotional_range : list str;
  speech_quirks : list str;
  dialogue_count : nat;
  avg_sentence_length : Q;
  vocabulary_complexity : Q
}.

Record DialogueLine : Type := mkDialogueLine {
  speaker : str;
  text : str;
  context : str;
  emotional_tone : str;
  timestamp : str;
  scene_position : nat
}.

Record SceneContext : Type := mkSceneContext {
  setting : str;
  mood : str;
  tension_level : Z;
  characters_present : list str;
  plot_points : list str
}.

Record DialogueAlternative : Type := mkDialogueAlternative {
  original_phrase : str;
  alternatives : list str;
  character_voice_adjusted : list str;
  tone_context : str
}.

Definition line_speaker (line : DialogueLine) : str := speaker line.

(** The mutable part of a [DialogueComposer]; the five tables loaded by
    [__init__] are the constants above. *)
Record DialogueComposer : Type := mkComposer {
  characters : Dict.t Character;
  dialogue_history : list DialogueLine;
  scene_context : option SceneContext
}.

(** [DialogueComposer()] *)
Definition init : DialogueComposer := mkComposer [] [] None.

Definition default_voice : Dict.t Q := [
  (txt "formality", (5 # 10)%Q);
  (txt "verbosity", (5 # 10)%Q);
  (txt "emotion_intensity", (5 # 10)%Q);
  (txt "interruption_tendency", (3 # 10)%Q);
  (txt "question_frequency", (2 # 10)%Q)
].

(** [voice_description or {...}]: [None] and the empty dict both give the
    defaults. *)
Definition add_character (self : DialogueComposer) (name : str)
  (voice_description : option (Dict.t Q)) : DialogueComposer :=
  let voice_patterns :=
    match voice_description with
    | Some ((_ :: _) as d) => d
    | _ => default_voice
    end in
  mkComposer
    (Dict.set name (mkCharacter name voice_patterns [] [] 0 0%Q 0%Q)
       (characters self))
    (dialogue_history self)
    (scene_context self).

Definition set_scene_context (self : DialogueComposer) (setting mood : str)
  (tension : Z) (characters_ : list str) (plot_points : option (list str))
  : DialogueComposer :=
  mkComposer (characters self) (dialogue_history self)
    (Some (mkSceneContext setting mood tension characters_
             (match plot_points with Some l => l | None => [] end))).

(** [voice_patterns.get(key, 0.5)] *)
Definition voice_param (c : Character) (key : string) : Q :=
  match Dict.get (txt key) (voice_patterns c) with
  | Some v => v
  | None => (5 # 10)%Q
  end.

Definition Qltb (a b : Q) : bool := if Qlt_le_dec a b then true else false.

(** ** Voice transforms *)

(** [for old, new in table.items(): result = re.sub(r'\b' + old + r'\b',
    new, result, flags=re.IGNORECASE)] *)
Definition word_re (w : str) : Re.regex := [Re.WordB; Re.Lit w; Re.WordB].

Definition sub_word (w new : str) (s : str) : str :=
  Re.sub true (word_re w) (fun _ => new) s.

Definition replace_words (table : list (str * str)) (s : str) : str :=
  fold_left (fun result e => sub_word (fst e) (snd e) result) table s.

Definition pair (a b : string) : str * str := (txt a, txt b).

Definition formal_replacements : list (str * str) := [
  pair "can't" "cannot";
  pair "won't" "will not";
  pair "don't" "do not";
  pair "isn't" "is not";
  pair "aren't" "are not";
  pair "yeah" "yes";
  pair "okay" "very well";
  pair "sure" "certainly"
].

(** [_make_more_formal] with the probability of a prefix as a parameter;
    the program fixes it to 0.2. *)
Definition _make_more_formal_at (threshold : Q) (text : str) : M str :=
  let result := replace_words formal_replacements text in
  if negb (Re.matches false
             [Re.Bos; Re.Alt (strs ["Perhaps"; "It seems"; "One might"; "I believe"])]
             result)
  then
    let formal_prefixes := strs ["Perhaps"; "It appears that"; "One might say"] in
    u <- Random.random ;;
    if Qltb u threshold then
      prefix <- Random.choice formal_prefixes ;;
      ret (prefix ++ txt " " ++ Str.lower result)
    else ret result
  else ret result.

Definition _make_more_formal : str -> M str := _make_more_formal_at (2 # 10)%Q.

Definition casual_replacements : list (str * str) := [
  pair "cannot" "can't";
  pair "will not" "won't";
  pair "do not" "don't";
  pair "is not" "isn't";
  pair "are not" "aren't";
  pair "very well" "okay";
  pair "certainly" "sure";
  pair "perhaps" "maybe"
].

Definition _make_more_casual (text : str) : M str :=
  let result := replace_words casual_replacements text in
  if negb (Re.matches true
             [Re.Bos; Re.Alt (strs ["Look"; "Hey"; "Well"; "You know"])] result)
  then
    let casual_markers := strs ["Look,"; "Hey,"; "Well,"] in
    u <- Random.random ;;
    if Qltb u (2 # 10)%Q then
      marker <- Random.choice casual_markers ;;
      ret (marker ++ txt " " ++ Str.lower result)
    else ret result
  else ret result.

Definition verbose_expansions : list (str * str) := [
  pair "bad" "absolutely terrible";
  pair "good" "quite excellent";
  pair "big" "enormously large";
  pair "small" "rather diminutive";
  pair "fast" "incredibly swift";
  pair "slow" "painfully sluggish";
  pair "hard" "extraordinarily difficult";
  pair "easy" "remarkably simple"
].

Definition _make_more_verbose (text : str) : M str :=
  let result := replace_words verbose_expansions text in
  let explanatory_additions := strs [
    ", if you understand what I mean";
    ", as I'm sure you can appreciate";
    ", which is quite significant";
    ", in my considered opinion"
  ] in
  u <- Random.random ;;
  if Qltb u (4 # 10)%Q then
    addition <- Random.choice explanatory_additions ;;
    ret (Str.rstrip_chars ".!?" result ++ addition ++ txt ".")
  else ret result.

Definition terse_removals : list Re.regex := [
  [Re.WordB;
   Re.Alt (strs ["quite"; "rather"; "very"; "really"; "absolutely"; "completely"]);
   Re.Rep 1 Str.is_space];
  [Re.WordB;
   Re.Alt (strs ["I think"; "I believe"; "it seems"; "perhaps"; "maybe"]);
   Re.Rep 1 Str.is_space];
  [Re.WordB;
   Re.Alt (strs ["you know"; "like"; "sort of"; "kind of"]);
   Re.Rep 1 Str.is_space];
  [Re.Lit ","; Re.Rep 0 Str.is_space;
   Re.Alt (strs ["which is"; "that is"; "as you know"])]
].

Definition _make_more_terse (text : str) : str :=
  let result :=
    fold_left (fun result pattern => Re.sub true pattern (fun _ => []) result)
      terse_removals text in
  let result :=
    Str.strip (Re.sub false [Re.Rep 1 Str.is_space] (fun _ => txt " ") result) in
  Re.sub false
    [Re.Opt ","; Re.Rep 1 Str.is_space;
     Re.Alt (strs ["I guess"; "I suppose"; "or something"]);
     Re.Opt "."; Re.Eos]
    (fun _ => txt ".") result.

Definition _add_emotional_intensity (text : str) : M str :=
  let intensifiers := strs ["absolutely"; "completely"; "utterly"; "totally"; "damn"] in
  u <- Random.random ;;
  result <-
    (if Qltb u (5 # 10)%Q then
       intensifier <- Random.choice intensifiers ;;
       ret (Re.sub true
              [Re.WordB;
               Re.Alt (strs ["bad"; "good"; "wrong"; "right"; "important"; "serious"]);
               Re.WordB]
              (fun group1 => intensifier ++ txt " " ++ group1) text)
     else ret text) ;;
  if negb (Str.endswith "!" text || Str.endswith "?" text || Str.endswith "..." text)
  then
    u' <- Random.random ;;
    if Qltb u' (6 # 10)%Q then ret (Str.rstrip_chars "." result ++ txt "!")
    else ret result
  else ret result.

Definition is_bang (c : ascii) : bool := Str.mem_char c "!".
Definition is_dot (c : ascii) : bool := Str.mem_char c ".".

Definition _reduce_emotional_intensity (text : str) : str :=
  let result :=
    Re.sub true
      [Re.WordB;
       Re.Alt (strs ["absolutely"; "completely"; "utterly"; "totally"; "damn";
                     "really"; "very"]);
       Re.Rep 1 Str.is_space]
      (fun _ => []) text in
  let result := Re.sub false [Re.Rep 1 is_bang] (fun _ => txt ".") result in
  let result :=
    Re.sub false [Re.Lit ".."; Re.Rep 1 is_dot] (fun _ => txt ".") result in
  Str.strip result.

(** The three adjustments of the loop body of [_adapt_to_character_voice]. *)
Definition adjust_formality_at (threshold : Q) (formality : Q) (adapted : str)
  : M str :=
  if Qltb (7 # 10)%Q formality then _make_more_formal_at threshold adapted
  else if Qltb formality (3 # 10)%Q then _make_more_casual adapted
  else ret adapted.

Definition adjust_formality : Q -> str -> M str := adjust_formality_at (2 # 10)%Q.

Definition adjust_verbosity (verbosity : Q) (adapted : str) : M str :=
  if Qltb (7 # 10)%Q verbosity then _make_more_verbose adapted
  else if Qltb verbosity (3 # 10)%Q then ret (_make_more_terse adapted)
  else ret adapted.

Definition adjust_emotion (emotion_intensity : Q) (adapted : str) : M str :=
  if Qltb (7 # 10)%Q emotion_intensity then _add_emotional_intensity adapted
  else if Qltb emotion_intensity (3 # 10)%Q
       then ret (_reduce_emotional_intensity adapted)
  else ret adapted.

Fixpoint mapM (A B : Type) (f : A -> M B) (l : list A) : M (list B) :=
  match l with
  | [] => ret []
  | x :: l' => y <- f x ;; ys <- mapM f l' ;; ret (y :: ys)
  end.

Definition _adapt_to_character_voice (self : DialogueComposer) (speaker : str)
  (alternatives : list str) (original_text : str) : M (list str) :=
  match Dict.get speaker (characters self) with
  | None => ret alternatives
  | Some character =>
      mapM (fun alt =>
              adapted <- adjust_formality (voice_param character "formality") alt ;;
              adapted <- adjust_verbosity (voice_param character "verbosity") adapted ;;
              adjust_emotion (voice_param character "emotion_intensity") adapted)
           alternatives
  end.

(** ** Detection *)

(** The cliché patterns hold no metacharacter: each is the literal it spells. *)
Definition literal_re (pattern : str) : Re.regex := [Re.Lit pattern].

Record ClicheReport : Type := mkClicheReport {
  cliche_pattern : str;
  cliche_severity : str;
  cliche_suggestion : str
}.

Definition _detect_cliches (text : str) : list ClicheReport :=
  let text_lower := Str.lower text in
  flat_map (fun pattern =>
              if Re.search false (literal_re pattern) text_lower
              then [mkClicheReport pattern "medium"
                      "Consider rephrasing to be more original"]
              else [])
           _load_cliche_patterns.

Record TropeReport : Type := mkTropeReport {
  trope : str;
  trope_pattern : str;
  trope_severity : str
}.

Definition _detect_tropes (text : str) : list TropeReport :=
  let text_lower := Str.lower text in
  flat_map (fun e =>
              let trope_type := fst e in
              flat_map (fun pattern =>
                          if Str.contains pattern text_lower
                          then [mkTropeReport trope_type pattern
                                  (if Str.eqb trope_type "romantic_tension"
                                   then txt "low" else txt "medium")]
                          else [])
                       (snd e))
           _load_trope_database.

(** The first loop of [generate_dialogue_alternatives]: every match of
    every pattern in the lowered text, with the phrase cut from the
    original text at the span of the match. *)
Definition detected_cliches (text : str) : list (str * str) :=
  let text_lower := Str.lower text in
  flat_map (fun pattern =>
              map (fun span => (slice text (fst span) (snd span), pattern))
                  (Re.finditer false (literal_re pattern) text_lower))
           _load_cliche_patterns.

Fixpoint alternatives_for (self : DialogueComposer) (speaker text : str)
  (num_alternatives : nat) (detected : list (str * str))
  : M (list DialogueAlternative) :=
  match detected with
  | [] => ret []
  | (original_phrase, pattern) :: detected' =>
      let base_alternatives :=
        match Dict.get pattern _load_cliche_alternatives with
        | Some l => l
        | None => []
        end in
      match base_alternatives with
      | [] => alternatives_for self speaker text num_alternatives detected'
      | _ =>
          selected_alternatives <-
            Random.sample base_alternatives
              (Nat.min num_alternatives (length base_alternatives)) ;;
          character_adapted <-
            _adapt_to_character_voice self speaker selected_alternatives text ;;
          let alternative :=
            mkDialogueAlternative original_phrase selected_alternatives
              character_adapted (_analyze_tone text) in
          rest <- alternatives_for self speaker text num_alternatives detected' ;;
          ret (alternative :: rest)
      end
  end.

Definition generate_dialogue_alternatives (self : DialogueComposer)
  (speaker text : str) (num_alternatives : nat) : M (list DialogueAlternative) :=
  alternatives_for self speaker text num_alternatives (detected_cliches text).

(** ** Analysis of one line *)

(** The outcome of [_check_character_consistency]; a warning carries the
    deviation it reports. *)
Inductive Consistency : Type :=
| NewCharacter
| Established (voice_drift_warnings : list Q).

Definition _check_character_consistency (self : DialogueComposer)
  (speaker text : str) : Consistency :=
  match Dict.get speaker (characters self) with
  | None => NewCharacter
  | Some character =>
      let sentences := sentences_of text in
      let current_avg_length :=
        match sentences with
        | [] => 0%Q
        | _ => mean (word_counts sentences)
        end in
      if Qltb 0 (avg_sentence_length character) then
        let length_diff :=
          Qabs (current_avg_length - avg_sentence_length character) in
        if Qltb (3 # 1)%Q length_diff then Established [length_diff]
        else Established []
      else Established []
  end.

(** The advice [_generate_suggestions] can give, one constructor for each
    message. *)
Inductive Suggestion : Type :=
| ClichesFound (cliche_count : nat)
| AlternativesProvided
| PacingCouldImprove
| ToneMismatch.

Record Analysis : Type := mkAnalysis {
  analysis_speaker : str;
  analysis_text : str;
  word_count : nat;
  sentence_count : nat;
  cliches_detected : list ClicheReport;
  tropes_detected : list TropeReport;
  analysis_emotional_tone : str;
  character_consistency : Consistency;
  pacing_analysis : Pacing;
  dialogue_alternatives : list DialogueAlternative;
  suggestions : list Suggestion
}.

Definition _generate_suggestions (self : DialogueComposer) (analysis : Analysis)
  : list Suggestion :=
  (match cliches_detected analysis with
   | [] => []
   | l => [ClichesFound (length l)]
   end)
  ++ (match dialogue_alternatives analysis with
      | [] => []
      | _ => [AlternativesProvided]
      end)
  ++ (if Qltb (pacing_score (pacing_analysis analysis)) (4 # 10)%Q
      then [PacingCouldImprove] else [])
  ++ (match scene_context self with
      | Some scene =>
          if negb (Str.eqb (analysis_emotional_tone analysis) "neutral")
             && (7 <? tension_level scene)%Z
             && (Str.eqb (analysis_emotional_tone analysis) "happy"
                 || Str.eqb (analysis_emotional_tone analysis) "romantic")
          then [ToneMismatch] else []
      | None => []
      end).

(** [_update_character_patterns]: the count goes up for every line of a
    known speaker; the running average moves only when the line has a
    sentence. *)
Definition _update_character_patterns (self : DialogueComposer)
  (speaker text : str) : DialogueComposer :=
  match Dict.get speaker (characters self) with
  | None => self
  | Some character =>
      let dialogue_count' := dialogue_count character + 1 in
      let sentences := sentences_of text in
      let avg' :=
        match sentences with
        | [] => avg_sentence_length character
        | _ =>
            let current_avg := mean (word_counts sentences) in
            let total_sentences := dialogue_count' in
            ((avg_sentence_length character * Qnat (total_sentences - 1)
              + current_avg) / Qnat total_sentences)%Q
        end in
      mkComposer
        (Dict.set speaker
           (mkCharacter (name character) (voice_patterns character)
              (emotional_range character) (speech_quirks character)
              dialogue_count' avg' (vocabulary_complexity character))
           (characters self))
        (dialogue_history self)
        (scene_context self)
  end.

Definition analyze_dialogue_line (self : DialogueComposer)
  (speaker text context : str) : M (Analysis * DialogueComposer) :=
  alts <- generate_dialogue_alternatives self speaker text 5 ;;
  let analysis :=
    mkAnalysis speaker text
      (length (Str.split text))
      (length (filter Str.has_content
                 (Re.split false [Re.Rep 1 is_terminal] text)))
      (_detect_cliches text)
      (_detect_tropes text)
      (_analyze_tone text)
      (_check_character_consistency self speaker text)
      (_analyze_pacing text)
      alts
      [] in
  let analysis :=
    mkAnalysis (analysis_speaker analysis) (analysis_text analysis)
      (word_count analysis) (sentence_count analysis)
      (cliches_detected analysis) (tropes_detected analysis)
      (analysis_emotional_tone analysis) (character_consistency analysis)
      (pacing_analysis analysis) (dialogue_alternatives analysis)
      (_generate_suggestions self analysis) in
  stamp <- now_isoformat ;;
  let dialogue_line :=
    mkDialogueLine speaker text context (analysis_emotional_tone analysis)
      stamp (length (dialogue_history self)) in
  let self :=
    mkComposer (characters self) (dialogue_history self ++ [dialogue_line])
      (scene_context self) in
  ret (analysis, _update_character_patterns self speaker text).

(** ** Improved versions *)

(** [replacement[0].upper() + replacement[1:] if len(replacement) > 1
    else replacement.upper()] *)
Definition capitalize_first (replacement : str) : str :=
  if 1 <? length replacement
  then Str.upper (firstn 1 replacement) ++ skipn 1 replacement
  else Str.upper replacement.

(** The replacement handed to [str.replace] for one alternative. *)
Definition replacement_for (original_phrase replacement : str) : str :=
  if Str.nonempty original_phrase && Str.head_upper original_phrase
  then capitalize_first replacement
  else replacement.

Definition clean_up (improved_text : str) : str :=
  let improved_text :=
    Re.sub false [Re.Rep 2 is_bang] (fun _ => txt "!") improved_text in
  let improved_text :=
    Re.sub false [Re.Rep 1 Str.is_space] (fun _ => txt " ") improved_text in
  Str.strip improved_text.

Definition improved_version (original_text : str)
  (alternatives_ : list DialogueAlternative) (version_num : nat) : str :=
  clean_up
    (fold_left
       (fun improved_text alt =>
          match nth_error (character_voice_adjusted alt) version_num with
          | Some replacement =>
              Str.replace (original_phrase alt)
                (replacement_for (original_phrase alt) replacement)
                improved_text
          | None => improved_text
          end)
       alternatives_ original_text).

Definition _get_voice_guidance (self : DialogueComposer) (speaker : str)
  : list str :=
  match Dict.get speaker (characters self) with
  | None =>
      strs ["Character not established yet - focus on defining their unique voice."]
  | Some character =>
      let formality := voice_param character "formality" in
      let verbosity := voice_param character "verbosity" in
      let emotion := voice_param character "emotion_intensity" in
      (if Qltb (7 # 10)%Q formality
       then strs ["Maintain formal speech patterns - avoid contractions and slang"]
       else if Qltb formality (3 # 10)%Q
       then strs ["Keep it casual - use contractions and informal language"]
       else [])
      ++ (if Qltb (7 # 10)%Q verbosity
          then strs ["Character tends to be wordy - elaborate and explain"]
          else if Qltb verbosity (3 # 10)%Q
          then strs ["Character is economical with words - keep it brief and direct"]
          else [])
      ++ (if Qltb (7 # 10)%Q emotion
          then strs ["Character is emotionally expressive - use strong language and punctuation"]
          else if Qltb emotion (3 # 10)%Q
          then strs ["Character is emotionally restrained - keep tone measured"]
          else [])
  end.

Definition _get_scene_context_advice (self : DialogueComposer) : list str :=
  match scene_context self with
  | None => strs ["Set scene context for more targeted advice"]
  | Some scene =>
      (if (7 <? tension_level scene)%Z
       then strs ["High tension - use shorter, more urgent dialogue"]
       else if (tension_level scene <? 3)%Z
       then strs ["Low tension - allow for longer, more contemplative dialogue"]
       else [])
      ++ (if Str.eqb (mood scene) "romantic"
          then strs ["Romantic scene - focus on subtext and emotional vulnerability"]
          else if Str.eqb (mood scene) "mysterious"
          then strs ["Mysterious mood - use hints and implications rather than direct statements"]
          else [])
  end.

Record Improvement : Type := mkImprovement {
  original : str;
  cliche_alternatives : list DialogueAlternative;
  improved_versions : list str;
  character_voice_notes : list str;
  scene_context_advice : list str
}.

Definition max_list (l : list nat) : nat := fold_right Nat.max 0 l.

(** [suggest_improved_dialogue] reads the session and leaves it as it is. *)
Definition suggest_improved_dialogue (self : DialogueComposer)
  (speaker original_text : str) : M Improvement :=
  alternatives_ <- generate_dialogue_alternatives self speaker original_text 5 ;;
  let improved_versions :=
    match alternatives_ with
    | [] => []
    | _ =>
        map (improved_version original_text alternatives_)
          (seq 0 (Nat.min 3
                    (max_list
                       (map (fun alt => length (character_voice_adjusted alt))
                          alternatives_))))
    end in
  ret (mkImprovement original_text alternatives_ improved_versions
         (_get_voice_guidance self speaker)
         (_get_scene_context_advice self)).

(** ** Queries *)

(** A dict with the single key ["error"], or the value asked for. *)
Inductive Reply (A : Type) : Type :=
| Error (message : str)
| Value (a : A).
Arguments Error {A} message.
Arguments Value {A} a.

Record ContextSuggestion : Type := mkContextSuggestion {
  suggestion_speaker : str;
  context_factors : list str;
  suggested_directions : list str;
  tone_recommendations : list str;
  pacing_advice : list str;
  voice_guidance : list str
}.

Definition generate_context_aware_suggestion (self : DialogueComposer)
  (speaker context_hint : str) : Reply ContextSuggestion :=
  match scene_context self with
  | None => Error "No scene context set. Use set_scene_context() first."
  | Some scene =>
      let high := (7 <? tension_level scene)%Z in
      Value
        (mkContextSuggestion speaker []
           (if high
            then strs ["High tension scene - consider shorter, punchier dialogue with interruptions"]
            else [])
           ((if high then strs ["urgent, intense, or confrontational"] else [])
            ++ (if Str.eqb (mood scene) "romantic"
                then strs ["intimate"; "vulnerable"; "tender"] else []))
           (match Dict.get speaker (characters self) with
            | Some character =>
                if Qltb (7 # 10)%Q (voice_param character "formality")
                then strs ["Character tends toward formal speech - consider longer, more structured sentences"]
                else []
            | None => []
            end)
           (_get_voice_guidance self speaker))
  end.

(** [Counter(xs)]: the elements in order of first appearance, each with
    its number of occurrences. *)
Definition counter (xs : list str) : Dict.t nat :=
  fold_left
    (fun d x =>
       Dict.set x (match Dict.get x d with Some n => n | None => 0 end + 1) d)
    xs [].

(** A stable sort by decreasing count: an element goes before the ones
    already placed that do not have a larger count ([fold_right] places the
    later elements first). *)
Fixpoint insert_by_count (e : str * nat) (l : Dict.t nat) : Dict.t nat :=
  match l with
  | [] => [e]
  | e' :: l' =>
      if snd e' <=? snd e then e :: l else e' :: insert_by_count e l'
  end.

(** [Counter(xs).most_common(n)] *)
Definition most_common (n : nat) (xs : list str) : Dict.t nat :=
  firstn n (fold_right insert_by_count [] (counter xs)).

Definition distinct_str (xs : list str) : nat := length (counter xs).

Definition _calculate_consistency_score (character_lines : list DialogueLine) : Q :=
  if length character_lines <? 2 then 1%Q
  else
    let tones := map emotional_tone character_lines in
    let unique_tones := distinct_str tones in
    let consistency :=
      (1 - (Qnat unique_tones / Qnat (length tones)) * (5 # 10))%Q in
    Qmax 0 (Qmin 1 consistency).

(** [round(x, 1)] of the exact rational, halves to the even digit; the
    code rounds the double nearest to [x]. *)
Definition round1 (x : Q) : Q :=
  let y := (x * (10 # 1))%Q in
  let f := Qfloor y in
  let r := (y - inject_Z f)%Q in
  let n :=
    if Qltb r (1 # 2)%Q then f
    else if Qltb (1 # 2)%Q r then (f + 1)%Z
    else if Z.even f then f else (f + 1)%Z in
  (inject_Z n / (10 # 1))%Q.

Record VoiceSummary : Type := mkVoiceSummary {
  summary_name : str;
  summary_dialogue_count : nat;
  summary_avg_sentence_length : Q;
  common_tones : Dict.t nat;
  summary_voice_patterns : Dict.t Q;
  consistency_score : Q
}.

Definition get_character_voice_summary (self : DialogueComposer) (speaker : str)
  : Reply VoiceSummary :=
  match Dict.get speaker (characters self) with
  | None => Error (txt "Character " ++ speaker ++ txt " not found")
  | Some character =>
      let character_lines :=
        filter (fun line => Str.eqb (line_speaker line) speaker)
          (dialogue_history self) in
      Value
        (mkVoiceSummary (name character) (dialogue_count character)
           (round1 (avg_sentence_length character))
           (most_common 3 (map emotional_tone character_lines))
           (voice_patterns character)
           (_calculate_consistency_score character_lines))
  end.

(** ** The report *)

Record OverallPatterns : Type := mkOverallPatterns {
  tone_distribution : Dict.t nat;
  cliche_frequency : Q;
  avg_dialogue_length : Q
}.

Record Report : Type := mkReport {
  generated_at : str;
  total_dialogue_lines : nat;
  characters_analyzed : nat;
  report_scene_context : option SceneContext;
  character_summaries : list (str * Reply VoiceSummary);
  overall_patterns : option OverallPatterns
}.

(** The generator summed by [_analyze_overall_patterns]:

    [sum(len(self.analyze_dialogue_line(line.speaker, line.text)
    ["cliches_detected"]) for line in self.dialogue_history)]

    The list iterator holds an index [i] into the live list and stops when
    the index reaches its current length; every step calls
    [analyze_dialogue_line], which appends to that same list. [fuel] bounds
    the number of steps: [None] means the loop was still running. *)
Fixpoint sum_cliches_over_history (fuel : nat) (i total : nat)
  (self : DialogueComposer) : M (option (nat * DialogueComposer)) :=
  match nth_error (dialogue_history self) i with
  | None => ret (Some (total, self))
  | Some line =>
      match fuel with
      | O => ret None
      | S fuel' =>
          r <- analyze_dialogue_line self (speaker line) (text line) [] ;;
          sum_cliches_over_history fuel' (S i)
            (total + length (cliches_detected (fst r))) (snd r)
      end
  end.

Definition _analyze_overall_patterns (fuel : nat) (self : DialogueComposer)
  : M (option (option OverallPatterns * DialogueComposer)) :=
  match dialogue_history self with
  | [] => ret (Some (None, self))
  | _ =>
      let all_tones := map emotional_tone (dialogue_history self) in
      let tone_distribution := counter all_tones in
      r <- sum_cliches_over_history fuel 0 0 self ;;
      match r with
      | None => ret None
      | Some (total_cliches, self) =>
          ret (Some
                 (Some (mkOverallPatterns tone_distribution
                          (Qnat total_cliches
                           / Qnat (length (dialogue_history self)))%Q
                          (mean (map (fun line => length (Str.split (text line)))
                                   (dialogue_history self)))),
                  self))
      end
  end.

(** [export_analysis_report], up to the call of [json.dumps]. *)
Definition export_analysis_report (fuel : nat) (self : DialogueComposer)
  : M (option (Report * DialogueComposer)) :=
  stamp <- now_isoformat ;;
  let total := length (dialogue_history self) in
  let analyzed := length (characters self) in
  let scene := scene_context self in
  let summaries :=
    map (fun name => (name, get_character_voice_summary self name))
      (Dict.keys (characters self)) in
  r <- _analyze_overall_patterns fuel self ;;
  match r with
  | None => ret None
  | Some (overall, self) =>
      ret (Some (mkReport stamp total analyzed scene summaries overall, self))
  end.

(** ** Sessions as sequences of calls *)

Inductive Call : Type :=
| AddCharacter (name : str) (voice_description : option (Dict.t Q))
| SetSceneContext (setting mood : str) (tension : Z) (characters_ : list str)
    (plot_points : option (list str))
| AnalyzeDialogueLine (speaker text context : str)
| SuggestImprovedDialogue (speaker original_text : str)
| GetCharacterVoiceSummary (speaker : str)
| GenerateContextAwareSuggestion (speaker context_hint : str).

(** The session after one call; what the call returns is dropped. *)
Definition call (c : Call) (self : DialogueComposer) : M DialogueComposer :=
  match c with
  | AddCharacter name voice => ret (add_character self name voice)
  | SetSceneContext setting mood tension cs plot =>
      ret (set_scene_context self setting mood tension cs plot)
  | AnalyzeDialogueLine speaker text context =>
      r <- analyze_dialogue_line self speaker text context ;;
      ret (snd r)
  | SuggestImprovedDialogue speaker original_text =>
      _ <- suggest_improved_dialogue self speaker original_text ;;
      ret self
  | GetCharacterVoiceSummary speaker =>
      let _ := get_character_voice_summary self speaker in
      ret self
  | GenerateContextAwareSuggestion speaker hint =>
      let _ := generate_context_aware_suggestion self speaker hint in
      ret self
  end.

Fixpoint calls (cs : list Call) (self : DialogueComposer) : M DialogueComposer :=
  match cs with
  | [] => ret self
  | c :: cs' => self' <- call c self ;; calls cs' self'
  end.

(** The lines of the history spoken by [who]. *)
Definition lines_of (who : str) (history : list DialogueLine) : list DialogueLine :=
  filter (fun line => Str.eqb (speaker line) who) history.

(** [s.lower()] keeps every position: all the places where the pattern
    starts in [s], whether or not they overlap. *)
Definition occurrences (pattern s : str) : list nat :=
  filter (fun i => Str.startswith pattern (skipn i s)) (seq 0 (length s)).

(** ** Vocabulary of the statements *)

(** [post] does not register [who] again. *)
Definition no_registration (who : str) (cs : list Call) : bool :=
  forallb (fun c => match c with
                    | AddCharacter n _ => negb (Str.eqb n who)
                    | _ => true
                    end) cs.

(** The texts of the lines [who] speaks in a sequence of calls. *)
Definition spoken_by (who : str) (cs : list Call) : list str :=
  flat_map (fun c => match c with
                     | AnalyzeDialogueLine sp tx _ =>
                         if Str.eqb sp who then [tx] else []
                     | _ => []
                     end) cs.

(** The average sentence length of one line, 0 for a line without a
    sentence. *)
Definition line_average (tx : str) : Q :=
  match sentences_of tx with
  | [] => 0%Q
  | sentences => mean (word_counts sentences)
  end.

Definition has_sentence (tx : str) : bool :=
  match sentences_of tx with [] => false | _ => true end.

Definition sumQ (l : list Q) : Q := fold_right Qplus 0%Q l.

(** A world for examples: every draw is 0 and the clock stands still. *)
Definition still_world : World :=
  mkWorld (fun _ => 0%Q) 0 (fun _ => txt "2024-01-01T00:00:00") 0.

(** A session with one registered speaker and one recorded line. *)
Definition one_line_session : DialogueComposer :=
  fst (calls [AddCharacter "A" None; AnalyzeDialogueLine "A" "Hi." []]
         init still_world).

(** The pattern has a non-empty list of alternatives. *)
Definition has_alternatives (pattern : str) : bool :=
  match Dict.get pattern _load_cliche_alternatives with
  | Some (_ :: _) => true
  | _ => false
  end.

Definition starts_with_letter (s : str) : bool :=
  match s with
  | c :: _ => Str.is_letter c
  | [] => false
  end.

(** The character before position [k] of [s], [prev] being the one before
    position 0. *)
Definition prev_at (prev : option ascii) (s : str) (k : nat) : option ascii :=
  match k with
  | O => prev
  | S k' => nth_error s k'
  end.

(** No proper non-empty suffix of [p] is a prefix of [p]: two occurrences
    of [p] in a text cannot overlap. *)
Definition border_free (p : str) : bool :=
  forallb (fun j => negb (Str.startswith (skipn j p) p)) (seq 1 (length p - 1)).

(** What the specification asks of a detector: every place of every pattern in the
    lowered text, with the phrase found there in the original text. *)
Definition every_occurrence (text : str) : list (str * str) :=
  flat_map (fun pattern =>
              map (fun i => (slice text i (i + length pattern), pattern))
                  (occurrences pattern (Str.lower text)))
           _load_cliche_patterns.

(** ** Whole-word patterns, for the proofs about [replace_words] *)

Definition is_word_head (s : str) : bool := Re.is_word_opt (hd_error s).

(** [w] is at the start of [s] up to case, and a non-word character or the
    end of the text follows it. *)
Fixpoint tail_match (w s : str) : bool :=
  match w with
  | [] => negb (is_word_head s)
  | a :: w' =>
      match s with
      | c :: s' => Re.char_eq true a c && tail_match w' s'
      | [] => false
      end
  end.

(** [w] is at the start of [s] up to case. *)
Fixpoint ci_prefix (w s : str) : bool :=
  match w, s with
  | [], _ => true
  | a :: w', c :: s' => Re.char_eq true a c && ci_prefix w' s'
  | _ :: _, [] => false
  end.

(** [\bw\b] matches at the start of [s], [pw] telling whether the
    character before is a word character. *)
Definition word_at (w : str) (pw : bool) (s : str) : bool :=
  negb pw && tail_match w s.

(** [w] is not empty and both its ends are word characters. *)
Definition wordy (w : str) : bool :=
  is_word_head w && Re.is_word_opt (Re.prev_after None w).

(** No position of [s] matches [\bw\b]. *)
Fixpoint clean (w : str) (pw : bool) (s : str) : bool :=
  match s with
  | [] => true
  | c :: s' => negb (word_at w pw s) && clean w (Str.is_word c) s'
  end.

(** [a] and [b] are equal up to case as far as both go. *)
Fixpoint agree (a b : str) : bool :=
  match a, b with
  | x :: a', y :: b' => Re.char_eq true x y && agree a' b'
  | _, _ => true
  end.

(** [w] cannot start inside the replacement [f]: at every place of [f] that
    follows a non-word character, [w] and the rest of [f] differ before
    either ends; and [f] ends on a word character. *)
Fixpoint inner_ok (w : str) (pw : bool) (f : str) : bool :=
  match f with
  | [] => pw
  | a :: f' => (pw || negb (agree w f)) && inner_ok w (Str.is_word a) f'
  end.

(** [w] cannot run from the text into the replacement [f]: whatever of [w]
    follows one of its non-word characters differs from [f]. *)
Fixpoint window_ok (f : str) (pw : bool) (w : str) : bool :=
  match w with
  | [] => true
  | a :: q => (pw || negb (agree w f)) && window_ok f (Str.is_word a) q
  end.

Definition compatible (w' f : str) : bool :=
  inner_ok w' false f
  && match w' with
     | a :: q => window_ok f (Str.is_word a) q
     | [] => false
     end.

(** The table can be applied word after word without one replacement
    making room for another. *)
Definition table_ok (table : list (str * str)) : bool :=
  forallb (fun e =>
             wordy (fst e) && is_word_head (snd e)
             && forallb (fun e' => compatible (fst e') (snd e)) table)
          table.

(** The output of [sub_word w f] from a position, as a function of whether
    a word character precedes it. *)
Definition out_word (w f : str) (pw : bool) (s : str) : str :=
  flat_map (fun g => match g with Re.Keep c => [c] | Re.Hit _ => f end)
    (Re.scan_from true (word_re w) 0 (if pw then Some "a"%char else None) s).

(** ** Text beyond ASCII

    The cut of a detected phrase and its replacement, over code points.
    [str.lower()] keeps the length of an ASCII text; the lower-case form of
    U+0130 (capital I with dot above) has two characters, so a span found
    in the lowered text can lie one place off in the original. This part
    follows lines 271-281 and 699-709 of the source for texts made of ASCII
    characters and U+0130. *)

Module Wide.

Definition text : Type := list N.

(** The code points of an ASCII str. *)
Definition of_str (s : str) : text := map N_of_ascii s.

(** The characters covered: ASCII and U+0130. *)
Definition known (s : text) : bool :=
  forallb (fun c => (c <? 128)%N || (c =? 304)%N) s.

(** [c.lower()] *)
Definition lower_char (c : N) : text :=
  if ((65 <=? c) && (c <=? 90))%N then [(c + 32)%N]
  else if (c =? 304)%N then [105%N; 775%N]
  else [c].

(** [s.lower()] *)
Definition lower (s : text) : text := flat_map lower_char s.

(** [c.isupper()] *)
Definition is_upper_char (c : N) : bool :=
  ((65 <=? c) && (c <=? 90))%N || (c =? 304)%N.

(** [c.upper()] *)
Definition upper_char (c : N) : N :=
  if ((97 <=? c) && (c <=? 122))%N then (c - 32)%N else c.

Definition upper (s : text) : text := map upper_char s.

Fixpoint startswith (p s : text) : bool :=
  match p, s with
  | [], _ => true
  | x :: p', y :: s' => (x =? y)%N && startswith p' s'
  | _ :: _, [] => false
  end.

(** [[m.span() for m in re.finditer(pattern, s)]] for a non-empty pattern
    without metacharacters: the occurrences from the left, each search
    resuming after the last match. *)
Fixpoint finditer_from (skip pos : nat) (pattern s : text) : list (nat * nat) :=
  match s with
  | [] => []
  | _ :: s' =>
      match skip with
      | S k => finditer_from k (S pos) pattern s'
      | O =>
          if startswith pattern s
          then (pos, pos + length pattern)
                 :: finditer_from (length pattern - 1) (S pos) pattern s'
          else finditer_from 0 (S pos) pattern s'
      end
  end.

Definition finditer (pattern s : text) : list (nat * nat) :=
  finditer_from 0 0 pattern s.

(** [s[start:stop]] *)
Definition slice (s : text) (start stop : nat) : text :=
  firstn (stop - start) (skipn start s).

(** The first loop of [generate_dialogue_alternatives]. *)
Definition detected_cliches (original : text) : list (text * text) :=
  let text_lower := lower original in
  flat_map (fun pattern =>
              map (fun span => (slice original (fst span) (snd span), pattern))
                  (finditer pattern text_lower))
           (map of_str _load_cliche_patterns).

(** [replacement[0].upper() + replacement[1:] if len(replacement) > 1
    else replacement.upper()] *)
Definition capitalize_first (replacement : text) : text :=
  if 1 <? length replacement
  then upper (firstn 1 replacement) ++ skipn 1 replacement
  else upper replacement.

(** The replacement handed to [str.replace] for one alternative. *)
Definition replacement_for (original_phrase replacement : text) : text :=
  match original_phrase with
  | c :: _ => if is_upper_char c then capitalize_first replacement
              else replacement
  | [] => replacement
  end.

(** [s.replace(old, new)] for a non-empty [old]. *)
Fixpoint replace_from (skip : nat) (old new s : text) : text :=
  match s with
  | [] => []
  | c :: s' =>
      match skip with
      | S k => replace_from k old new s'
      | O => if startswith old s
             then new ++ replace_from (length old - 1) old new s'
             else c :: replace_from 0 old new s'
      end
  end.

Definition replace (old new s : text) : text := replace_from 0 old new s.

End Wide.

(** ** Vocabulary of the further properties *)

(** The lines a sequence of calls asks to analyse, in order. *)
Definition analysed (cs : list Call) : list (str * str * str) :=
  flat_map (fun c => match c with
                     | AnalyzeDialogueLine sp tx cx => [(sp, tx, cx)]
                     | _ => []
                     end) cs.

(** The scene a sequence of calls leaves, [scene] being the one before. *)
Definition scene_after (cs : list Call) (scene : option SceneContext)
  : option SceneContext :=
  fold_left (fun sc c =>
               match c with
               | SetSceneContext st md tn chars pl =>
                   Some (mkSceneContext st md tn chars
                           (match pl with Some l => l | None => [] end))
               | _ => sc
               end) cs scene.

Definition line_key (line : DialogueLine) : str * str * str :=
  (speaker line, text line, context line).

(** What holds of a character stored under [who] in every session. *)
Definition character_sound (history : list DialogueLine) (who : str)
  (c : Character) : Prop :=
  name c = who /\
  dialogue_count c <= length (lines_of who history) /\
  (0 <= avg_sentence_length c)%Q /\
  (dialogue_count c = 0 -> avg_sentence_length c = 0%Q).

Definition session_sound (self : DialogueComposer) : Prop :=
  forall who c,
    Dict.get who (characters self) = Some c ->
    character_sound (dialogue_history self) who c.

(** The voice a registration stores. *)
Definition voice_or_default (voice_description : option (Dict.t Q)) : Dict.t Q :=
  match voice_description with
  | Some ((_ :: _) as d) => d
  | _ => default_voice
  end.

(** A voice parameter that triggers neither branch of an adjustment. *)
Definition mid_range (q : Q) : Prop := (3 # 10 <= q)%Q /\ (q <= 7 # 10)%Q.

(** What every alternative returned for [text] satisfies, [n] being the
    number of alternatives asked for. *)
Definition alternative_sound (text : str) (n : nat) (detected : list (str * str))
  (alt : DialogueAlternative) : Prop :=
  exists pattern base,
    In (original_phrase alt, pattern) detected /\
    Dict.get pattern _load_cliche_alternatives = Some base /\
    length (alternatives alt) = Nat.min n (length base) /\
    Forall (fun a => In a base) (alternatives alt) /\
    length (character_voice_adjusted alt) = length (alternatives alt) /\
    tone_context alt = _analyze_tone text.

(** None of the words [ws] occurs in [s] as a whole word, whatever its
    case: [re.search(r'\b' + w + r'\b', s, re.IGNORECASE)] finds nothing. *)
Definition whole_words_absent (ws : list str) (s : str) : bool :=
  forallb (fun w => negb (Re.search true (word_re w) s)) ws.

(** [w] cannot start inside [f]: at every place of [f] that follows a
    non-word character, [w] and the rest of [f] differ before either ends. *)
Fixpoint inner_free (w : str) (pw : bool) (f : str) : bool :=
  match f with
  | [] => true
  | a :: f' => (pw || negb (agree w f)) && inner_free w (Str.is_word a) f'
  end.

(** Whether the last character before the end of [f] is a word character,
    [pw] standing for the character before [f]. *)
Fixpoint end_status (pw : bool) (f : str) : bool :=
  match f with
  | [] => pw
  | a :: f' => end_status (Str.is_word a) f'
  end.

(** The counts go down, or stay, from one entry to the next. *)
Fixpoint descending (l : list nat) : bool :=
  match l with
  | a :: ((b :: _) as l') => (b <=? a) && descending l'
  | _ => true
  end.

(** Every whitespace character of [s] is a single space that follows a
    character other than whitespace ([after_space] tells whether the
    character before [s] is whitespace, the start of a text counting as
    such). *)
Fixpoint single_spaced (after_space : bool) (s : str) : bool :=
  match s with
  | [] => true
  | c :: s' =>
      if Str.is_space c
      then negb after_space && Str.eqb_char c " " && single_spaced true s'
      else single_spaced false s'
  end.

Definition is_space_head (s : str) : bool :=
  match s with
  | c :: _ => Str.is_space c
  | [] => false
  end.

(** No whitespace at either end, and single spaces only in between. *)
Definition tidy (s : str) : bool :=
  single_spaced true s && negb (is_space_head (rev s)).

(** No phrase occurs twice in [l]. *)
Fixpoint nodupb (l : list str) : bool :=
  match l with
  | [] => true
  | x :: l' => negb (existsb (Str.eqb x) l') && nodupb l'
  end.

(** The phrases of [alt] are the phrases of the table entry of a detected
    pattern, each of them once, in some order. *)
Definition alternative_complete (detected : list (str * str))
  (alt : DialogueAlternative) : Prop :=
  exists pattern base,
    In (original_phrase alt, pattern) detected /\
    Dict.get pattern _load_cliche_alternatives = Some base /\
    Permutation (alternatives alt) base.

(** ** What the statements count and compare

    The notions below are worded after the specification and use nothing
    of the functions they are compared with: parts of a text are given by
    concatenation, numbers of items by lists without repetition. *)

(** [k] is a contiguous part of [s]. *)
Definition occurs (k s : str) : Prop := exists pre post, s = pre ++ k ++ post.

(** The keyword [k], written in lower case, occurs in [text] in some
    casing: a part [m] of the text reads [k] once lowered. *)
Definition occurs_ci (k text : str) : Prop :=
  exists pre m post, text = pre ++ m ++ post /\ Str.lower m = k.

(** [n] of the [keywords] occur in [text], case-insensitively. *)
Inductive found_count (text : str) : list str -> nat -> Prop :=
| found_nil : found_count text [] 0
| found_yes (k : str) (ks : list str) (n : nat) :
    occurs_ci k text -> found_count text ks n ->
    found_count text (k :: ks) (S n)
| found_no (k : str) (ks : list str) (n : nat) :
    ~ occurs_ci k text -> found_count text ks n ->
    found_count text (k :: ks) n.

(** [counts] gives, for each tone of the table and in the table's order,
    the number of its keywords that occur in [text]. *)
Definition counts_keywords (table : Dict.t (list str)) (text : str)
  (counts : list (str * nat)) : Prop :=
  Forall2 (fun e c => fst c = fst e /\ found_count text (snd e) (snd c))
    table counts.

(** The number of words of [s]: the places where a character other than
    whitespace starts the text or follows whitespace ([after_space] tells
    whether the character before [s] is whitespace, the start counting as
    such). *)
Fixpoint word_starts (after_space : bool) (s : str) : nat :=
  match s with
  | [] => 0
  | c :: s' =>
      if Str.is_space c then word_starts true s'
      else (if after_space then 1 else 0) + word_starts false s'
  end.

Definition words_in (s : str) : nat := word_starts true s.

(** [d] different numbers occur in [l]. *)
Definition distinct_count (l : list nat) (d : nat) : Prop :=
  exists ds, NoDup ds /\ (forall x, In x ds <-> In x l) /\ length ds = d.

(** Every character of [s] is an ASCII character. On such a text
    [str.lower()] changes letters in place; outside ASCII it can change the
    length of the text (the lower-case form of U+0130 has two characters). *)
Definition ascii_text (s : str) : bool :=
  forallb (fun c => Str.code c <? 128) s.

(** [m] stands in [text] at position [i]. *)
Definition stands_at (i : nat) (m text : str) : Prop :=
  exists pre post, text = pre ++ m ++ post /\ length pre = i.

(** The record made for an occurrence: the pattern, and as phrase the part
    of the original text that stands at the place of the occurrence and
    reads the pattern once lowered. *)
Definition phrase_at (text : str) (place : nat * str) (record : str * str)
  : Prop :=
  snd record = snd place /\
  stands_at (fst place) (fst record) text /\
  Str.lower (fst record) = snd place.

(** [s'] is [s] after [str.replace(old, new)]: a text without occurrence
    of [old] is left as it is; otherwise the occurrence that starts first
    is replaced and the rest of the text, after that occurrence, is treated
    in the same way. *)
Inductive substituted (old new : str) : str -> str -> Prop :=
| substituted_none (s : str) :
    ~ occurs old s -> substituted old new s s
| substituted_first (pre post post' : str) :
    (forall a b, pre ++ old ++ post = a ++ old ++ b -> length pre <= length a) ->
    substituted old new post post' ->
    substituted old new (pre ++ old ++ post) (pre ++ new ++ post').

(** [replacement] is [adapted] with its first letter in upper case. *)
Definition capitalised (adapted replacement : str) : Prop :=
  exists c c' rest,
    adapted = c :: rest /\ replacement = c' :: rest /\
    Str.is_upper_char c' = true /\ Str.lower_char c' = Str.lower_char c.

(** Version [k] of a text: for each alternative in turn, its [k]-th adapted
    phrase is substituted for the original phrase, with its first letter in
    upper case when the original phrase begins with an uppercase letter and
    as it is otherwise. *)
Inductive assembled (k : nat) : list DialogueAlternative -> str -> str -> Prop :=
| assembled_nil (t : str) : assembled k [] t t
| assembled_cons (alt : DialogueAlternative) (alts : list DialogueAlternative)
    (t t1 t' adapted replacement : str) :
    nth_error (character_voice_adjusted alt) k = Some adapted ->
    (Str.head_upper (original_phrase alt) = true ->
     capitalised adapted replacement) ->
    (Str.head_upper (original_phrase alt) = false -> replacement = adapted) ->
    substituted (original_phrase alt) replacement t t1 ->
    assembled k alts t1 t' ->
    assembled k (alt :: alts) t t'.

(** ** What voice adaptation can return

    Each transform reads the random source to decide whether to add a
    prefix, a marker, an addition or an intensifier, and which one; the
    lists below hold every text a transform can return for a given text. *)

Definition formal_outcomes (text : str) : list str :=
  let result := replace_words formal_replacements text in
  result
    :: map (fun prefix => prefix ++ txt " " ++ Str.lower result)
         (strs ["Perhaps"; "It appears that"; "One might say"]).

Definition casual_outcomes (text : str) : list str :=
  let result := replace_words casual_replacements text in
  result
    :: map (fun marker => marker ++ txt " " ++ Str.lower result)
         (strs ["Look,"; "Hey,"; "Well,"]).

Definition verbose_outcomes (text : str) : list str :=
  let result := replace_words verbose_expansions text in
  result
    :: map (fun addition => Str.rstrip_chars ".!?" result ++ addition ++ txt ".")
         (strs [", if you understand what I mean";
                ", as I'm sure you can appreciate";
                ", which is quite significant";
                ", in my considered opinion"]).

(** What the adjustment of formality, and then of verbosity, can return. *)
Definition formality_outcomes (alt : str) : list str :=
  alt :: formal_outcomes alt ++ casual_outcomes alt.

Definition verbosity_outcomes (adapted : str) : list str :=
  adapted :: _make_more_terse adapted :: verbose_outcomes adapted.

(** The first pattern of [_reduce_emotional_intensity] finds nothing at the
    very start of [s]. *)
Definition no_removal_at_head (s : str) : bool :=
  match Re.match_here true
          [Re.WordB;
           Re.Alt (strs ["absolutely"; "completely"; "utterly"; "totally";
                         "damn"; "really"; "very"]);
           Re.Rep 1 Str.is_space]
          None s with
  | None => true
  | Some _ => false
  end.

(** Whatever the voice and the draws, the phrase reaches the adjustment of
    emotion beginning with a letter, and still begins with one if its
    intensity is reduced. *)
Definition adaptable (alt : str) : bool :=
  forallb (fun adapted =>
             forallb (fun adapted =>
                        starts_with_letter adapted
                        && (if no_removal_at_head adapted then true
                            else starts_with_letter
                                   (_reduce_emotional_intensity adapted)))
               (verbosity_outcomes adapted))
    (formality_outcomes alt).
(** * Properties *)

Unset Implicit Arguments.

(** ** Strings and dictionaries *)

Lemma str_eqb_eq (a b : str) : Str.eqb a b = true <-> a = b.
Proof.
  revert b; induction a as [|x a IH]; intros [|y b]; simpl; try easy.
  unfold Str.eqb_char. rewrite andb_true_iff, Ascii.eqb_eq, IH.
  split; [intros [-> ->]; reflexivity | intros [= -> ->]; auto].
Qed.

Lemma str_eqb_refl (a : str) : Str.eqb a a = true.
Proof. apply str_eqb_eq; reflexivity. Qed.

Lemma str_eqb_neq (a b : str) : Str.eqb a b = false <-> a <> b.
Proof.
  rewrite <- str_eqb_eq. destruct (Str.eqb a b); split; congruence.
Qed.

Lemma startswith_app (p s : str) :
  Str.startswith p s = true <-> exists post, s = p ++ post.
Proof.
  revert s; induction p as [|x p IH]; intros s; simpl.
  - split; [intros _; exists s; reflexivity | reflexivity].
  - destruct s as [|y s].
    + split; [discriminate | intros [post H]; discriminate].
    + unfold Str.eqb_char. rewrite andb_true_iff, Ascii.eqb_eq, IH.
      split.
      * intros [-> [post ->]]. exists post; reflexivity.
      * intros [post [= -> ->]]. split; [reflexivity | exists post; reflexivity].
Qed.

(** [p in s] holds exactly when [p] is a contiguous part of [s]. *)
Lemma contains_app (p s : str) :
  Str.contains p s = true <-> exists pre post, s = pre ++ p ++ post.
Proof.
  induction s as [|c s IH]; simpl.
  - rewrite orb_false_r, startswith_app. split.
    + intros [post H]. exists [], post. exact H.
    + intros [pre [post H]]. destruct pre; [exists post; exact H | discriminate].
  - rewrite orb_true_iff, startswith_app, IH. split.
    + intros [[post H] | [pre [post H]]].
      * exists [], post. exact H.
      * exists (c :: pre), post. simpl. rewrite H. reflexivity.
    + intros [[|c' pre] [post H]].
      * left. exists post. exact H.
      * right. injection H as _ H. exists pre, post. exact H.
Qed.

Lemma dict_get_set_same (V : Type) (k : str) (v : V) (d : Dict.t V) :
  Dict.get k (Dict.set k v d) = Some v.
Proof.
  induction d as [|[k' v'] d IH]; simpl.
  - rewrite str_eqb_refl. reflexivity.
  - destruct (Str.eqb k k') eqn:E; simpl; rewrite E; auto.
Qed.

Lemma dict_get_set_other (V : Type) (k k' : str) (v : V) (d : Dict.t V) :
  k' <> k -> Dict.get k' (Dict.set k v d) = Dict.get k' d.
Proof.
  intros Hne. induction d as [|[k0 v0] d IH]; simpl.
  - apply str_eqb_neq in Hne. rewrite Hne. reflexivity.
  - destruct (Str.eqb k k0) eqn:E; simpl.
    + apply str_eqb_eq in E. subst k0.
      apply str_eqb_neq in Hne. rewrite Hne. reflexivity.
    + rewrite IH. reflexivity.
Qed.

Lemma dict_set_fresh (V : Type) (k : str) (v : V) (d : Dict.t V) :
  Dict.get k d = None -> Dict.set k v d = d ++ [(k, v)].
Proof.
  induction d as [|[k' v'] d IH]; simpl; intros H; [reflexivity|].
  destruct (Str.eqb k k'); [discriminate|]. rewrite IH; auto.
Qed.

Lemma dict_get_app_fresh (V : Type) (k k' : str) (v : V) (d : Dict.t V) :
  Dict.get k d = None -> k <> k' -> Dict.get k (d ++ [(k', v)]) = None.
Proof.
  intros H Hne. induction d as [|[k0 v0] d IH]; simpl in *.
  - apply str_eqb_neq in Hne. rewrite Hne. reflexivity.
  - destruct (Str.eqb k k0); [discriminate | auto].
Qed.

(** ** Tone classification (C5) *)

Section ToneFacts.

Lemma fill_tone_scores_filter (tl : str) (table : Dict.t (list str)) :
  forall acc,
    NoDup (map fst table) ->
    (forall k, In k (map fst table) -> Dict.get k acc = None) ->
    fill_tone_scores tl table acc = acc ++ filter positive (counts_of table tl).
Proof.
  induction table as [|[tone kws] table IH]; intros acc Hnd Hfresh; simpl.
  - rewrite app_nil_r. reflexivity.
  - inversion Hnd as [|? ? Hnotin Hnd']; subst.
    unfold positive at 1; simpl.
    destruct (0 <? keyword_score tl kws) eqn:E.
    + rewrite dict_set_fresh by (apply Hfresh; left; reflexivity).
      rewrite IH; auto.
      * rewrite <- app_assoc. reflexivity.
      * intros k Hk. apply dict_get_app_fresh.
        -- apply Hfresh. right. exact Hk.
        -- intros ->. contradiction.
    + apply IH; auto. intros k Hk. apply Hfresh. right. exact Hk.
Qed.

Lemma max_by_value_skips_zero (d : Dict.t nat) :
  forall best, max_by_value best (filter positive d) = max_by_value best d.
Proof.
  induction d as [|[k v] d IH]; intros best; simpl; [reflexivity|].
  unfold positive at 1; simpl. destruct v as [|v]; simpl.
  - rewrite IH. replace (snd best <? 0) with false; [reflexivity|].
    symmetry. apply Nat.ltb_ge. lia.
  - apply IH.
Qed.

(** [max] keeps the first of the largest values. *)
Lemma max_by_value_first (d : Dict.t nat) :
  forall best,
    (max_by_value best d = fst best /\ Forall (fun e => snd e <= snd best) d)
    \/ exists before k v after,
         d = before ++ (k, v) :: after /\ max_by_value best d = k /\
         snd best < v /\
         Forall (fun e => snd e < v) before /\
         Forall (fun e => snd e <= v) after.
Proof.
  induction d as [|[k v] d IH]; intros best; simpl.
  - left. split; [reflexivity | constructor].
  - destruct (snd best <? v) eqn:E.
    + apply Nat.ltb_lt in E. right.
      destruct (IH (k, v)) as [[Hr Hall] | (b & k' & v' & a & -> & Hr & Hlt & Hb & Ha)].
      * exists [], k, v, d. simpl in *. repeat split; auto.
      * exists ((k, v) :: b), k', v', a. simpl in *. repeat split; auto; try lia.
    + apply Nat.ltb_ge in E.
      destruct (IH best) as [[Hr Hall] | (b & k' & v' & a & -> & Hr & Hlt & Hb & Ha)].
      * left. split; auto.
      * right. exists ((k, v) :: b), k', v', a. simpl. repeat split; auto.
        constructor; auto. simpl. lia.
Qed.

Lemma filter_positive_head (l : list (str * nat)) :
  (filter positive l = [] /\ Forall (fun e => snd e = 0) l)
  \/ exists zs f rest,
       l = zs ++ f :: rest /\ Forall (fun e => snd e = 0) zs /\ 0 < snd f /\
       filter positive l = f :: filter positive rest.
Proof.
  induction l as [|[k v] l IH]; simpl.
  - left. split; [reflexivity | constructor].
  - destruct (positive (k, v)) eqn:E; unfold positive in E; simpl in E.
    + right. exists [], (k, v), l. apply Nat.ltb_lt in E. simpl. repeat split; auto.
    + apply Nat.ltb_ge in E.
      destruct IH as [[Hf Hall] | (zs & f & rest & -> & Hz & Hpos & Hf)].
      * left. split; auto. constructor; auto. simpl. lia.
      * right. exists ((k, v) :: zs), f, rest. simpl. repeat split; auto.
        constructor; auto. simpl. lia.
Qed.

Lemma analyze_tone_with_first_maximum (table : Dict.t (list str)) (s : str) :
  NoDup (map fst table) ->
  let counts := counts_of table (Str.lower s) in
  (Forall (fun e => snd e = 0) counts /\ analyze_tone_with table s = txt "neutral")
  \/ exists before tone score after,
       counts = before ++ (tone, score) :: after /\
       analyze_tone_with table s = tone /\ 0 < score /\
       Forall (fun e => snd e < score) before /\
       Forall (fun e => snd e <= score) after.
Proof.
  intros Hnd counts. unfold analyze_tone_with.
  rewrite fill_tone_scores_filter by auto. simpl. fold counts.
  destruct (filter_positive_head counts)
    as [[Hf Hall] | (zs & f & rest & Hc & Hz & Hpos & Hf)]; rewrite Hf.
  - left. auto.
  - right. rewrite max_by_value_skips_zero.
    destruct (max_by_value_first rest f)
      as [[Hr Hall] | (b & k & v & a & -> & Hr & Hlt & Hb & Ha)].
    + exists zs, (fst f), (snd f), rest. rewrite Hr.
      rewrite Hc. destruct f; simpl in *. repeat split; auto.
      eapply Forall_impl; [|exact Hz]. simpl. intros; lia.
    + exists (zs ++ f :: b), k, v, a. rewrite Hc, Hr.
      rewrite <- app_assoc. simpl. repeat split; auto; try lia.
      apply Forall_app. split.
      * eapply Forall_impl; [|exact Hz]. simpl. intros; lia.
      * constructor; auto.
Qed.

End ToneFacts.

Lemma tone_keywords_nodup : NoDup (map fst _load_tone_keywords).
Proof.
  assert (H : forall l : list str,
             (fix nd (l : list str) : bool :=
                match l with
                | [] => true
                | x :: l' => negb (existsb (Str.eqb x) l') && nd l'
                end) l = true -> NoDup l).
  { induction l as [|x l IH]; intros Hb; constructor.
    - apply andb_true_iff in Hb as [Hx _]. intros Hin.
      apply negb_true_iff in Hx.
      assert (existsb (Str.eqb x) l = true)
        by (apply existsb_exists; exists x; split; [auto | apply str_eqb_refl]).
      congruence.
    - apply IH. apply andb_true_iff in Hb as [_ Hb]. exact Hb. }
  apply H. vm_compute. reflexivity.
Qed.

(** Occurrence in some casing is occurrence in the lowered text. *)
Lemma occurs_ci_lower (k text : str) :
  occurs_ci k text <-> Str.contains k (Str.lower text) = true.
Proof.
  rewrite contains_app. unfold occurs_ci, Str.lower. split.
  - intros (pre & m & post & -> & <-).
    exists (map Str.lower_char pre), (map Str.lower_char post).
    rewrite !map_app. reflexivity.
  - intros (pre & post & H).
    apply map_eq_app in H as (pre' & rest & -> & Hpre & H).
    apply map_eq_app in H as (m & post' & -> & Hm & Hpost).
    exists pre', m, post'. split; [reflexivity | exact Hm].
Qed.

(** The score of a tone is the number of its keywords that occur. *)
Lemma keyword_score_counts (text : str) (keywords : list str) :
  found_count text keywords (keyword_score (Str.lower text) keywords).
Proof.
  unfold keyword_score. induction keywords as [|k ks IH]; simpl.
  - constructor.
  - destruct (Str.contains k (Str.lower text)) eqn:E.
    + simpl. apply found_yes; [apply occurs_ci_lower; exact E | exact IH].
    + apply found_no; [|exact IH].
      intros H. apply occurs_ci_lower in H. congruence.
Qed.

Lemma tone_counts_count (table : Dict.t (list str)) (text : str) :
  counts_keywords table text (counts_of table (Str.lower text)).
Proof.
  unfold counts_keywords, counts_of.
  induction table as [|[tone kws] table IH]; simpl; constructor.
  - split; [reflexivity | apply keyword_score_counts].
  - exact IH.
Qed.

(** C5. For every text there is the list of counts, one for each tone in
    registration order, each the number of the tone's keywords that occur
    in the text in some casing; the tone returned is "neutral" when every
    count is zero, and otherwise the first tone, in registration order,
    whose count is the largest. The tone recorded by an analysis is this
    tone whatever the session, the speaker, the context and the random
    draws. *)
Theorem analyze_tone_first_registered_maximum (s : str) :
  (exists counts,
     counts_keywords _load_tone_keywords s counts /\
     ((Forall (fun e => snd e = 0) counts /\
       _analyze_tone s = txt "neutral")
      \/ exists before tone score after,
           counts = before ++ (tone, score) :: after /\
           _analyze_tone s = tone /\ 0 < score /\
           Forall (fun e => snd e < score) before /\
           Forall (fun e => snd e <= score) after))
  /\ (forall self self' sp sp' cx cx' w w',
        analysis_emotional_tone
          (fst (fst (analyze_dialogue_line self sp s cx w)))
        = analysis_emotional_tone
            (fst (fst (analyze_dialogue_line self' sp' s cx' w')))).
Proof.
  split.
  - exists (tone_counts s). split; [apply tone_counts_count|].
    apply (analyze_tone_with_first_maximum _load_tone_keywords s).
    exact tone_keywords_nodup.
  - intros self self' sp sp' cx cx' w w'.
    unfold analyze_dialogue_line, bind.
    destruct (generate_dialogue_alternatives self sp s 5 w) as [alts w1].
    destruct (generate_dialogue_alternatives self' sp' s 5 w') as [alts' w1'].
    reflexivity.
Qed.

(** "I hate it, love" holds one keyword of "angry", one of "happy" and one
    of "romantic": the three tie and "angry", registered first, is
    returned. "I love it" ties "happy" and "romantic" and gives "happy". *)
Lemma analyze_tone_first_registered_maximum_witness :
  (exists counts,
     counts_keywords _load_tone_keywords "I LOVE it" counts /\
     ((Forall (fun e => snd e = 0) counts /\
       _analyze_tone "I LOVE it" = txt "neutral")
      \/ exists before tone score after,
           counts = before ++ (tone, score) :: after /\
           _analyze_tone "I LOVE it" = tone /\ 0 < score /\
           Forall (fun e => snd e < score) before /\
           Forall (fun e => snd e <= score) after))
  /\ _analyze_tone "I LOVE it" = txt "happy"
  /\ _analyze_tone "I hate it, love" = txt "angry"
  /\ _analyze_tone "Nothing to report" = txt "neutral".
Proof.
  split.
  - exact (proj1 (analyze_tone_first_registered_maximum "I LOVE it")).
  - vm_compute. repeat split; reflexivity.
Defined.

(** ** The effect of one analysed line on the session *)

Lemma analyze_dialogue_line_effect (self : DialogueComposer)
  (speaker text context : str) (w : World) :
  exists analysis stamp w',
    analyze_dialogue_line self speaker text context w
    = ((analysis,
        _update_character_patterns
          (mkComposer (characters self)
             (dialogue_history self
              ++ [mkDialogueLine speaker text context (_analyze_tone text) stamp
                    (length (dialogue_history self))])
             (scene_context self))
          speaker text), w').
Proof.
  unfold analyze_dialogue_line, bind.
  destruct (generate_dialogue_alternatives self speaker text 5 w) as [alts w1].
  simpl. eexists _, _, _. reflexivity.
Qed.

Lemma update_history (self : DialogueComposer) (speaker text : str) :
  dialogue_history (_update_character_patterns self speaker text)
  = dialogue_history self.
Proof.
  unfold _update_character_patterns.
  destruct (Dict.get speaker (characters self)); reflexivity.
Qed.

Lemma update_scene (self : DialogueComposer) (speaker text : str) :
  scene_context (_update_character_patterns self speaker text)
  = scene_context self.
Proof.
  unfold _update_character_patterns.
  destruct (Dict.get speaker (characters self)); reflexivity.
Qed.

Lemma update_other (self : DialogueComposer) (speaker text who : str) :
  who <> speaker ->
  Dict.get who (characters (_update_character_patterns self speaker text))
  = Dict.get who (characters self).
Proof.
  intros Hne. unfold _update_character_patterns.
  destruct (Dict.get speaker (characters self)); simpl; [|reflexivity].
  apply dict_get_set_other. exact Hne.
Qed.

Lemma update_unknown (self : DialogueComposer) (speaker text : str) :
  Dict.get speaker (characters self) = None ->
  _update_character_patterns self speaker text = self.
Proof.
  intros H. unfold _update_character_patterns. rewrite H. reflexivity.
Qed.

(** The step of the running average: the count and the average change
    together, by the formula of the source. *)
Lemma update_known (self : DialogueComposer) (speaker text : str) (c : Character) :
  Dict.get speaker (characters self) = Some c ->
  exists c',
    Dict.get speaker (characters (_update_character_patterns self speaker text))
    = Some c' /\
    dialogue_count c' = dialogue_count c + 1 /\
    avg_sentence_length c'
    = (if has_sentence text
       then ((avg_sentence_length c * Qnat (dialogue_count c' - 1)
              + line_average text) / Qnat (dialogue_count c'))%Q
       else avg_sentence_length c).
Proof.
  intros H. unfold _update_character_patterns. rewrite H. simpl.
  rewrite dict_get_set_same. eexists. split; [reflexivity|]. simpl.
  split; [reflexivity|].
  unfold has_sentence, line_average.
  destruct (sentences_of text); reflexivity.
Qed.

Lemma analyze_history (self : DialogueComposer) (speaker text context : str)
  (w : World) :
  exists stamp,
    dialogue_history (snd (fst (analyze_dialogue_line self speaker text context w)))
    = dialogue_history self
      ++ [mkDialogueLine speaker text context (_analyze_tone text) stamp
            (length (dialogue_history self))].
Proof.
  destruct (analyze_dialogue_line_effect self speaker text context w)
    as (a & stamp & w' & ->).
  exists stamp. simpl. rewrite update_history. reflexivity.
Qed.

Lemma analyze_characters (self : DialogueComposer) (speaker text context : str)
  (w : World) :
  characters (snd (fst (analyze_dialogue_line self speaker text context w)))
  = characters (_update_character_patterns self speaker text).
Proof.
  destruct (analyze_dialogue_line_effect self speaker text context w)
    as (a & stamp & w' & ->).
  simpl. unfold _update_character_patterns. simpl.
  destruct (Dict.get speaker (characters self)); reflexivity.
Qed.

Lemma analyze_scene (self : DialogueComposer) (speaker text context : str)
  (w : World) :
  scene_context (snd (fst (analyze_dialogue_line self speaker text context w)))
  = scene_context self.
Proof.
  destruct (analyze_dialogue_line_effect self speaker text context w)
    as (a & stamp & w' & ->).
  simpl. rewrite update_scene. reflexivity.
Qed.

(** ** The report (C1) *)

Lemma sum_cliches_over_history_runs_on (fuel : nat) :
  forall i total self w,
    i < length (dialogue_history self) ->
    fst (sum_cliches_over_history fuel i total self w) = None.
Proof.
  induction fuel as [|fuel IH]; intros i total self w Hi; simpl;
    destruct (nth_error (dialogue_history self) i) as [line|] eqn:E;
    try (apply nth_error_None in E; lia); try reflexivity.
  unfold bind.
  destruct (analyze_history self (speaker line) (text line) [] w) as [stamp Hh].
  destruct (analyze_dialogue_line self (speaker line) (text line) [] w)
    as [r w'].
  simpl in Hh. apply IH. rewrite Hh, length_app. simpl. lia.
Qed.

Lemma export_runs_on (fuel : nat) (self : DialogueComposer) (w : World) :
  dialogue_history self <> [] ->
  fst (export_analysis_report fuel self w) = None.
Proof.
  intros Hne. unfold export_analysis_report, _analyze_overall_patterns, bind.
  simpl. destruct (dialogue_history self) as [|l0 h] eqn:E; [congruence|].
  match goal with
  | |- context [sum_cliches_over_history fuel 0 0 self ?w1] =>
      pose proof (sum_cliches_over_history_runs_on fuel 0 0 self w1) as H;
      destruct (sum_cliches_over_history fuel 0 0 self w1) as [r w2]
  end.
  simpl in H. rewrite H by (rewrite E; simpl; lia). reflexivity.
Qed.

(** With an empty history the report is produced and the session is the
    one it started from. *)
Lemma export_empty_history (fuel : nat) (self : DialogueComposer) (w : World) :
  dialogue_history self = [] ->
  exists report w',
    export_analysis_report fuel self w = (Some (report, self), w').
Proof.
  intros E. unfold export_analysis_report, _analyze_overall_patterns, bind.
  simpl. rewrite E. simpl. eexists _, _. reflexivity.
Qed.

(** C1 (the code departs from the specification). On a session holding one
    recorded line, [export_analysis_report] analyses that line again: the
    first step of its sum appends a second record to the history and raises
    the speaker's [dialogue_count] to 2; and since each step appends to the
    list being iterated, the call returns for no amount of fuel. *)
Theorem export_analysis_report_reanalyses_history :
  length (dialogue_history one_line_session) = 1 /\
  (forall w,
     let after := snd (fst (analyze_dialogue_line one_line_session "A" "Hi." [] w)) in
     length (dialogue_history after) = 2 /\
     option_map dialogue_count (Dict.get "A" (characters after)) = Some 2 /\
     option_map dialogue_count (Dict.get "A" (characters one_line_session))
     = Some 1) /\
  (forall fuel w, fst (export_analysis_report fuel one_line_session w) = None).
Proof.
  split; [vm_compute; reflexivity|]. split.
  - intros w after. subst after.
    destruct (analyze_history one_line_session "A" "Hi." [] w) as [stamp Hh].
    rewrite Hh, length_app. split; [vm_compute; reflexivity|].
    rewrite analyze_characters. split; vm_compute; reflexivity.
  - intros fuel w. apply export_runs_on. vm_compute. discriminate.
Qed.

(** ** Sessions: what a sequence of calls does to one character *)

Lemma call_effect (c : Call) (self : DialogueComposer) (w : World) :
  match c with
  | AddCharacter n v => fst (call c self w) = add_character self n v
  | SetSceneContext st md tn cs pl =>
      fst (call c self w) = set_scene_context self st md tn cs pl
  | AnalyzeDialogueLine sp tx cx =>
      exists stamp,
        fst (call c self w)
        = _update_character_patterns
            (mkComposer (characters self)
               (dialogue_history self
                ++ [mkDialogueLine sp tx cx (_analyze_tone tx) stamp
                      (length (dialogue_history self))])
               (scene_context self))
            sp tx
  | _ => fst (call c self w) = self
  end.
Proof.
  destruct c; simpl; try reflexivity.
  - unfold bind.
    destruct (analyze_dialogue_line_effect self speaker0 text0 context0 w)
      as (a & stamp & w' & ->).
    exists stamp. reflexivity.
  - unfold bind. destruct (suggest_improved_dialogue self speaker0 original_text w).
    reflexivity.
Qed.

Lemma Qnat_succ_nonzero (k : nat) : ~ (Qnat (k + 1) == 0)%Q.
Proof.
  unfold Qnat, Qeq. simpl. lia.
Qed.

Lemma running_sum_step (a L S : Q) (k : nat) :
  (a * Qnat k == S)%Q ->
  ((a * Qnat (k + 1 - 1) + L) / Qnat (k + 1) * Qnat (k + 1) == S + L)%Q.
Proof.
  intros H. replace (k + 1 - 1) with k by lia.
  rewrite Qmult_comm, Qmult_div_r by apply Qnat_succ_nonzero.
  rewrite H. reflexivity.
Qed.

Lemma sumQ_app (l1 l2 : list Q) : (sumQ (l1 ++ l2) == sumQ l1 + sumQ l2)%Q.
Proof.
  induction l1 as [|x l1 IH]; simpl.
  - rewrite Qplus_0_l. reflexivity.
  - rewrite IH, Qplus_assoc. reflexivity.
Qed.

Lemma lines_of_app (who : str) (h1 h2 : list DialogueLine) :
  lines_of who (h1 ++ h2) = lines_of who h1 ++ lines_of who h2.
Proof. apply filter_app. Qed.

(** A call that leaves the characters and the history alone. *)
Ltac session_untouched c0 self1 :=
  exists c0, []; subst self1; simpl; rewrite app_nil_r;
  repeat split; auto; try lia;
  intros _; rewrite Qplus_0_r; reflexivity.

(** The state of a registered character after calls that do not register
    it again: its count has grown by the number of its new records, and
    the average times the count has grown by the sum of the averages of its
    lines, as long as each of them had a sentence. *)
Lemma calls_registered (who : str) :
  forall post self w c0,
    Dict.get who (characters self) = Some c0 ->
    no_registration who post = true ->
    exists c1 new,
      Dict.get who (characters (fst (calls post self w))) = Some c1 /\
      dialogue_history (fst (calls post self w)) = dialogue_history self ++ new /\
      dialogue_count c1 = dialogue_count c0 + length (lines_of who new) /\
      length (lines_of who new) = length (spoken_by who post) /\
      (forallb has_sentence (spoken_by who post) = true ->
       (avg_sentence_length c1 * Qnat (dialogue_count c1)
        == avg_sentence_length c0 * Qnat (dialogue_count c0)
           + sumQ (map line_average (spoken_by who post)))%Q).
Proof.
  induction post as [|c post IH]; intros self w c0 Hget Hno.
  - exists c0, []. simpl. rewrite app_nil_r.
    repeat split; auto; try lia. intros _. rewrite Qplus_0_r. reflexivity.
  - simpl in Hno. apply andb_true_iff in Hno as [Hc Hno].
    assert (Hsp : spoken_by who (c :: post)
                  = spoken_by who [c] ++ spoken_by who post).
    { unfold spoken_by. simpl. rewrite app_nil_r. reflexivity. }
    rewrite Hsp. cbn [calls]. unfold bind.
    pose proof (call_effect c self w) as Hc1.
    destruct (call c self w) as [self1 w1]. simpl in Hc1.
    assert (Hcase :
      exists c1 new1,
        Dict.get who (characters self1) = Some c1 /\
        dialogue_history self1 = dialogue_history self ++ new1 /\
        dialogue_count c1 = dialogue_count c0 + length (lines_of who new1) /\
        length (lines_of who new1) = length (spoken_by who [c]) /\
        (forallb has_sentence (spoken_by who [c]) = true ->
         (avg_sentence_length c1 * Qnat (dialogue_count c1)
          == avg_sentence_length c0 * Qnat (dialogue_count c0)
             + sumQ (map line_average (spoken_by who [c])))%Q)).
    { destruct c; simpl in *.
      - (* add_character for another name *)
        apply negb_true_iff, str_eqb_neq in Hc.
        exists c0, []. subst self1. simpl. rewrite app_nil_r.
        rewrite dict_get_set_other by congruence.
        repeat split; auto; try lia. intros _. rewrite Qplus_0_r. reflexivity.
      - session_untouched c0 self1.
      - destruct Hc1 as [stamp ->].
        set (line := mkDialogueLine speaker0 text0 context0 (_analyze_tone text0)
                       stamp (length (dialogue_history self))).
        set (self' := mkComposer (characters self)
                        (dialogue_history self ++ [line]) (scene_context self)).
        rewrite update_history. unfold lines_of. simpl.
        destruct (Str.eqb speaker0 who) eqn:Ew.
        + apply str_eqb_eq in Ew. subst speaker0.
          destruct (update_known self' who text0 c0 Hget) as (c' & Hg & Hn & Ha).
          exists c', [line]. simpl. rewrite str_eqb_refl. simpl.
          repeat split; auto.
          rewrite andb_true_r. intros Hs. rewrite Ha, Hs, Hn.
          rewrite Qplus_0_r. apply running_sum_step. reflexivity.
        + apply str_eqb_neq in Ew.
          exists c0, [line]. simpl.
          replace (Str.eqb speaker0 who) with false
            by (symmetry; apply str_eqb_neq; exact Ew).
          rewrite update_other by congruence. simpl.
          repeat split; auto; try lia. intros _. rewrite Qplus_0_r. reflexivity.
      - session_untouched c0 self1.
      - session_untouched c0 self1.
      - session_untouched c0 self1. }
    destruct Hcase as (c1 & new1 & Hg1 & Hh1 & Hn1 & Hl1 & Ha1).
    destruct (IH self1 w1 c1 Hg1 Hno) as (c2 & new2 & Hg2 & Hh2 & Hn2 & Hl2 & Ha2).
    exists c2, (new1 ++ new2).
    rewrite lines_of_app, !length_app.
    repeat split; auto.
    + rewrite Hh2, Hh1, app_assoc. reflexivity.
    + lia.
    + intros Hs. rewrite forallb_app in Hs. apply andb_true_iff in Hs as [Hs1 Hs2].
      rewrite (Ha2 Hs2), (Ha1 Hs1), map_app, sumQ_app, Qplus_assoc. reflexivity.
Qed.

Lemma calls_app (a b : list Call) :
  forall self w,
    calls (a ++ b) self w
    = calls b (fst (calls a self w)) (snd (calls a self w)).
Proof.
  induction a as [|c a IH]; intros self w; simpl; [reflexivity|].
  unfold bind. destruct (call c self w) as [self1 w1]. apply IH.
Qed.

Lemma last_registration (who : str) (cs : list Call) :
  no_registration who cs = true
  \/ exists pre voice post,
       cs = pre ++ AddCharacter who voice :: post /\
       no_registration who post = true.
Proof.
  induction cs as [|c cs IH]; [left; reflexivity|].
  destruct IH as [Hno | (pre & voice & post & -> & Hno)].
  - destruct c as [n v| | | | |]; try (left; simpl; exact Hno).
    destruct (Str.eqb n who) eqn:E.
    + apply str_eqb_eq in E. subst n. right. exists [], v, cs. auto.
    + left. simpl. rewrite E. simpl. exact Hno.
  - right. exists (c :: pre), voice, post. auto.
Qed.

Lemma calls_unregistered (who : str) :
  forall cs self w,
    no_registration who cs = true ->
    Dict.get who (characters self) = None ->
    Dict.get who (characters (fst (calls cs self w))) = None.
Proof.
  induction cs as [|c cs IH]; intros self w Hno Hget; [exact Hget|].
  simpl in Hno. apply andb_true_iff in Hno as [Hc Hno].
  cbn [calls]. unfold bind.
  pose proof (call_effect c self w) as Hc1.
  destruct (call c self w) as [self1 w1]. simpl in Hc1.
  apply IH; [exact Hno|].
  destruct c; simpl in *; subst; try exact Hget.
  - apply negb_true_iff, str_eqb_neq in Hc.
    unfold add_character. simpl.
    rewrite dict_get_set_other by congruence. exact Hget.
  - destruct Hc1 as [stamp ->].
    unfold _update_character_patterns. simpl.
    destruct (Dict.get speaker0 (characters self)) eqn:E; simpl; [|exact Hget].
    rewrite dict_get_set_other; [exact Hget|]. congruence.
Qed.

(** ** The dialogue count (C3) *)

(** C3, as the code has it. In every session reached from a new composer
    by calls of [add_character], [set_scene_context],
    [analyze_dialogue_line], [suggest_improved_dialogue] and the two
    queries, a registered character was last registered by some call; its
    [dialogue_count] is the number of records of that speaker appended to
    the history after that call. *)
Theorem dialogue_count_since_last_registration
  (cs : list Call) (w : World) (who : str) (c : Character) :
  Dict.get who (characters (fst (calls cs init w))) = Some c ->
  exists pre voice post new,
    cs = pre ++ AddCharacter who voice :: post /\
    no_registration who post = true /\
    dialogue_history (fst (calls cs init w))
    = dialogue_history (fst (calls pre init w)) ++ new /\
    dialogue_count c = length (lines_of who new).
Proof.
  intros Hget.
  destruct (last_registration who cs) as [Hno | (pre & voice & post & -> & Hno)].
  - rewrite (calls_unregistered who cs init w Hno) in Hget by reflexivity.
    discriminate.
  - exists pre, voice, post.
    rewrite calls_app in Hget |- *.
    destruct (calls pre init w) as [before w1]. simpl fst in *. simpl snd in *.
    cbn [calls call] in Hget |- *. unfold bind, ret in Hget |- *.
    destruct (calls_registered who post (add_character before who voice) w1
                (mkCharacter who
                   (match voice with
                    | Some ((_ :: _) as d) => d
                    | _ => default_voice
                    end) [] [] 0 0%Q 0%Q))
      as (c1 & new & Hg & Hh & Hn & _ & _).
    + unfold add_character. simpl. apply dict_get_set_same.
    + exact Hno.
    + exists new. rewrite Hg in Hget. injection Hget as <-.
      repeat split; auto.
Qed.

Lemma dialogue_count_since_last_registration_witness :
  exists c,
    Dict.get "A"
      (characters
         (fst (calls [AnalyzeDialogueLine "A" "Hi." []; AddCharacter "A" None;
                      AnalyzeDialogueLine "A" "Hello there." "greeting"]
                 init still_world))) = Some c /\
    exists pre voice post new,
      [AnalyzeDialogueLine "A" "Hi." []; AddCharacter "A" None;
       AnalyzeDialogueLine "A" "Hello there." "greeting"]
      = pre ++ AddCharacter "A" voice :: post /\
      no_registration "A" post = true /\
      dialogue_history
        (fst (calls [AnalyzeDialogueLine "A" "Hi." []; AddCharacter "A" None;
                     AnalyzeDialogueLine "A" "Hello there." "greeting"]
                init still_world))
      = dialogue_history (fst (calls pre init still_world)) ++ new /\
      dialogue_count c = length (lines_of "A" new).
Proof.
  eexists. split.
  - vm_compute. reflexivity.
  - apply dialogue_count_since_last_registration. vm_compute. reflexivity.
Defined.

(** The specification as worded fails when a speaker is registered after one of
    its lines was recorded: the count restarts at 0 and the record stays. *)
Lemma dialogue_count_counterexample :
  let self :=
    fst (calls [AnalyzeDialogueLine "A" "Hi." []; AddCharacter "A" None]
           init still_world) in
  option_map dialogue_count (Dict.get "A" (characters self)) = Some 0 /\
  length (lines_of "A" (dialogue_history self)) = 1.
Proof. vm_compute. split; reflexivity. Qed.

(** ** The running average (C2) *)

(** One analysed line of a registered speaker: the count goes up by one
    whatever the line; the average moves to [(oldAvg * (n - 1) + lineAvg) / n],
    [n] being the new count, when the line has a sentence, and stays as it
    was when it has none. *)
Lemma line_of_a_registered_speaker
  (self : DialogueComposer) (who tx cx : str) (w : World) (c : Character) :
  Dict.get who (characters self) = Some c ->
  exists c',
    Dict.get who
      (characters (snd (fst (analyze_dialogue_line self who tx cx w))))
    = Some c' /\
    dialogue_count c' = dialogue_count c + 1 /\
    avg_sentence_length c'
    = (if has_sentence tx
       then ((avg_sentence_length c * Qnat (dialogue_count c' - 1)
              + line_average tx) / Qnat (dialogue_count c'))%Q
       else avg_sentence_length c).
Proof.
  intros Hget. rewrite analyze_characters.
  exact (update_known self who tx c Hget).
Qed.

(** After a registration and any calls that do not register the speaker
    again, in which each of the speaker's lines has a sentence and there is
    at least one, the count is the number of those lines and the average is
    the mean of their per-line averages, whatever other speakers' calls
    come in between. *)
Lemma mean_of_lines_with_sentences
  (self : DialogueComposer) (who : str) (voice : option (Dict.t Q))
  (post : list Call) (w : World) :
  no_registration who post = true ->
  forallb has_sentence (spoken_by who post) = true ->
  1 <= length (spoken_by who post) ->
  exists c,
    Dict.get who
      (characters (fst (calls post (add_character self who voice) w)))
    = Some c /\
    dialogue_count c = length (spoken_by who post) /\
    (avg_sentence_length c
     == sumQ (map line_average (spoken_by who post))
        / Qnat (length (spoken_by who post)))%Q.
Proof.
  intros Hno Hs Hlen.
  destruct (calls_registered who post (add_character self who voice) w
              (mkCharacter who
                 (match voice with
                  | Some ((_ :: _) as d) => d
                  | _ => default_voice
                  end) [] [] 0 0%Q 0%Q))
    as (c1 & new & Hg & Hh & Hn & Hl & Ha).
  - unfold add_character. simpl. apply dict_get_set_same.
  - exact Hno.
  - exists c1. simpl in Hn. rewrite Hl in Hn.
    repeat split; auto.
    specialize (Ha Hs). simpl in Ha. rewrite Hn in Ha.
    rewrite Qmult_0_l, Qplus_0_l in Ha. rewrite <- Ha.
    rewrite Qdiv_mult_l; [reflexivity|].
    unfold Qnat, Qeq. simpl. lia.
Qed.

Lemma mean_of_lines_with_sentences_example :
  exists c,
    Dict.get "A"
      (characters
         (fst (calls [AnalyzeDialogueLine "A" "One two. Three four five six." [];
                      AnalyzeDialogueLine "B" "Somebody else speaks here." [];
                      AnalyzeDialogueLine "A" "Seven eight nine ten eleven!" []]
                 (add_character init "A" None) still_world)))
    = Some c /\
    dialogue_count c = 2 /\
    (avg_sentence_length c == ((3 # 1) + (5 # 1)) / (2 # 1))%Q.
Proof.
  destruct (mean_of_lines_with_sentences init "A" None
              [AnalyzeDialogueLine "A" "One two. Three four five six." [];
               AnalyzeDialogueLine "B" "Somebody else speaks here." [];
               AnalyzeDialogueLine "A" "Seven eight nine ten eleven!" []]
              still_world)
    as (c & Hg & Hn & Ha).
  - vm_compute. reflexivity.
  - vm_compute. reflexivity.
  - vm_compute. lia.
  - exists c. split; [exact Hg|]. split; [exact Hn|].
    rewrite Ha. vm_compute. reflexivity.
Defined.

(** C2. The stored average is not the running mean of the per-line
    averages. (1) Every analysed line of a registered speaker raises
    [dialogue_count] by one; the average is set to
    [(oldAvg * (n - 1) + lineAvg) / n], [n] being the new count, only when
    the line has a sentence, and a line without a sentence (per-line
    average 0) leaves it as it was, although it is counted in [n].
    (2) While every line of the speaker has a sentence, the average is the
    mean of the per-line averages. (3) After the lines "One two.", "" and
    "A b c d." of a newly registered speaker, with per-line averages 2, 0
    and 4, the count is 3 and the stored average is 8/3, whatever the random
    draws and time stamps: neither the mean 2 of the three lines nor the
    mean 3 of the two lines that have a sentence. *)
Theorem running_average_skips_lines_without_sentence :
  (forall self who tx cx w c,
     Dict.get who (characters self) = Some c ->
     exists c',
       Dict.get who
         (characters (snd (fst (analyze_dialogue_line self who tx cx w))))
       = Some c' /\
       dialogue_count c' = dialogue_count c + 1 /\
       avg_sentence_length c'
       = (if has_sentence tx
          then ((avg_sentence_length c * Qnat (dialogue_count c' - 1)
                 + line_average tx) / Qnat (dialogue_count c'))%Q
          else avg_sentence_length c))
  /\
  (forall self who voice post w,
     no_registration who post = true ->
     forallb has_sentence (spoken_by who post) = true ->
     1 <= length (spoken_by who post) ->
     exists c,
       Dict.get who
         (characters (fst (calls post (add_character self who voice) w)))
       = Some c /\
       dialogue_count c = length (spoken_by who post) /\
       (avg_sentence_length c
        == sumQ (map line_average (spoken_by who post))
           / Qnat (length (spoken_by who post)))%Q)
  /\
  (forall w,
     let post := [AnalyzeDialogueLine "A" "One two." [];
                  AnalyzeDialogueLine "A" [] [];
                  AnalyzeDialogueLine "A" "A b c d." []] in
     let self := fst (calls post (add_character init "A" None) w) in
     map line_average (spoken_by "A" post) = [(2 # 1)%Q; 0%Q; (4 # 1)%Q] /\
     exists c,
       Dict.get "A" (characters self) = Some c /\
       dialogue_count c = 3 /\
       (avg_sentence_length c == 8 # 3)%Q /\
       ~ (avg_sentence_length c == ((2 # 1) + 0 + (4 # 1)) / (3 # 1))%Q /\
       ~ (avg_sentence_length c == ((2 # 1) + (4 # 1)) / (2 # 1))%Q).
Proof.
  split; [exact line_of_a_registered_speaker|].
  split; [exact mean_of_lines_with_sentences|].
  intros w post self. split; [vm_compute; reflexivity|].
  subst self post. eexists. split; [vm_compute; reflexivity|].
  vm_compute. repeat split; try reflexivity; discriminate.
Qed.

(** ** Queries (C9) *)

(** C9. A summary asked for an unregistered name is the error value naming
    it, and a context-aware suggestion asked before any scene was set is the
    error value asking for one; either call leaves the session (and the
    world) as it was. *)
Theorem queries_answer_with_error_values :
  (forall self speaker w,
     Dict.get speaker (characters self) = None ->
     get_character_voice_summary self speaker
     = Error (txt "Character " ++ speaker ++ txt " not found") /\
     call (GetCharacterVoiceSummary speaker) self w = (self, w))
  /\
  (forall self speaker hint w,
     scene_context self = None ->
     generate_context_aware_suggestion self speaker hint
     = Error (txt "No scene context set. Use set_scene_context() first.") /\
     call (GenerateContextAwareSuggestion speaker hint) self w = (self, w)).
Proof.
  split.
  - intros self speaker w H. unfold get_character_voice_summary. rewrite H.
    split; reflexivity.
  - intros self speaker hint w H. unfold generate_context_aware_suggestion.
    rewrite H. split; reflexivity.
Qed.

Lemma queries_answer_with_error_values_witness :
  (get_character_voice_summary one_line_session "Nobody"
   = Error (txt "Character Nobody not found") /\
   call (GetCharacterVoiceSummary "Nobody") one_line_session still_world
   = (one_line_session, still_world))
  /\
  (generate_context_aware_suggestion one_line_session "A" "anything"
   = Error (txt "No scene context set. Use set_scene_context() first.") /\
   call (GenerateContextAwareSuggestion "A" "anything") one_line_session
     still_world
   = (one_line_session, still_world)).
Proof.
  split.
  - apply (proj1 queries_answer_with_error_values one_line_session "Nobody"
             still_world).
    vm_compute. reflexivity.
  - apply (proj2 queries_answer_with_error_values one_line_session "A"
             "anything" still_world).
    vm_compute. reflexivity.
Defined.

(** ** Alternatives (C10) *)

Lemma alternatives_for_phrases (self : DialogueComposer) (speaker text : str)
  (n : nat) (detected : list (str * str)) :
  forall w,
    map original_phrase (fst (alternatives_for self speaker text n detected w))
    = map fst (filter (fun d => has_alternatives (snd d)) detected).
Proof.
  induction detected as [|[phrase pattern] detected IH]; intros w;
    [reflexivity|].
  cbn [alternatives_for filter snd]. unfold has_alternatives at 1.
  destruct (Dict.get pattern _load_cliche_alternatives) as [[|a base]|];
    try apply IH.
  unfold bind.
  destruct (Random.sample (a :: base) (Nat.min n (length (a :: base))) w)
    as [selected w1].
  destruct (_adapt_to_character_voice self speaker selected text w1)
    as [adapted w2].
  specialize (IH w2).
  destruct (alternatives_for self speaker text n detected w2) as [rest w3].
  cbn [fst map original_phrase ret] in *. unfold ret. cbn [fst map original_phrase].
  rewrite IH. reflexivity.
Qed.

Lemma thorn_detected :
  detected_cliches "Every rose has its thorn."
  = [(txt "Every rose has its thorn", txt "every rose has its thorn")].
Proof. vm_compute. reflexivity. Qed.

Lemma thorn_alternatives (self : DialogueComposer) (speaker : str) (w : World) :
  generate_dialogue_alternatives self speaker "Every rose has its thorn." 5 w
  = ([], w).
Proof.
  unfold generate_dialogue_alternatives. rewrite thorn_detected. reflexivity.
Qed.

(** C10. Seven of the nineteen patterns have no entry in the table of
    alternatives; [generate_dialogue_alternatives] yields one alternative
    for each detected occurrence whose pattern has an entry and none for the
    others; and for the text "Every rose has its thorn." the analysis
    reports a cliché while its alternatives and the improved versions are
    both empty. *)
Theorem patterns_without_alternatives_yield_nothing :
  length _load_cliche_patterns = 19 /\
  map string_of_list_ascii
    (filter (fun p => negb (Dict.mem p _load_cliche_alternatives))
       _load_cliche_patterns)
  = ["take the tiger by the tail"; "every rose has its thorn";
     "good things come to those who wait"; "if only walls could talk";
     "the apple doesn't fall far from the tree";
     "the pot calling the kettle black";
     "the grass is always greener on the other side"] /\
  (forall self speaker text n w,
     map original_phrase
       (fst (generate_dialogue_alternatives self speaker text n w))
     = map fst (filter (fun d => has_alternatives (snd d))
                  (detected_cliches text))) /\
  (forall self speaker context w,
     let analysis :=
       fst (fst (analyze_dialogue_line self speaker
                   "Every rose has its thorn." context w)) in
     map cliche_pattern (cliches_detected analysis)
     = [txt "every rose has its thorn"] /\
     dialogue_alternatives analysis = [] /\
     improved_versions
       (fst (suggest_improved_dialogue self speaker
               "Every rose has its thorn." w)) = []).
Proof.
  split; [reflexivity|]. split; [vm_compute; reflexivity|]. split.
  - intros. apply alternatives_for_phrases.
  - intros self speaker context w analysis. subst analysis.
    unfold analyze_dialogue_line, suggest_improved_dialogue, bind.
    rewrite thorn_alternatives. simpl.
    split; [vm_compute; reflexivity|]. split; reflexivity.
Qed.

(** ** Capitalisation of replacements (C7) *)

Lemma upper_char_of_letter (c : ascii) :
  Str.is_letter c = true -> Str.is_upper_char (Str.upper_char c) = true.
Proof.
  destruct c as [[] [] [] [] [] [] [] []]; vm_compute; intros H;
    first [reflexivity | discriminate H].
Qed.

Lemma capitalize_first_cons (c : ascii) (rest : str) :
  capitalize_first (c :: rest) = Str.upper_char c :: rest.
Proof.
  unfold capitalize_first. destruct rest as [|d rest]; reflexivity.
Qed.

(** C7. The capitalisation is lost when a character before the cliché
    grows in [str.lower()]. In the text made of U+0130, a blank and
    "Loose cannon" (14 characters) the lowered text has 15 characters and
    "loose cannon" is found in it at the span from 3 to 15; cut from the
    original text, that span gives "oose cannon", while the part of the
    text that matched is "Loose cannon", which stands at position 2 and
    begins with an uppercase letter. The recorded phrase does not begin
    with an uppercase letter, so no replacement is capitalised for it, and
    substituting a phrase of the table such as "wild card" leaves the text
    U+0130, blank, "L", "wild card". *)
Theorem capitalisation_lost_after_a_lengthening_character :
  let original := 304%N :: 32%N :: Wide.of_str "Loose cannon" in
  Wide.known original = true /\
  length original = 14 /\
  Wide.lower original
  = 105%N :: 775%N :: 32%N :: Wide.of_str "loose cannon" /\
  Wide.finditer (Wide.of_str "loose cannon") (Wide.lower original) = [(3, 15)] /\
  Wide.slice original 2 14 = Wide.of_str "Loose cannon" /\
  Wide.lower (Wide.of_str "Loose cannon") = Wide.of_str "loose cannon" /\
  hd_error (Wide.of_str "Loose cannon") = Some 76%N /\
  Wide.is_upper_char 76 = true /\
  Wide.detected_cliches original
  = [(Wide.of_str "oose cannon", Wide.of_str "loose cannon")] /\
  (forall replacement,
     Wide.replacement_for (Wide.of_str "oose cannon") replacement = replacement) /\
  (forall replacement : str,
     Wide.replace (Wide.of_str "oose cannon")
       (Wide.replacement_for (Wide.of_str "oose cannon")
          (Wide.of_str replacement))
       original
     = 304%N :: 32%N :: 76%N :: Wide.of_str replacement) /\
  In (txt "wild card")
    (match Dict.get "loose cannon" _load_cliche_alternatives with
     | Some phrases => phrases
     | None => []
     end).
Proof.
  intros original. subst original.
  do 9 (split; [vm_compute; reflexivity|]).
  split; [intros replacement; reflexivity|]. split.
  - intros replacement.
    change (Wide.replacement_for (Wide.of_str "oose cannon")
              (Wide.of_str replacement)) with (Wide.of_str replacement).
    unfold Wide.replace.
    change (304%N :: 32%N :: 76%N
              :: (Wide.of_str replacement
                    ++ Wide.replace_from 10 (Wide.of_str "oose cannon")
                         (Wide.of_str replacement)
                         (skipn 1 (Wide.of_str "oose cannon")))
            = 304%N :: 32%N :: 76%N :: Wide.of_str replacement).
    do 3 f_equal. apply app_nil_r.
  - vm_compute. right. left. reflexivity.
Qed.

(** Every alternative of the library starts with a letter, so that the
    capitalised form of each starts with an uppercase letter. *)
Lemma library_alternatives_start_with_letter :
  forallb (fun e => forallb starts_with_letter (snd e))
    _load_cliche_alternatives = true.
Proof. vm_compute. reflexivity. Qed.

(** ** The scanner *)

Section ScanFacts.
Variable ci : bool.
Variable r : Re.regex.

(** Skipping the characters of a match is resuming after them. *)
Lemma scan_skip (s : str) :
  forall k prev,
    Re.scan_from ci r k prev s
    = Re.scan_from ci r 0 (prev_at prev s k) (skipn k s).
Proof.
  induction s as [|c s IH]; intros k prev.
  - destruct k; reflexivity.
  - destruct k as [|k]; [reflexivity|].
    simpl Re.scan_from at 1. rewrite IH. simpl skipn.
    f_equal. destruct k; reflexivity.
Qed.

(** The two ways a position is left. *)
Lemma scan_hit (prev : option ascii) (c : ascii) (s m rest : str) :
  Re.match_here ci r prev (c :: s) = Some (m, rest) ->
  m <> [] ->
  Re.scan_from ci r 0 prev (c :: s)
  = Re.Hit m
      :: Re.scan_from ci r 0 (prev_at (Some c) s (length m - 1))
           (skipn (length m - 1) s).
Proof.
  intros H Hne. simpl. rewrite H. destruct m as [|x m]; [congruence|].
  rewrite scan_skip. reflexivity.
Qed.

Lemma scan_keep (prev : option ascii) (c : ascii) (s : str) :
  Re.match_here ci r prev (c :: s) = None ->
  Re.scan_from ci r 0 prev (c :: s)
  = Re.Keep c :: Re.scan_from ci r 0 (Some c) s.
Proof. intros H. simpl. rewrite H. reflexivity. Qed.

End ScanFacts.

Lemma run_le (cls : ascii -> bool) (s : str) : Re.run cls s <= length s.
Proof.
  induction s as [|c s IH]; simpl; [lia|]. destruct (cls c); simpl; lia.
Qed.

(** [cls+] takes the whole run of [cls] at the position, if there is one. *)
Lemma match_plus (cls : ascii -> bool) (prev : option ascii) (s : str) :
  Re.match_here false [Re.Rep 1 cls] prev s
  = match Re.run cls s with
    | O => None
    | S n => Some (firstn (S n) s ++ [], skipn (S n) s)
    end.
Proof.
  unfold Re.match_here. destruct (Re.run cls s); reflexivity.
Qed.

(** ** Sentences and pacing (C6) *)

Lemma split_runs_resume (sep : ascii -> bool) (s : str) :
  forall cur,
    split_runs sep true cur s
    = split_runs sep false cur (skipn (Re.run sep s) s).
Proof.
  induction s as [|c s IH]; intros cur; simpl; [reflexivity|].
  destruct (sep c) eqn:E; simpl; [apply IH | rewrite E; reflexivity].
Qed.

(** [re.split] on [cls+] cuts the text at the maximal runs of [cls]. *)
Lemma split_plus_runs (cls : ascii -> bool) (n : nat) :
  forall s cur prev,
    length s <= n ->
    Re.split_from cur (Re.scan_from false [Re.Rep 1 cls] 0 prev s)
    = split_runs cls false cur s.
Proof.
  induction n as [|n IH]; intros s cur prev Hlen.
  - destruct s; [reflexivity | simpl in Hlen; lia].
  - destruct s as [|c s]; [reflexivity|]. simpl in Hlen.
    pose proof (match_plus cls prev (c :: s)) as Hm. simpl Re.run in Hm.
    simpl split_runs. destruct (cls c) eqn:E.
    + pose proof (run_le cls s) as Hrun.
      assert (Hl : length (firstn (S (Re.run cls s)) (c :: s) ++ []) - 1
                   = Re.run cls s).
      { rewrite length_app, length_firstn. simpl length. lia. }
      erewrite scan_hit; [|exact Hm|].
      * rewrite Hl. simpl Re.split_from. f_equal.
        rewrite IH by (rewrite length_skipn; lia).
        symmetry. apply split_runs_resume.
      * simpl. discriminate.
    + rewrite scan_keep by exact Hm. simpl Re.split_from. apply IH. lia.
Qed.

Lemma sentences_of_spec (text : str) :
  sentences_of text = map Str.strip (spec_sentences text).
Proof.
  unfold sentences_of, spec_sentences, Re.split, Re.scan.
  rewrite (split_plus_runs is_terminal (length text)) by lia. reflexivity.
Qed.

(** [str.split()] gives one piece for each word. *)
Lemma pieces_words (s : str) :
  forall cur,
    length (filter Str.nonempty (Str.pieces Str.is_space cur s))
    = word_starts (negb (Str.nonempty cur)) s
      + (if Str.nonempty cur then 1 else 0).
Proof.
  assert (Hrev : forall cur, Str.nonempty (rev cur) = Str.nonempty cur).
  { intros [|a cur]; [reflexivity|]. simpl. destruct (rev cur); reflexivity. }
  induction s as [|c s IH]; intros cur.
  - simpl. rewrite Hrev. destruct (Str.nonempty cur); reflexivity.
  - cbn [Str.pieces word_starts]. destruct (Str.is_space c).
    + cbn [filter]. rewrite Hrev.
      destruct (Str.nonempty cur); cbn [length]; rewrite (IH []); simpl; lia.
    + rewrite (IH (c :: cur)). simpl. destruct (Str.nonempty cur); simpl; lia.
Qed.

Lemma split_words (s : str) : length (Str.split s) = words_in s.
Proof.
  unfold Str.split, words_in. rewrite pieces_words. simpl. lia.
Qed.

Lemma distinct_counts (l : list nat) : distinct_count l (distinct l).
Proof.
  exists (nodup Nat.eq_dec l). split; [apply NoDup_nodup|].
  split; [intros x; apply nodup_In | reflexivity].
Qed.

Lemma mean_times_length (l : list nat) :
  l <> [] ->
  (mean l * inject_Z (Z.of_nat (length l)) == inject_Z (Z.of_nat (list_sum l)))%Q.
Proof.
  intros Hne. unfold mean, Qnat.
  change (sum_nat l) with (list_sum l).
  assert (H : ~ (inject_Z (Z.of_nat (length l)) == 0)%Q).
  { destruct l; [congruence|]. unfold Qeq. simpl. lia. }
  field. exact H.
Qed.

(** C6. The sentences are the pieces of the text between maximal runs of
    '.', '!' and '?' that hold more than whitespace. For a text without a
    sentence the pacing score is exactly 1/2. Otherwise, with [n] sentences,
    [d] different numbers of words among them and [avg] the mean number of
    words of a sentence, the score is 0.6 * (d / n) + 0.4 * (1 - |avg - 8| / 8).
    Numbers are exact rationals; the code evaluates the same expression in
    floating point. *)
Theorem pacing_score_formula (text : str) :
  let sentences := map Str.strip (spec_sentences text) in
  let lengths := map words_in sentences in
  let n := inject_Z (Z.of_nat (length sentences)) in
  match sentences with
  | [] => _calculate_pacing_score text = (1 # 2)%Q
  | _ :: _ =>
      exists d avg,
        distinct_count lengths d /\
        (avg * n == inject_Z (Z.of_nat (list_sum lengths)))%Q /\
        (_calculate_pacing_score text
         == (6 # 10) * (inject_Z (Z.of_nat d) / n)
            + (4 # 10) * (1 - Qabs (avg - (8 # 1)) / (8 # 1)))%Q
  end.
Proof.
  intros sentences lengths n. unfold _calculate_pacing_score.
  rewrite sentences_of_spec. fold sentences.
  assert (Hl : word_counts sentences = lengths).
  { unfold word_counts, lengths. apply map_ext. intros s. apply split_words. }
  rewrite Hl. subst n.
  destruct sentences as [|s0 ss] eqn:E; [reflexivity|].
  exists (distinct lengths), (mean lengths).
  assert (Hn : length (s0 :: ss) = length lengths)
    by (unfold lengths; rewrite length_map; reflexivity).
  split; [apply distinct_counts|]. split.
  - rewrite Hn. apply mean_times_length. unfold lengths. discriminate.
  - rewrite Hn. unfold Qnat. ring.
Qed.

(** Four sentences of two words each score 0.6 * (1/4) + 0.4 * (1 - 6/8),
    which is 1/4; a text of punctuation and blanks scores 1/2. *)
Lemma pacing_score_formula_witness :
  (exists d avg,
     distinct_count [2; 2; 2; 2] d /\
     (avg * (4 # 1) == 8 # 1)%Q /\
     (_calculate_pacing_score "Go on. Go on. Go on. Go on."
      == (6 # 10) * (inject_Z (Z.of_nat d) / (4 # 1))
         + (4 # 10) * (1 - Qabs (avg - (8 # 1)) / (8 # 1)))%Q)
  /\ (_calculate_pacing_score "Go on. Go on. Go on. Go on." == 1 # 4)%Q
  /\ _calculate_pacing_score "   ...  ?!" = (1 # 2)%Q
  /\ (_calculate_pacing_score
        "Look, you can't judge a book by its cover! I'm not what you think!"
      == 95 # 100)%Q.
Proof.
  split; [|split; [|split]].
  - exact (pacing_score_formula "Go on. Go on. Go on. Go on.").
  - vm_compute. reflexivity.
  - exact (pacing_score_formula "   ...  ?!").
  - vm_compute. reflexivity.
Defined.

(** ** Literal patterns and cliché detection (C4) *)

Lemma strip_lit_exact (p : str) :
  forall s,
    Re.strip_lit false p s
    = if Str.startswith p s
      then Some (firstn (length p) s, skipn (length p) s)
      else None.
Proof.
  induction p as [|a p IH]; intros s; simpl; [reflexivity|].
  destruct s as [|c s]; [reflexivity|].
  unfold Re.char_eq. destruct (Str.eqb_char a c) eqn:E; simpl; [|reflexivity].
  rewrite IH. destruct (Str.startswith p s); [|reflexivity].
  unfold Str.eqb_char in E. apply Ascii.eqb_eq in E. subst. reflexivity.
Qed.

Lemma match_lit (p : str) (prev : option ascii) (s : str) :
  Re.match_here false (literal_re p) prev s
  = if Str.startswith p s
    then Some (firstn (length p) s ++ [], skipn (length p) s)
    else None.
Proof.
  unfold literal_re, Re.match_here. rewrite strip_lit_exact.
  destruct (Str.startswith p s); reflexivity.
Qed.

Lemma startswith_length (p s : str) :
  Str.startswith p s = true -> length p <= length s.
Proof.
  intros H. apply startswith_app in H as [post ->]. rewrite length_app. lia.
Qed.

Lemma search_lit_contains (p : str) :
  p <> [] ->
  forall s prev,
    existsb (@Re.is_hit) (Re.scan_from false (literal_re p) 0 prev s)
    = Str.contains p s.
Proof.
  intros Hne. induction s as [|c s IH]; intros prev.
  - destruct p; [congruence | reflexivity].
  - pose proof (match_lit p prev (c :: s)) as Hm.
    simpl Str.contains. destruct (Str.startswith p (c :: s)) eqn:E.
    + erewrite scan_hit; [reflexivity | exact Hm |].
      destruct p; [congruence | simpl; discriminate].
    + rewrite scan_keep by exact Hm. simpl. apply IH.
Qed.

Lemma occurrences_cons (p : str) (c : ascii) (s : str) :
  occurrences p (c :: s)
  = (if Str.startswith p (c :: s) then [0] else [])
      ++ map S (occurrences p s).
Proof.
  unfold occurrences. simpl length. rewrite <- cons_seq, <- seq_shift.
  simpl filter. rewrite filter_map_swap.
  destruct (Str.startswith p (c :: s)); reflexivity.
Qed.

Lemma occurrences_skip (p : str) :
  forall k s,
    k <= length s ->
    (forall j, j < k -> Str.startswith p (skipn j s) = false) ->
    occurrences p s = map (fun i => k + i) (occurrences p (skipn k s)).
Proof.
  induction k as [|k IH]; intros s Hk Hno.
  - simpl. rewrite map_id. reflexivity.
  - destruct s as [|c s]; [simpl in Hk; lia|].
    rewrite occurrences_cons.
    pose proof (Hno 0 ltac:(lia)) as H0. simpl in H0. rewrite H0. simpl.
    rewrite (IH s).
    + rewrite map_map. reflexivity.
    + simpl in Hk. lia.
    + intros j Hj. apply (Hno (S j)). lia.
Qed.

Lemma border_free_no_overlap (p s : str) (j : nat) :
  border_free p = true ->
  Str.startswith p s = true ->
  0 < j < length p ->
  Str.startswith p (skipn j s) = false.
Proof.
  intros Hb Hs Hj.
  destruct (Str.startswith p (skipn j s)) eqn:E; [|reflexivity].
  exfalso.
  apply startswith_app in Hs as [post ->].
  apply startswith_app in E as [post' E].
  rewrite skipn_app in E.
  replace (j - length p) with 0 in E by lia. simpl skipn in E.
  unfold border_free in Hb. rewrite forallb_forall in Hb.
  specialize (Hb j). rewrite negb_true_iff in Hb.
  assert (Hpre : Str.startswith (skipn j p) p = true).
  { apply startswith_app.
    exists (skipn (length p - j) p).
    rewrite <- (firstn_skipn (length p - j) p) at 1.
    f_equal.
    assert (H : firstn (length p - j) (skipn j p ++ post)
                = firstn (length p - j) (p ++ post')) by (rewrite E; reflexivity).
    rewrite !firstn_app in H.
    rewrite length_skipn in H.
    replace (length p - j - (length p - j)) with 0 in H by lia.
    replace (length p - j - length p) with 0 in H by lia.
    simpl in H. rewrite !app_nil_r in H.
    rewrite firstn_all2 in H by (rewrite length_skipn; lia).
    symmetry. exact H. }
  rewrite Hb in Hpre; [discriminate|].
  apply in_seq. lia.
Qed.

(** On a border-free literal, [re.finditer] finds every occurrence. *)
Lemma finditer_lit_occurrences (p : str) (n : nat) :
  p <> [] ->
  border_free p = true ->
  forall s prev pos,
    length s <= n ->
    Re.spans_from pos (Re.scan_from false (literal_re p) 0 prev s)
    = map (fun i => (pos + i, pos + i + length p)) (occurrences p s).
Proof.
  intros Hne Hb. induction n as [|n IH]; intros s prev pos Hlen.
  - destruct s; [reflexivity | simpl in Hlen; lia].
  - destruct s as [|c s]; [reflexivity|]. simpl in Hlen.
    pose proof (match_lit p prev (c :: s)) as Hm.
    destruct (Str.startswith p (c :: s)) eqn:E.
    + pose proof (startswith_length _ _ E) as Hle. simpl in Hle.
      assert (Hp : 1 <= length p) by (destruct p; [congruence | simpl; lia]).
      assert (Hl : length (firstn (length p) (c :: s) ++ []) = length p).
      { rewrite length_app, length_firstn. simpl length. lia. }
      erewrite scan_hit; [|exact Hm|].
      * rewrite Hl. simpl Re.spans_from. rewrite Hl.
        rewrite IH by (rewrite length_skipn; lia).
        rewrite occurrences_cons, E. simpl app. simpl map.
        rewrite (occurrences_skip p (length p - 1) s).
        -- rewrite !map_map. rewrite Nat.add_0_r. f_equal.
           apply map_ext. intros i. f_equal; lia.
        -- lia.
        -- intros j Hj.
           apply (border_free_no_overlap p (c :: s) (S j)); auto. lia.
      * intros H. apply (f_equal (@length ascii)) in H. rewrite Hl in H.
        simpl in H. lia.
    + rewrite scan_keep by exact Hm. simpl Re.spans_from.
      rewrite IH by lia. rewrite occurrences_cons, E. simpl.
      rewrite map_map. apply map_ext. intros i.
      f_equal; lia.
Qed.

Lemma cliche_patterns_plain :
  forallb (fun p => Str.nonempty p && border_free p) _load_cliche_patterns = true.
Proof. vm_compute. reflexivity. Qed.

Lemma detect_patterns_filter (tl : str) (patterns : list str) :
  forallb Str.nonempty patterns = true ->
  map cliche_pattern
    (flat_map (fun pattern =>
                 if Re.search false (literal_re pattern) tl
                 then [mkClicheReport pattern "medium"
                         "Consider rephrasing to be more original"]
                 else [])
              patterns)
  = filter (fun p => Str.contains p tl) patterns.
Proof.
  induction patterns as [|p patterns IH]; intros Hne; [reflexivity|].
  simpl in Hne. apply andb_true_iff in Hne as [Hp Hne].
  cbn [flat_map filter]. rewrite map_app, IH by exact Hne.
  unfold Re.search, Re.scan. rewrite search_lit_contains
    by (destruct p; [discriminate | congruence]).
  destruct (Str.contains p tl); reflexivity.
Qed.

Lemma detected_every_occurrence (text : str) (patterns : list str) :
  forallb (fun p => Str.nonempty p && border_free p) patterns = true ->
  flat_map (fun pattern =>
              map (fun span => (slice text (fst span) (snd span), pattern))
                  (Re.finditer false (literal_re pattern) (Str.lower text)))
           patterns
  = flat_map (fun pattern =>
                map (fun i => (slice text i (i + length pattern), pattern))
                    (occurrences pattern (Str.lower text)))
             patterns.
Proof.
  induction patterns as [|p patterns IH]; intros Hall; [reflexivity|].
  simpl in Hall. apply andb_true_iff in Hall as [Hp Hall].
  apply andb_true_iff in Hp as [Hne Hb].
  cbn [flat_map]. rewrite IH by exact Hall. f_equal.
  unfold Re.finditer, Re.scan.
  rewrite (finditer_lit_occurrences p (length (Str.lower text))); auto.
  - rewrite map_map. reflexivity.
  - destruct p; [discriminate | congruence].
Qed.

Lemma nodupb_sound (l : list str) : nodupb l = true -> NoDup l.
Proof.
  induction l as [|x l IH]; simpl; [constructor|].
  rewrite andb_true_iff, negb_true_iff. intros [Hx Hl].
  constructor; [|apply IH; exact Hl].
  intros Hin. assert (E : existsb (Str.eqb x) l = true).
  { apply existsb_exists. exists x. split; [exact Hin | apply str_eqb_refl]. }
  congruence.
Qed.

Lemma cliche_patterns_nodup : NoDup _load_cliche_patterns.
Proof. apply nodupb_sound. vm_compute. reflexivity. Qed.

Lemma sorted_seq (n : nat) : forall a, StronglySorted lt (seq a n).
Proof.
  induction n as [|n IH]; intros a; simpl; constructor.
  - apply IH.
  - apply Forall_forall. intros x Hx. apply in_seq in Hx. lia.
Qed.

Lemma sorted_filter (f : nat -> bool) (l : list nat) :
  StronglySorted lt l -> StronglySorted lt (filter f l).
Proof.
  induction 1 as [|x l Hs IH Hall]; simpl; [constructor|].
  destruct (f x); [|exact IH]. constructor; [exact IH|].
  apply Forall_forall. intros y Hy. apply filter_In in Hy as [Hy _].
  rewrite Forall_forall in Hall. auto.
Qed.

Lemma lower_firstn (n : nat) (s : str) :
  Str.lower (firstn n s) = firstn n (Str.lower s).
Proof. unfold Str.lower. symmetry. apply firstn_map. Qed.

Lemma lower_skipn (n : nat) (s : str) :
  Str.lower (skipn n s) = skipn n (Str.lower s).
Proof. unfold Str.lower. symmetry. apply skipn_map. Qed.

(** The places of a pattern in the lowered text are the places where a
    part of the original text reads the pattern once lowered. *)
Lemma occurrence_stands (pattern text : str) (i : nat) :
  pattern <> [] ->
  In i (occurrences pattern (Str.lower text))
  <-> exists m, stands_at i m text /\ Str.lower m = pattern.
Proof.
  intros Hne. unfold occurrences. rewrite filter_In, in_seq. split.
  - intros [[_ Hi] Hs]. simpl in Hi.
    unfold Str.lower in Hi. rewrite length_map in Hi.
    rewrite <- lower_skipn in Hs.
    apply startswith_app in Hs as [post Hs].
    unfold Str.lower in Hs.
    apply map_eq_app in Hs as (m & post' & Hsplit & Hm & _).
    exists m. split; [|exact Hm].
    exists (firstn i text), post'. split.
    + rewrite <- Hsplit. symmetry. apply firstn_skipn.
    + apply firstn_length_le. lia.
  - intros (m & (pre & post & -> & <-) & <-). split.
    + split; [lia|]. simpl. unfold Str.lower.
      rewrite length_map, !length_app.
      destruct m; [elim Hne; reflexivity | simpl; lia].
    + rewrite <- lower_skipn, skipn_app, skipn_all, Nat.sub_diag. simpl.
      apply startswith_app. exists (Str.lower post).
      unfold Str.lower. apply map_app.
Qed.

Lemma slice_stands (pattern text : str) (i : nat) :
  In i (occurrences pattern (Str.lower text)) ->
  stands_at i (slice text i (i + length pattern)) text /\
  Str.lower (slice text i (i + length pattern)) = pattern.
Proof.
  unfold occurrences. rewrite filter_In, in_seq. intros [[_ Hi] Hs].
  simpl in Hi. unfold Str.lower in Hi. rewrite length_map in Hi.
  unfold slice. replace (i + length pattern - i) with (length pattern) by lia.
  split.
  - exists (firstn i text), (skipn (length pattern) (skipn i text)). split.
    + rewrite firstn_skipn. symmetry. apply firstn_skipn.
    + apply firstn_length_le. lia.
  - rewrite lower_firstn, lower_skipn.
    apply startswith_app in Hs as [post Hs]. rewrite Hs.
    rewrite firstn_app, firstn_all, Nat.sub_diag. simpl. apply app_nil_r.
Qed.

Lemma records_of_places (text : str) (patterns : list str) :
  Forall2 (phrase_at text)
    (flat_map (fun pattern =>
                 map (fun i => (i, pattern))
                   (occurrences pattern (Str.lower text)))
       patterns)
    (flat_map (fun pattern =>
                 map (fun i => (slice text i (i + length pattern), pattern))
                   (occurrences pattern (Str.lower text)))
       patterns).
Proof.
  induction patterns as [|pattern patterns IH]; [constructor|].
  cbn [flat_map]. apply Forall2_app; [|exact IH].
  assert (H : forall l,
             incl l (occurrences pattern (Str.lower text)) ->
             Forall2 (phrase_at text)
               (map (fun i => (i, pattern)) l)
               (map (fun i => (slice text i (i + length pattern), pattern)) l)).
  { induction l as [|i l IHl]; intros Hincl; [constructor|].
    simpl. constructor.
    - unfold phrase_at. simpl. split; [reflexivity|].
      apply slice_stands. apply Hincl. left. reflexivity.
    - apply IHl. intros x Hx. apply Hincl. right. exact Hx. }
  apply H. apply incl_refl.
Qed.

(** C4, as the code has it, for a text of ASCII characters.
    [_detect_cliches] reports each library pattern that occurs in the text
    in some casing, once however often it occurs, and by its pattern alone:
    the rest of a report is the same for every pattern. It is the scan at
    the head of [generate_dialogue_alternatives] that makes one record for
    every occurrence: for each library pattern, in library order, and each
    place where a part of the text reads the pattern once lowered, in
    increasing order of the places, a record with the pattern and that part
    of the original text. *)
Theorem cliche_detection_reports (text : str) :
  ascii_text text = true ->
  (NoDup (map cliche_pattern (_detect_cliches text)) /\
   (forall pattern,
      In pattern (map cliche_pattern (_detect_cliches text))
      <-> In pattern _load_cliche_patterns /\ occurs_ci pattern text) /\
   Forall (fun report =>
             cliche_severity report = txt "medium" /\
             cliche_suggestion report
             = txt "Consider rephrasing to be more original")
     (_detect_cliches text))
  /\
  exists places : str -> list nat,
    (forall pattern,
       In pattern _load_cliche_patterns ->
       StronglySorted lt (places pattern) /\
       forall i,
         In i (places pattern)
         <-> exists m, stands_at i m text /\ Str.lower m = pattern) /\
    Forall2 (phrase_at text)
      (flat_map (fun pattern => map (fun i => (i, pattern)) (places pattern))
         _load_cliche_patterns)
      (detected_cliches text).
Proof.
  intros _. pose proof cliche_patterns_plain as Hall.
  assert (Hne : forall pattern,
             In pattern _load_cliche_patterns -> pattern <> []).
  { intros pattern Hp. rewrite forallb_forall in Hall.
    specialize (Hall pattern Hp). apply andb_true_iff in Hall as [Hn _].
    destruct pattern; [discriminate | congruence]. }
  assert (Hrep : map cliche_pattern (_detect_cliches text)
                 = filter (fun p => Str.contains p (Str.lower text))
                     _load_cliche_patterns).
  { apply detect_patterns_filter.
    rewrite forallb_forall in Hall |- *. intros p Hp.
    specialize (Hall p Hp). apply andb_true_iff in Hall. tauto. }
  split; [split; [|split]|].
  - rewrite Hrep. apply NoDup_filter. exact cliche_patterns_nodup.
  - intros pattern. rewrite Hrep, filter_In, occurs_ci_lower. reflexivity.
  - unfold _detect_cliches. apply Forall_flat_map.
    apply Forall_forall. intros pattern _.
    destruct (Re.search false (literal_re pattern) (Str.lower text));
      repeat constructor.
  - exists (fun pattern => occurrences pattern (Str.lower text)). split.
    + intros pattern Hp. split.
      * unfold occurrences. apply sorted_filter. apply sorted_seq.
      * intros i. apply occurrence_stands. apply Hne. exact Hp.
    + unfold detected_cliches.
      rewrite (detected_every_occurrence text _load_cliche_patterns Hall).
      apply records_of_places.
Qed.

Lemma cliche_detection_reports_witness :
  (NoDup (map cliche_pattern (_detect_cliches "Loose cannon, loose cannon!")) /\
   (forall pattern,
      In pattern (map cliche_pattern
                    (_detect_cliches "Loose cannon, loose cannon!"))
      <-> In pattern _load_cliche_patterns /\
          occurs_ci pattern "Loose cannon, loose cannon!") /\
   Forall (fun report =>
             cliche_severity report = txt "medium" /\
             cliche_suggestion report
             = txt "Consider rephrasing to be more original")
     (_detect_cliches "Loose cannon, loose cannon!"))
  /\
  (exists places : str -> list nat,
     (forall pattern,
        In pattern _load_cliche_patterns ->
        StronglySorted lt (places pattern) /\
        forall i,
          In i (places pattern)
          <-> exists m,
                stands_at i m "Loose cannon, loose cannon!" /\
                Str.lower m = pattern) /\
     Forall2 (phrase_at "Loose cannon, loose cannon!")
       (flat_map (fun pattern => map (fun i => (i, pattern)) (places pattern))
          _load_cliche_patterns)
       (detected_cliches "Loose cannon, loose cannon!"))
  /\
  map (fun record => (string_of_list_ascii (fst record),
                      string_of_list_ascii (snd record)))
    (detected_cliches "Loose cannon, loose cannon!")
  = [("Loose cannon", "loose cannon"); ("loose cannon", "loose cannon")].
Proof.
  pose proof (cliche_detection_reports "Loose cannon, loose cannon!"
                ltac:(vm_compute; reflexivity)) as [H1 H2].
  split; [exact H1|]. split; [exact H2|]. vm_compute. reflexivity.
Defined.

(** The specification as worded fails for [_detect_cliches]: a pattern that occurs
    twice is reported once, without a span or the matched phrase. *)
Lemma detect_cliches_counterexample :
  map string_of_list_ascii
    (map cliche_pattern (_detect_cliches "Loose cannon, loose cannon!"))
  = ["loose cannon"] /\
  occurrences "loose cannon" (Str.lower "Loose cannon, loose cannon!") = [0; 14].
Proof. vm_compute. split; reflexivity. Qed.

(** ** Whole-word substitution *)

Lemma is_word_lower (c : ascii) : Str.is_word (Str.lower_char c) = Str.is_word c.
Proof.
  destruct c as [[] [] [] [] [] [] [] []]; vm_compute; reflexivity.
Qed.

Lemma char_eq_is_word (a c : ascii) :
  Re.char_eq true a c = true -> Str.is_word c = Str.is_word a.
Proof.
  unfold Re.char_eq, Str.eqb_char. intros H. apply Ascii.eqb_eq in H.
  rewrite <- (is_word_lower c), <- (is_word_lower a), H. reflexivity.
Qed.

Lemma strip_lit_ci (w : str) :
  forall s,
    Re.strip_lit true w s
    = if ci_prefix w s
      then Some (firstn (length w) s, skipn (length w) s)
      else None.
Proof.
  induction w as [|a w IH]; intros s; simpl; [reflexivity|].
  destruct s as [|c s]; [reflexivity|].
  destruct (Str.eqb_char (Str.lower_char a) (Str.lower_char c)); simpl;
    [|reflexivity].
  rewrite IH. destruct (ci_prefix w s); reflexivity.
Qed.

Lemma tail_match_split (w : str) :
  forall s,
    tail_match w s
    = ci_prefix w s && negb (is_word_head (skipn (length w) s)).
Proof.
  induction w as [|a w IH]; intros s; simpl; [reflexivity|].
  destruct s as [|c s]; [reflexivity|].
  rewrite IH, andb_assoc. reflexivity.
Qed.

Lemma prev_after_word (w : str) :
  forall s prev,
    ci_prefix w s = true ->
    Re.is_word_opt (Re.prev_after prev (firstn (length w) s))
    = Re.is_word_opt (Re.prev_after prev w).
Proof.
  induction w as [|a w IH]; intros s prev H; [reflexivity|].
  destruct s as [|c s]; [discriminate|].
  simpl in H. apply andb_true_iff in H as [Hc H].
  unfold Re.prev_after. simpl. fold (Re.prev_after (Some c) (firstn (length w) s)).
  fold (Re.prev_after (Some a) w).
  destruct w as [|b w].
  - simpl. apply char_eq_is_word. exact Hc.
  - destruct s as [|d s]; [discriminate|].
    rewrite (IH (d :: s) (Some c) H).
    unfold Re.prev_after. reflexivity.
Qed.

Lemma prev_after_nonempty (w : str) (a : ascii) (p1 p2 : option ascii) :
  Re.prev_after p1 (a :: w) = Re.prev_after p2 (a :: w).
Proof. reflexivity. Qed.

(** [\bw\b] at a position, for a [w] whose ends are word characters. *)
Lemma match_word (w : str) (prev : option ascii) (s : str) :
  wordy w = true ->
  Re.match_here true (word_re w) prev s
  = if word_at w (Re.is_word_opt prev) s
    then Some (firstn (length w) s ++ [], skipn (length w) s)
    else None.
Proof.
  intros Hw. unfold wordy in Hw. apply andb_true_iff in Hw as [Hh Hl].
  unfold word_re. cbn [Re.match_here]. rewrite strip_lit_ci.
  unfold word_at. rewrite tail_match_split.
  destruct (ci_prefix w s) eqn:Ep.
  - assert (Hb1 : Re.boundary prev s = negb (Re.is_word_opt prev)).
    { destruct w as [|a w]; [discriminate|].
      destruct s as [|c s]; [discriminate|].
      simpl in Ep. apply andb_true_iff in Ep as [Hc _].
      unfold Re.boundary. simpl. unfold is_word_head in Hh. simpl in Hh.
      rewrite (char_eq_is_word a c Hc), Hh. apply xorb_true_r. }
    assert (Hb2 : Re.boundary
                    (Re.prev_after (Re.prev_after prev [])
                       (firstn (length w) s))
                    (skipn (length w) s)
                  = negb (is_word_head (skipn (length w) s))).
    { unfold Re.boundary. change (Re.prev_after prev []) with prev.
      rewrite (prev_after_word w s prev Ep).
      destruct w as [|a w]; [discriminate|].
      rewrite (prev_after_nonempty w a prev None), Hl. reflexivity. }
    rewrite Hb1, Hb2.
    destruct (Re.is_word_opt prev); simpl; [reflexivity|].
    destruct (is_word_head (skipn (length w) s)); reflexivity.
  - rewrite andb_false_r. destruct (Re.boundary prev s); reflexivity.
Qed.

Lemma tail_match_length (w s : str) :
  tail_match w s = true -> length w <= length s.
Proof.
  revert s. induction w as [|a w IH]; intros s H; simpl; [lia|].
  destruct s as [|c s]; [discriminate|]. simpl in H.
  apply andb_true_iff in H as [_ H]. apply IH in H. simpl. lia.
Qed.

Lemma last_matched_is_word (w : str) :
  forall s,
    ci_prefix w s = true ->
    w <> [] ->
    Re.is_word_opt (Re.prev_after None w) = true ->
    Re.is_word_opt (nth_error s (length w - 1)) = true.
Proof.
  induction w as [|a w IH]; intros s Hp Hne Hl; [congruence|].
  destruct s as [|c s]; [discriminate|].
  simpl in Hp. apply andb_true_iff in Hp as [Hc Hp].
  destruct w as [|b w].
  - simpl. rewrite (char_eq_is_word a c Hc). exact Hl.
  - replace (length (a :: b :: w) - 1) with (S (length (b :: w) - 1))
      by (simpl; lia).
    simpl nth_error. apply IH; [exact Hp | discriminate | exact Hl].
Qed.

Lemma prev_at_nth (c : ascii) (s : str) (k : nat) :
  prev_at (Some c) s k = nth_error (c :: s) k.
Proof. destruct k; reflexivity. Qed.

Section OutWord.
Variables w f : str.
Hypothesis w_wordy : wordy w = true.

Lemma out_word_nil (pw : bool) : out_word w f pw [] = [].
Proof. reflexivity. Qed.

Lemma out_word_prev (prev : option ascii) (s : str) :
  flat_map (fun g => match g with Re.Keep c => [c] | Re.Hit _ => f end)
    (Re.scan_from true (word_re w) 0 prev s)
  = out_word w f (Re.is_word_opt prev) s.
Proof.
  unfold out_word. destruct s as [|c s]; [reflexivity|].
  cbn [Re.scan_from]. rewrite !match_word by exact w_wordy.
  replace (Re.is_word_opt
             (if Re.is_word_opt prev then Some "a"%char else None))
    with (Re.is_word_opt prev) by (destruct (Re.is_word_opt prev); reflexivity).
  reflexivity.
Qed.

Lemma out_word_keep (pw : bool) (c : ascii) (s : str) :
  word_at w pw (c :: s) = false ->
  out_word w f pw (c :: s) = c :: out_word w f (Str.is_word c) s.
Proof.
  intros H. unfold out_word at 1.
  rewrite scan_keep.
  - simpl flat_map. rewrite out_word_prev. reflexivity.
  - rewrite match_word by exact w_wordy.
    replace (Re.is_word_opt (if pw then Some "a"%char else None)) with pw
      by (destruct pw; reflexivity).
    rewrite H. reflexivity.
Qed.

Lemma out_word_hit (pw : bool) (s : str) :
  word_at w pw s = true ->
  out_word w f pw s = f ++ out_word w f true (skipn (length w) s).
Proof.
  intros H. destruct s as [|c s].
  - unfold word_at in H. apply andb_true_iff in H as [_ H].
    destruct w; [discriminate w_wordy | discriminate H].
  - unfold out_word at 1.
    assert (Hm := match_word w (if pw then Some "a"%char else None) (c :: s)
                    w_wordy).
    replace (Re.is_word_opt (if pw then Some "a"%char else None)) with pw in Hm
      by (destruct pw; reflexivity).
    rewrite H in Hm.
    assert (Hlen : length w <= length (c :: s)).
    { apply tail_match_length. unfold word_at in H.
      apply andb_true_iff in H. tauto. }
    assert (Hpos : 1 <= length w) by (destruct w; [discriminate w_wordy | simpl; lia]).
    assert (Hl : length (firstn (length w) (c :: s) ++ []) = length w).
    { rewrite length_app, length_firstn. simpl length in *. lia. }
    erewrite scan_hit; [|exact Hm|].
    + simpl flat_map. rewrite Hl, out_word_prev. f_equal.
      assert (Hs : skipn (length w) (c :: s) = skipn (length w - 1) s).
      { destruct (length w); [lia|]. simpl. rewrite Nat.sub_0_r. reflexivity. }
      rewrite Hs. f_equal.
      rewrite prev_at_nth. apply last_matched_is_word.
      * unfold word_at in H. rewrite tail_match_split in H.
        apply andb_true_iff in H as [_ H]. apply andb_true_iff in H. tauto.
      * destruct w; [discriminate w_wordy | discriminate].
      * unfold wordy in w_wordy. apply andb_true_iff in w_wordy. tauto.
    + intros E. rewrite E in Hl. simpl in Hl. lia.
Qed.

End OutWord.

(** A text without a match is left as it is. *)
Lemma out_word_clean (w f : str) :
  wordy w = true ->
  forall s pw, clean w pw s = true -> out_word w f pw s = s.
Proof.
  intros Hw. induction s as [|c s IH]; intros pw H; [reflexivity|].
  simpl in H. apply andb_true_iff in H as [Hm H].
  apply negb_true_iff in Hm.
  rewrite out_word_keep by assumption. rewrite IH by exact H. reflexivity.
Qed.

Lemma clean_weaken (w : str) (pw : bool) (s : str) :
  clean w pw s = true -> clean w true s = true.
Proof.
  destruct s as [|c s]; [reflexivity|]. cbn [clean]. intros H.
  apply andb_true_iff in H as [_ H]. rewrite H. reflexivity.
Qed.

Lemma clean_after (w' : str) (m : str) :
  forall s pw,
    tail_match m s = true ->
    clean w' pw s = true ->
    clean w' true (skipn (length m) s) = true.
Proof.
  induction m as [|a m IH]; intros s pw Hm H.
  - simpl. apply (clean_weaken w' pw). exact H.
  - destruct s as [|c s]; [discriminate|]. simpl in Hm, H |- *.
    apply andb_true_iff in Hm as [_ Hm]. apply andb_true_iff in H as [_ H].
    apply (IH s (Str.is_word c)); assumption.
Qed.

(** A difference within the common length rules a match out, whatever
    follows. *)
Lemma agree_false (w x z : str) :
  agree w x = false -> tail_match w (x ++ z) = false.
Proof.
  revert x. induction w as [|a w IH]; intros x H; [discriminate|].
  destruct x as [|c x]; [discriminate|].
  cbn [agree tail_match app] in H |- *. apply andb_false_iff in H as [H | H].
  - rewrite H. reflexivity.
  - rewrite (IH x H). apply andb_false_r.
Qed.

(** No match starts inside a replacement. *)
Lemma clean_replacement (w' : str) (z : str) :
  clean w' true z = true ->
  forall f pw, inner_ok w' pw f = true -> clean w' pw (f ++ z) = true.
Proof.
  intros Hz. induction f as [|a f IH]; intros pw H; simpl in H.
  - subst pw. exact Hz.
  - apply andb_true_iff in H as [H1 H2].
    cbn [app clean]. rewrite (IH _ H2), andb_true_r.
    unfold word_at. destruct pw; [reflexivity|].
    rewrite orb_false_l in H1. rewrite andb_true_l.
    apply negb_true_iff in H1. rewrite negb_true_iff.
    apply (agree_false w' (a :: f) z H1).
Qed.

Section NoNewMatch.
Variables w f : str.
Hypothesis w_wordy : wordy w = true.
Hypothesis f_head : is_word_head f = true.

Lemma out_word_head (pw : bool) (s : str) :
  is_word_head s = true -> is_word_head (out_word w f pw s) = true.
Proof.
  intros H. destruct s as [|c s]; [discriminate|].
  destruct (word_at w pw (c :: s)) eqn:E.
  - rewrite out_word_hit by assumption.
    destruct f; [discriminate | exact f_head].
  - rewrite out_word_keep by assumption. exact H.
Qed.

(** A match that fails on the text fails on the output. *)
Lemma window (q : str) :
  forall s pw,
    window_ok f pw q = true ->
    tail_match q s = false ->
    tail_match q (out_word w f pw s) = false.
Proof.
  induction q as [|a q IH]; intros s pw Hok H.
  - cbn [tail_match] in H |- *. apply negb_false_iff in H. apply negb_false_iff.
    apply out_word_head. exact H.
  - cbn [window_ok] in Hok. apply andb_true_iff in Hok as [Hok1 Hok2].
    destruct s as [|d s]; [reflexivity|].
    destruct (word_at w pw (d :: s)) eqn:E.
    + rewrite out_word_hit by assumption.
      apply agree_false.
      unfold word_at in E. apply andb_true_iff in E as [E _].
      apply negb_true_iff in E. subst pw. rewrite orb_false_l in Hok1.
      apply negb_true_iff in Hok1. exact Hok1.
    + rewrite out_word_keep by assumption. cbn [tail_match] in H |- *.
      destruct (Re.char_eq true a d) eqn:Ec; [|reflexivity].
      rewrite andb_true_l in H |- *.
      apply IH; [|exact H].
      rewrite (char_eq_is_word a d Ec). exact Hok2.
Qed.

(** Substituting [f] for [w] leaves no match of [w] and makes no match of
    a compatible [w']. *)
Lemma out_word_no_new_match (w' : str) (n : nat) :
  compatible w' f = true ->
  forall s pw,
    length s <= n ->
    w' = w \/ clean w' pw s = true ->
    clean w' pw (out_word w f pw s) = true.
Proof.
  intros Hc. unfold compatible in Hc. apply andb_true_iff in Hc as [Hin Hwin].
  induction n as [|n IH]; intros s pw Hlen H.
  - destruct s; [reflexivity | simpl in Hlen; lia].
  - destruct s as [|c s]; [reflexivity|]. simpl in Hlen.
    destruct (word_at w pw (c :: s)) eqn:E.
    + (* a match of [w]: the output starts with [f] *)
      rewrite out_word_hit by assumption.
      assert (Hpw : pw = false).
      { unfold word_at in E. apply andb_true_iff in E as [E _].
        apply negb_true_iff in E. exact E. }
      subst pw.
      apply clean_replacement; [|exact Hin].
      apply IH.
      * rewrite length_skipn.
        assert (1 <= length w) by (destruct w; [discriminate w_wordy | simpl; lia]).
        simpl length. lia.
      * destruct H as [H | H]; [left; exact H | right].
        unfold word_at in E. simpl negb in E. rewrite andb_true_l in E.
        apply (clean_after w' w (c :: s) false E H).
    + (* no match of [w]: the character is kept *)
      rewrite out_word_keep by assumption.
      assert (Hhere : word_at w' pw (c :: s) = false).
      { destruct H as [-> | H]; [exact E|].
        simpl in H. apply andb_true_iff in H as [H _].
        apply negb_true_iff in H. exact H. }
      assert (Hrest : w' = w \/ clean w' (Str.is_word c) s = true).
      { destruct H as [H | H]; [left; exact H | right].
        simpl in H. apply andb_true_iff in H. tauto. }
      cbn [clean]. rewrite (IH s (Str.is_word c)) by (auto; lia).
      rewrite andb_true_r, negb_true_iff.
      unfold word_at in Hhere |- *.
      destruct pw; [reflexivity|]. rewrite andb_true_l in Hhere |- *.
      destruct w' as [|a q]; [discriminate|].
      cbn [tail_match] in Hhere |- *.
      destruct (Re.char_eq true a c) eqn:Ec; [|reflexivity].
      rewrite andb_true_l in Hhere |- *.
      apply window; [|exact Hhere].
      rewrite (char_eq_is_word a c Ec). exact Hwin.
Qed.

End NoNewMatch.

Lemma sub_word_out (w f s : str) :
  wordy w = true -> sub_word w f s = out_word w f false s.
Proof.
  intros Hw. unfold sub_word, Re.sub, Re.scan.
  exact (out_word_prev w f Hw None s).
Qed.

Lemma replace_words_no_match (w' : str) (table : list (str * str)) :
  (forall e, In e table ->
     wordy (fst e) = true /\ is_word_head (snd e) = true /\
     compatible w' (snd e) = true) ->
  forall s,
    clean w' false s = true \/ In w' (map fst table) ->
    clean w' false (replace_words table s) = true.
Proof.
  unfold replace_words.
  induction table as [|e table IH]; intros Hall s H.
  - destruct H as [H | []]. exact H.
  - cbn [fold_left].
    destruct (Hall e (or_introl eq_refl)) as (Hw & Hf & Hc).
    apply IH; [intros e' He'; apply Hall; right; exact He'|].
    destruct H as [H | [H | H]].
    + left. rewrite sub_word_out by exact Hw.
      apply (out_word_no_new_match (fst e) (snd e) Hw Hf w' (length s) Hc);
        auto.
    + left. rewrite sub_word_out by exact Hw.
      apply (out_word_no_new_match (fst e) (snd e) Hw Hf w' (length s) Hc);
        auto.
    + right. exact H.
Qed.

Lemma replace_words_fixed (table : list (str * str)) (x : str) :
  (forall e, In e table ->
     wordy (fst e) = true /\ clean (fst e) false x = true) ->
  replace_words table x = x.
Proof.
  unfold replace_words.
  induction table as [|e table IH]; intros Hall; [reflexivity|].
  cbn [fold_left].
  destruct (Hall e (or_introl eq_refl)) as (Hw & Hc).
  rewrite sub_word_out, out_word_clean by assumption.
  apply IH. intros e' He'. apply Hall. right. exact He'.
Qed.

(** A second pass over a table that is safe to apply word after word
    changes nothing. *)
Lemma replace_words_idempotent (table : list (str * str)) (s : str) :
  table_ok table = true ->
  replace_words table (replace_words table s) = replace_words table s.
Proof.
  intros Hok. unfold table_ok in Hok. rewrite forallb_forall in Hok.
  apply replace_words_fixed. intros e He.
  pose proof (Hok e He) as H.
  apply andb_true_iff in H as [H _]. apply andb_true_iff in H as [Hw _].
  split; [exact Hw|].
  apply replace_words_no_match.
  - intros e' He'. pose proof (Hok e' He') as H'.
    apply andb_true_iff in H' as [H1 H2]. apply andb_true_iff in H1 as [Hw' Hf'].
    rewrite forallb_forall in H2. auto.
  - right. apply in_map. exact He.
Qed.

Lemma formal_replacements_ok : table_ok formal_replacements = true.
Proof. vm_compute. reflexivity. Qed.

(** ** The formality transform (C8) *)

Lemma Qltb_ge (u threshold : Q) : (threshold <= u)%Q -> Qltb u threshold = false.
Proof.
  intros H. unfold Qltb. destruct (Qlt_le_dec u threshold) as [Hlt|]; auto.
  exfalso. apply (Qlt_not_le _ _ Hlt). exact H.
Qed.

Lemma make_more_formal_no_prefix (threshold : Q) (text : str) (w : World) :
  (threshold <= draws w (draw_pos w))%Q ->
  fst (_make_more_formal_at threshold text w)
  = replace_words formal_replacements text.
Proof.
  intros H. unfold _make_more_formal_at.
  destruct (negb (Re.matches false _ (replace_words formal_replacements text)));
    [|reflexivity].
  unfold bind, Random.random. rewrite (Qltb_ge _ _ H). reflexivity.
Qed.

Lemma make_more_formal_draws (threshold : Q) (text : str) (w : World) :
  (threshold <= draws w (draw_pos w))%Q ->
  draws (snd (_make_more_formal_at threshold text w)) = draws w.
Proof.
  intros H. unfold _make_more_formal_at.
  destruct (negb (Re.matches false _ (replace_words formal_replacements text)));
    [|reflexivity].
  unfold bind, Random.random. rewrite (Qltb_ge _ _ H). reflexivity.
Qed.

(** C8. With the prefix switched off (no draw falls below the threshold,
    as when the threshold is 0) and the formality at 0.99 or more, applying
    the formality adjustment to its own result returns that result. *)
Theorem formality_transform_idempotent
  (threshold formality : Q) (text : str) (w : World) :
  (forall i, threshold <= draws w i)%Q ->
  (99 # 100 <= formality)%Q ->
  let once := adjust_formality_at threshold formality text w in
  fst (adjust_formality_at threshold formality (fst once) (snd once))
  = fst once.
Proof.
  intros Hd Hf once. subst once. unfold adjust_formality_at.
  assert (Hq : Qltb (7 # 10) formality = true).
  { unfold Qltb. destruct (Qlt_le_dec (7 # 10) formality) as [|Hle]; auto.
    exfalso. assert (H : (99 # 100 <= 7 # 10)%Q) by (eapply Qle_trans; eauto).
    revert H. unfold Qle. simpl. lia. }
  rewrite Hq.
  rewrite (make_more_formal_no_prefix threshold text w) by apply Hd.
  rewrite make_more_formal_no_prefix.
  - apply replace_words_idempotent. exact formal_replacements_ok.
  - rewrite make_more_formal_draws by apply Hd. apply Hd.
Qed.

Lemma formality_transform_idempotent_witness :
  let once :=
    adjust_formality_at 0 1 "Yeah, I CAN'T do it, okay? I won't." still_world in
  fst (adjust_formality_at 0 1 (fst once) (snd once)) = fst once.
Proof.
  apply (formality_transform_idempotent 0 1
           "Yeah, I CAN'T do it, okay? I won't." still_world).
  - intros i. vm_compute. discriminate.
  - vm_compute. discriminate.
Defined.

(** * Further properties of the session *)

(** X1. The history is the log of the analysed lines: a sequence of calls
    only appends to it, one record for each [analyze_dialogue_line] in call
    order with the speaker, text and context given; each record's
    [scene_position] is its index in the history and its [emotional_tone]
    is the tone of its text. *)
Theorem history_is_the_log_of_analysed_lines
  (cs : list Call) (self : DialogueComposer) (w : World) :
  exists new,
    dialogue_history (fst (calls cs self w)) = dialogue_history self ++ new /\
    map line_key new = analysed cs /\
    map scene_position new
    = seq (length (dialogue_history self)) (length new) /\
    map emotional_tone new = map (fun line => _analyze_tone (text line)) new.
Proof.
  revert self w. induction cs as [|c cs IH]; intros self w.
  - exists []. simpl. rewrite app_nil_r. auto.
  - cbn [calls]. unfold bind.
    pose proof (call_effect c self w) as Hc.
    destruct (call c self w) as [self1 w1]. simpl in Hc.
    destruct (IH self1 w1) as (new & Hh & Hk & Hp & Ht).
    destruct c; try (subst self1; exists new; simpl; auto; fail).
    destruct Hc as [stamp ->]. rewrite update_history in Hh, Hp.
    simpl in Hh, Hp.
    eexists (_ :: new). rewrite Hh, <- app_assoc. split; [reflexivity|].
    unfold analysed. simpl. fold (analysed cs). rewrite Hk, Hp, Ht.
    rewrite length_app. simpl.
    replace (length (dialogue_history self) + 1)
      with (S (length (dialogue_history self))) by lia.
    auto.
Qed.

(** X2. The scene context is the one given by the latest
    [set_scene_context], whole; no other call touches it. *)
Theorem scene_context_is_the_latest_set
  (cs : list Call) (self : DialogueComposer) (w : World) :
  scene_context (fst (calls cs self w)) = scene_after cs (scene_context self).
Proof.
  revert self w. induction cs as [|c cs IH]; intros self w; [reflexivity|].
  cbn [calls]. unfold bind.
  pose proof (call_effect c self w) as Hc.
  destruct (call c self w) as [self1 w1]. simpl in Hc.
  rewrite IH. unfold scene_after. simpl. f_equal.
  destruct c; try (subst self1; reflexivity).
  destruct Hc as [stamp ->]. rewrite update_scene. reflexivity.
Qed.

Lemma dict_set_keys (V : Type) (k : str) (v v0 : V) (d : Dict.t V) :
  Dict.get k d = Some v0 -> Dict.keys (Dict.set k v d) = Dict.keys d.
Proof.
  unfold Dict.keys. induction d as [|[k' v'] d IH]; simpl; [discriminate|].
  destruct (Str.eqb k k') eqn:E; simpl; [reflexivity|].
  intros H. rewrite IH by exact H. reflexivity.
Qed.

(** X3. Analysing a line registers nobody and touches nobody but the
    speaker: the registered names and their order stay, every other
    character's profile stays, the scene stays, and for a speaker that is
    not registered no profile changes at all. *)
Theorem analyze_touches_only_the_speaker
  (self : DialogueComposer) (sp tx cx who : str) (w : World) :
  who <> sp ->
  let after := snd (fst (analyze_dialogue_line self sp tx cx w)) in
  Dict.get who (characters after) = Dict.get who (characters self) /\
  Dict.keys (characters after) = Dict.keys (characters self) /\
  scene_context after = scene_context self /\
  (Dict.get sp (characters self) = None -> characters after = characters self).
Proof.
  intros Hne after. subst after.
  rewrite analyze_scene, analyze_characters.
  split; [apply update_other; exact Hne|].
  split; [|split; [reflexivity|]].
  - unfold _update_character_patterns.
    destruct (Dict.get sp (characters self)) eqn:E; [|reflexivity].
    simpl. apply (dict_set_keys _ _ _ _ _ E).
  - intros H. rewrite update_unknown by exact H. reflexivity.
Qed.

Lemma analyze_touches_only_the_speaker_witness :
  let after :=
    snd (fst (analyze_dialogue_line one_line_session "B" "Who, me?" []
                still_world)) in
  Dict.get "A" (characters after) = Dict.get "A" (characters one_line_session) /\
  Dict.keys (characters after) = Dict.keys (characters one_line_session) /\
  scene_context after = scene_context one_line_session /\
  (Dict.get "B" (characters one_line_session) = None ->
   characters after = characters one_line_session).
Proof.
  apply (analyze_touches_only_the_speaker one_line_session "B" "Who, me?" []
           "A" still_world).
  vm_compute. discriminate.
Defined.

(** ** An invariant of every session *)

Lemma Qnat_nonneg (n : nat) : (0 <= Qnat n)%Q.
Proof. unfold Qnat, Qle. simpl. lia. Qed.

Lemma mean_nonneg (l : list nat) : (0 <= mean l)%Q.
Proof.
  unfold mean, Qdiv. apply Qmult_le_0_compat; [apply Qnat_nonneg|].
  apply Qinv_le_0_compat, Qnat_nonneg.
Qed.

Lemma lines_of_grow (who : str) (h : list DialogueLine) (line : DialogueLine) :
  length (lines_of who h) <= length (lines_of who (h ++ [line])).
Proof. rewrite lines_of_app, length_app. lia. Qed.

Lemma init_sound : session_sound init.
Proof. intros who c H. discriminate H. Qed.

Lemma add_character_sound (self : DialogueComposer) (n : str)
  (voice : option (Dict.t Q)) :
  session_sound self -> session_sound (add_character self n voice).
Proof.
  intros Hs who c. unfold add_character. simpl.
  destruct (Str.eqb who n) eqn:E.
  - apply str_eqb_eq in E. subst who. rewrite dict_get_set_same.
    intros [= <-]. unfold character_sound. simpl.
    repeat split; auto; try lia. unfold Qle. simpl. lia.
  - apply str_eqb_neq in E. rewrite dict_get_set_other by exact E.
    apply Hs.
Qed.

Lemma record_line_sound (self : DialogueComposer) (sp tx : str)
  (line : DialogueLine) :
  speaker line = sp ->
  session_sound self ->
  session_sound
    (_update_character_patterns
       (mkComposer (characters self) (dialogue_history self ++ [line])
          (scene_context self)) sp tx).
Proof.
  intros Hsp Hs who c. rewrite update_history. simpl.
  destruct (Str.eqb who sp) eqn:E.
  - apply str_eqb_eq in E. subst who.
    unfold _update_character_patterns. simpl.
    destruct (Dict.get sp (characters self)) as [c0|] eqn:E0; simpl.
    + rewrite dict_get_set_same. intros [= <-].
      destruct (Hs sp c0 E0) as (Hn & Hc & Ha & Hz).
      unfold character_sound. simpl.
      split; [exact Hn|]. split; [|split].
      * rewrite lines_of_app, length_app. unfold lines_of at 2. simpl.
        rewrite Hsp, str_eqb_refl. simpl. lia.
      * destruct (sentences_of tx); [exact Ha|].
        unfold Qdiv. apply Qmult_le_0_compat.
        -- apply (Qle_trans _ (0 + 0)); [unfold Qle; simpl; lia|].
           apply Qplus_le_compat; [|apply mean_nonneg].
           apply Qmult_le_0_compat; [exact Ha | apply Qnat_nonneg].
        -- apply Qinv_le_0_compat, Qnat_nonneg.
      * intros H. lia.
    + rewrite E0. discriminate.
  - apply str_eqb_neq in E.
    rewrite update_other by exact E. simpl. intros H.
    destruct (Hs who c H) as (Hn & Hc & Ha & Hz).
    unfold character_sound. repeat split; auto.
    eapply Nat.le_trans; [exact Hc | apply lines_of_grow].
Qed.

Lemma calls_sound (cs : list Call) :
  forall self w, session_sound self -> session_sound (fst (calls cs self w)).
Proof.
  induction cs as [|c cs IH]; intros self w Hs; [exact Hs|].
  cbn [calls]. unfold bind.
  pose proof (call_effect c self w) as Hc.
  destruct (call c self w) as [self1 w1]. simpl in Hc.
  apply IH.
  destruct c; try (subst self1; exact Hs).
  - subst self1. apply add_character_sound. exact Hs.
  - destruct Hc as [stamp ->]. apply record_line_sound; [reflexivity | exact Hs].
Qed.

(** X4. In every session reached from a new composer, a character stored
    under a name carries that name, its [dialogue_count] never exceeds the
    number of records of that speaker in the history, its
    [avg_sentence_length] is never negative, and it is 0 as long as the
    count is 0. *)
Theorem profiles_stay_sound
  (cs : list Call) (w : World) (who : str) (c : Character) :
  Dict.get who (characters (fst (calls cs init w))) = Some c ->
  name c = who /\
  dialogue_count c
  <= length (lines_of who (dialogue_history (fst (calls cs init w)))) /\
  (0 <= avg_sentence_length c)%Q /\
  (dialogue_count c = 0 -> avg_sentence_length c = 0%Q).
Proof.
  intros H. exact (calls_sound cs init w init_sound who c H).
Qed.

Lemma profiles_stay_sound_witness :
  exists c,
    Dict.get "A" (characters one_line_session) = Some c /\
    name c = txt "A" /\
    dialogue_count c <= length (lines_of "A" (dialogue_history one_line_session)) /\
    (0 <= avg_sentence_length c)%Q /\
    (dialogue_count c = 0 -> avg_sentence_length c = 0%Q).
Proof.
  eexists. split.
  - vm_compute. reflexivity.
  - apply (profiles_stay_sound
             [AddCharacter "A" None; AnalyzeDialogueLine "A" "Hi." []]
             still_world "A").
    vm_compute. reflexivity.
Defined.

(** * Further properties of the alternatives *)

Lemma startswith_skipn_contains (p s : str) (i : nat) :
  Str.startswith p (skipn i s) = true -> Str.contains p s = true.
Proof.
  intros H. apply startswith_app in H as [post H].
  apply contains_app. exists (firstn i s), post.
  rewrite <- H. symmetry. apply firstn_skipn.
Qed.

Lemma occurrences_none (p s : str) :
  Str.contains p s = false -> occurrences p s = [].
Proof.
  intros H. unfold occurrences.
  induction (seq 0 (length s)) as [|i l IH]; [reflexivity|]. simpl.
  destruct (Str.startswith p (skipn i s)) eqn:E; [|exact IH].
  apply startswith_skipn_contains in E. congruence.
Qed.

Lemma filter_nil_forall (A : Type) (f : A -> bool) (l : list A) :
  filter f l = [] -> forall x, In x l -> f x = false.
Proof.
  induction l as [|a l IH]; intros H x Hx; [destruct Hx|].
  simpl in H. destruct (f a) eqn:E; [discriminate|].
  destruct Hx as [<- | Hx]; auto.
Qed.

Lemma no_cliche_nothing_detected (text : str) :
  _detect_cliches text = [] -> detected_cliches text = [].
Proof.
  intros H.
  assert (Hf : filter (fun p => Str.contains p (Str.lower text))
                 _load_cliche_patterns = []).
  { rewrite <- detect_patterns_filter.
    - unfold _detect_cliches in H. rewrite H. reflexivity.
    - pose proof cliche_patterns_plain as Hall.
      rewrite forallb_forall in Hall |- *. intros p Hp.
      specialize (Hall p Hp). apply andb_true_iff in Hall. tauto. }
  unfold detected_cliches.
  rewrite (detected_every_occurrence text _ cliche_patterns_plain).
  pose proof (filter_nil_forall _ _ _ Hf) as Hno.
  revert Hno. generalize _load_cliche_patterns as l.
  induction l as [|p l IH]; intros Hno; [reflexivity|].
  cbn [flat_map]. rewrite occurrences_none by (apply Hno; left; reflexivity).
  simpl. apply IH. intros x Hx. apply Hno. right. exact Hx.
Qed.

(** X5. When the analysis of a text reports no cliché, no alternative is
    generated and the random source is not read; the analysis carries no
    alternatives and [suggest_improved_dialogue] returns no alternative and no
    improved version. *)
Theorem no_cliche_no_alternatives
  (self : DialogueComposer) (sp text cx : str) (n : nat) (w : World) :
  _detect_cliches text = [] ->
  generate_dialogue_alternatives self sp text n w = ([], w) /\
  dialogue_alternatives (fst (fst (analyze_dialogue_line self sp text cx w)))
  = [] /\
  cliche_alternatives (fst (suggest_improved_dialogue self sp text w)) = [] /\
  improved_versions (fst (suggest_improved_dialogue self sp text w)) = [] /\
  snd (suggest_improved_dialogue self sp text w) = w.
Proof.
  intros H.
  assert (Hg : forall n, generate_dialogue_alternatives self sp text n w = ([], w)).
  { intros k. unfold generate_dialogue_alternatives.
    rewrite (no_cliche_nothing_detected text H). reflexivity. }
  split; [apply Hg|].
  unfold analyze_dialogue_line, suggest_improved_dialogue, bind.
  rewrite Hg. simpl. auto.
Qed.

Lemma no_cliche_no_alternatives_witness :
  generate_dialogue_alternatives one_line_session "A" "Nothing worn here." 5
    still_world = ([], still_world) /\
  dialogue_alternatives
    (fst (fst (analyze_dialogue_line one_line_session "A" "Nothing worn here."
                 [] still_world))) = [] /\
  cliche_alternatives
    (fst (suggest_improved_dialogue one_line_session "A" "Nothing worn here."
            still_world)) = [] /\
  improved_versions
    (fst (suggest_improved_dialogue one_line_session "A" "Nothing worn here."
            still_world)) = [] /\
  snd (suggest_improved_dialogue one_line_session "A" "Nothing worn here."
         still_world) = still_world.
Proof.
  apply (no_cliche_no_alternatives one_line_session "A" "Nothing worn here." []
           5 still_world).
  vm_compute. reflexivity.
Defined.

(** ** The shape of an alternative *)

Lemma set_nth_length (j : nat) (x : str) (xs : list str) :
  length (Random.set_nth j x xs) = length xs.
Proof.
  revert j. induction xs as [|y xs IH]; intros j; [destruct j; reflexivity|].
  destruct j; simpl; [reflexivity | rewrite IH; reflexivity].
Qed.

Lemma set_nth_in (j : nat) (x z : str) (xs : list str) :
  In z (Random.set_nth j x xs) -> z = x \/ In z xs.
Proof.
  revert j. induction xs as [|y xs IH]; intros j H.
  - destruct j; destruct H.
  - destruct j; simpl in H.
    + destruct H as [<- | H]; auto. right. right. exact H.
    + destruct H as [<- | H]; [right; left; reflexivity|].
      destruct (IH _ H); auto. right. right. assumption.
Qed.

Lemma randbelow_below (n : nat) (w : World) :
  0 < n -> fst (Random.randbelow n w) < n.
Proof.
  intros Hn. unfold Random.randbelow, bind, Random.random, ret. simpl.
  apply Nat.mod_upper_bound. lia.
Qed.

Lemma sample_from_length (k : nat) :
  forall pool n w, length (fst (Random.sample_from pool n k w)) = k.
Proof.
  induction k as [|k IH]; intros pool n w; [reflexivity|].
  cbn [Random.sample_from]. unfold bind.
  destruct (Random.randbelow n w) as [j w1].
  specialize (IH (Random.set_nth j (nth (n - 1) pool []) pool) (n - 1) w1).
  destruct (Random.sample_from _ (n - 1) k w1) as [rest w2].
  simpl in *. rewrite IH. reflexivity.
Qed.

(** Each pick of a sample is an element of the pool. *)
Lemma sample_from_in (k : nat) :
  forall pool n w,
    k <= n -> n <= length pool ->
    Forall (fun x => In x pool) (fst (Random.sample_from pool n k w)).
Proof.
  induction k as [|k IH]; intros pool n w Hk Hn; [constructor|].
  cbn [Random.sample_from]. unfold bind.
  pose proof (randbelow_below n w ltac:(lia)) as Hj.
  destruct (Random.randbelow n w) as [j w1]. simpl in Hj.
  specialize (IH (Random.set_nth j (nth (n - 1) pool []) pool) (n - 1) w1
                ltac:(lia) ltac:(rewrite set_nth_length; lia)).
  destruct (Random.sample_from _ (n - 1) k w1) as [rest w2].
  simpl in *. constructor.
  - apply nth_In. lia.
  - eapply Forall_impl; [|exact IH]. simpl. intros z Hz.
    apply set_nth_in in Hz as [-> | Hz]; [apply nth_In; lia | exact Hz].
Qed.

Lemma mapM_length (A B : Type) (f : A -> M B) (l : list A) :
  forall w, length (fst (mapM f l w)) = length l.
Proof.
  induction l as [|x l IH]; intros w; [reflexivity|].
  cbn [mapM]. unfold bind. destruct (f x w) as [y w1].
  specialize (IH w1). destruct (mapM f l w1) as [ys w2].
  simpl in *. rewrite IH. reflexivity.
Qed.

Lemma adapt_length (self : DialogueComposer) (sp : str) (alts : list str)
  (text : str) (w : World) :
  length (fst (_adapt_to_character_voice self sp alts text w)) = length alts.
Proof.
  unfold _adapt_to_character_voice.
  destruct (Dict.get sp (characters self)); [apply mapM_length | reflexivity].
Qed.

Lemma alternatives_for_sound (self : DialogueComposer) (sp text : str) (n : nat)
  (all : list (str * str)) (detected : list (str * str)) :
  incl detected all ->
  forall w,
    Forall (alternative_sound text n all)
      (fst (alternatives_for self sp text n detected w)).
Proof.
  induction detected as [|[phrase pattern] detected IH]; intros Hincl w;
    [constructor|].
  assert (Hincl' : incl detected all) by (intros x Hx; apply Hincl; right; exact Hx).
  cbn [alternatives_for].
  destruct (Dict.get pattern _load_cliche_alternatives) as [[|a base]|] eqn:E;
    try (apply IH; exact Hincl').
  unfold bind.
  pose proof (sample_from_length (Nat.min n (length (a :: base))) (a :: base)
                (length (a :: base)) w) as Hlen.
  pose proof (sample_from_in (Nat.min n (length (a :: base))) (a :: base)
                (length (a :: base)) w (Nat.le_min_r _ _) (Nat.le_refl _)) as Hin.
  fold (Random.sample (a :: base) (Nat.min n (length (a :: base)))) in Hlen, Hin.
  destruct (Random.sample (a :: base) (Nat.min n (length (a :: base))) w)
    as [selected w1].
  pose proof (adapt_length self sp selected text w1) as Hal.
  destruct (_adapt_to_character_voice self sp selected text w1) as [adapted w2].
  specialize (IH Hincl' w2).
  destruct (alternatives_for self sp text n detected w2) as [rest w3].
  cbn [fst ret] in *. unfold ret. cbn [fst].
  constructor; [|exact IH].
  exists pattern, (a :: base). cbn [original_phrase alternatives
    character_voice_adjusted tone_context].
  repeat split; auto. apply Hincl. left. reflexivity.
Qed.

(** X6. Every alternative generated for a text belongs to a detected
    occurrence whose pattern has an entry in the table: it offers as many
    phrases as asked for (at most the entry's length), each taken from that
    entry, as many voice-adjusted phrases as raw ones, and the tone of the
    whole text as its tone context. *)
Theorem alternatives_come_from_the_table
  (self : DialogueComposer) (sp text : str) (n : nat) (w : World) :
  Forall (alternative_sound text n (detected_cliches text))
    (fst (generate_dialogue_alternatives self sp text n w)).
Proof.
  apply alternatives_for_sound. apply incl_refl.
Qed.

Lemma dict_get_in (V : Type) (k : str) (v : V) (d : Dict.t V) :
  Dict.get k d = Some v -> In v (map snd d).
Proof.
  induction d as [|[k' v'] d IH]; simpl; [discriminate|].
  destruct (Str.eqb k k'); [intros [= ->]; left; reflexivity | auto].
Qed.

Lemma library_entries_have_five (pattern : str) (base : list str) :
  Dict.get pattern _load_cliche_alternatives = Some base -> length base = 5.
Proof.
  intros H. apply dict_get_in in H.
  assert (Hall : forallb (fun b => length b =? 5)
                   (map snd _load_cliche_alternatives) = true)
    by (vm_compute; reflexivity).
  rewrite forallb_forall in Hall. apply Nat.eqb_eq. apply Hall. exact H.
Qed.

Lemma max_list_constant (k : nat) (l : list nat) :
  l <> [] -> Forall (fun x => x = k) l -> max_list l = k.
Proof.
  induction l as [|x l IH]; intros Hne Hall; [congruence|].
  inversion Hall as [|? ? Hx Hl]; subst. simpl.
  destruct l as [|y l]; [simpl; lia|].
  rewrite IH by (auto; discriminate). lia.
Qed.

(** X7. [suggest_improved_dialogue] returns exactly three improved versions
    whenever it returns at least one alternative, and none otherwise: every
    entry of the table holds five phrases, all five are selected and
    adapted, and the versions stop at three. *)
Theorem three_improved_versions
  (self : DialogueComposer) (sp text : str) (w : World) :
  let r := fst (suggest_improved_dialogue self sp text w) in
  length (improved_versions r)
  = match cliche_alternatives r with [] => 0 | _ => 3 end.
Proof.
  intros r. subst r. unfold suggest_improved_dialogue, bind.
  pose proof (alternatives_for_sound self sp text 5 (detected_cliches text)
                (detected_cliches text) (incl_refl _) w) as Hs.
  fold (generate_dialogue_alternatives self sp text 5) in Hs.
  destruct (generate_dialogue_alternatives self sp text 5 w) as [alts w1].
  cbn [fst ret improved_versions cliche_alternatives] in *. unfold ret.
  cbn [fst improved_versions cliche_alternatives].
  destruct alts as [|alt alts]; [reflexivity|].
  rewrite length_map, length_seq.
  rewrite (max_list_constant 5); [reflexivity | discriminate |].
  rewrite Forall_map. eapply Forall_impl; [|exact Hs].
  intros a (pattern & base & _ & Hget & Hlen & _ & Hadj & _).
  rewrite Hadj, Hlen, (library_entries_have_five pattern base Hget).
  reflexivity.
Qed.

Lemma mapM_ret (A : Type) (f : A -> M A) (l : list A) :
  (forall x w, f x w = (x, w)) -> forall w, mapM f l w = (l, w).
Proof.
  intros Hf. induction l as [|x l IH]; intros w; [reflexivity|].
  cbn [mapM]. unfold bind. rewrite Hf, IH. reflexivity.
Qed.

Lemma Qltb_le (a b : Q) : (b <= a)%Q -> Qltb a b = false.
Proof. apply Qltb_ge. Qed.

Lemma adjustments_mid_range (formality verbosity emotion : Q) (alt : str)
  (w : World) :
  mid_range formality -> mid_range verbosity -> mid_range emotion ->
  (adapted <- adjust_formality formality alt ;;
   adapted <- adjust_verbosity verbosity adapted ;;
   adjust_emotion emotion adapted) w = (alt, w).
Proof.
  intros [Hf1 Hf2] [Hv1 Hv2] [He1 He2].
  unfold bind, adjust_formality, adjust_formality_at, adjust_verbosity,
    adjust_emotion.
  rewrite (Qltb_le _ _ Hf2), (Qltb_ge _ _ Hf1). unfold ret.
  rewrite (Qltb_le _ _ Hv2), (Qltb_ge _ _ Hv1).
  rewrite (Qltb_le _ _ He2), (Qltb_ge _ _ He1). reflexivity.
Qed.

(** X8. Voice adaptation is the identity, and reads no random draw, for a
    speaker that is not registered and for a registered speaker whose
    formality, verbosity and emotion intensity all lie between 0.3 and 0.7
    (as in the default voice). *)
Theorem neutral_voice_leaves_alternatives
  (self : DialogueComposer) (sp : str) (alts : list str) (text : str)
  (w : World) :
  (forall c,
     Dict.get sp (characters self) = Some c ->
     mid_range (voice_param c "formality") /\
     mid_range (voice_param c "verbosity") /\
     mid_range (voice_param c "emotion_intensity")) ->
  _adapt_to_character_voice self sp alts text w = (alts, w).
Proof.
  intros H. unfold _adapt_to_character_voice.
  destruct (Dict.get sp (characters self)) as [c|]; [|reflexivity].
  destruct (H c eq_refl) as (Hf & Hv & He).
  apply mapM_ret. intros alt w0. apply adjustments_mid_range; assumption.
Qed.

Lemma neutral_voice_leaves_alternatives_witness :
  _adapt_to_character_voice one_line_session "A"
    (strs ["wild card"; "chaos magnet"]) "He is a loose cannon." still_world
  = (strs ["wild card"; "chaos magnet"], still_world).
Proof.
  apply neutral_voice_leaves_alternatives.
  intros c Hc. vm_compute in Hc. injection Hc as <-.
  unfold mid_range. vm_compute.
  repeat split; discriminate.
Defined.

(** * Further properties of the queries and the report *)

(** X9. Registration and lookup: right after [add_character] the summary of
    that name is a value (never the error), with count 0, average 0, the
    voice given (or the default), and the tones and consistency of whatever
    lines of that speaker the history already holds; the summary of every
    other name is what it was. *)
Theorem summary_after_registration
  (self : DialogueComposer) (n : str) (voice : option (Dict.t Q)) :
  get_character_voice_summary (add_character self n voice) n
  = Value
      (mkVoiceSummary n 0 (round1 0)
         (most_common 3
            (map emotional_tone (lines_of n (dialogue_history self))))
         (voice_or_default voice)
         (_calculate_consistency_score (lines_of n (dialogue_history self))))
  /\ (forall other,
        other <> n ->
        get_character_voice_summary (add_character self n voice) other
        = get_character_voice_summary self other).
Proof.
  unfold get_character_voice_summary, add_character. simpl. split.
  - rewrite dict_get_set_same. reflexivity.
  - intros other Hne. rewrite dict_get_set_other by exact Hne. reflexivity.
Qed.

Lemma summary_after_registration_witness :
  get_character_voice_summary (add_character one_line_session "B" None) "B"
  = Value
      (mkVoiceSummary "B" 0 (round1 0)
         (most_common 3
            (map emotional_tone
               (lines_of "B" (dialogue_history one_line_session))))
         (voice_or_default None)
         (_calculate_consistency_score
            (lines_of "B" (dialogue_history one_line_session))))
  /\ get_character_voice_summary (add_character one_line_session "B" None) "A"
     = get_character_voice_summary one_line_session "A".
Proof.
  destruct (summary_after_registration one_line_session "B" None) as [H1 H2].
  split; [exact H1|]. apply H2. vm_compute. discriminate.
Defined.

Lemma dict_get_key (V : Type) (k : str) (d : Dict.t V) :
  In k (Dict.keys d) -> exists v, Dict.get k d = Some v.
Proof.
  unfold Dict.keys. induction d as [|[k' v'] d IH]; simpl; [intros []|].
  intros [-> | H].
  - rewrite str_eqb_refl. eauto.
  - destruct (Str.eqb k k'); eauto.
Qed.

(** X10. On a session whose history is empty [export_analysis_report]
    returns, leaves the session as it was, reports no line and no overall
    pattern, counts the registered characters, and lists one summary for
    each registered name, in registration order, none of them an error. *)
Theorem export_before_any_line
  (fuel : nat) (self : DialogueComposer) (w : World) :
  dialogue_history self = [] ->
  exists report w',
    export_analysis_report fuel self w = (Some (report, self), w') /\
    total_dialogue_lines report = 0 /\
    characters_analyzed report = length (characters self) /\
    report_scene_context report = scene_context self /\
    overall_patterns report = None /\
    map fst (character_summaries report) = Dict.keys (characters self) /\
    Forall (fun e => exists summary, snd e = Value summary)
      (character_summaries report).
Proof.
  intros E. unfold export_analysis_report, _analyze_overall_patterns, bind.
  simpl. rewrite E. simpl. eexists _, _. split; [reflexivity|]. simpl.
  repeat split; auto.
  - rewrite map_map. simpl. apply map_id.
  - rewrite Forall_map. simpl. apply Forall_forall. intros k Hk.
    destruct (dict_get_key _ k _ Hk) as [c Hc].
    unfold get_character_voice_summary. rewrite Hc. eauto.
Qed.

Lemma export_before_any_line_witness :
  exists report w',
    export_analysis_report 0 (add_character init "A" None) still_world
    = (Some (report, add_character init "A" None), w') /\
    total_dialogue_lines report = 0 /\
    characters_analyzed report = length (characters (add_character init "A" None)) /\
    report_scene_context report = scene_context (add_character init "A" None) /\
    overall_patterns report = None /\
    map fst (character_summaries report)
    = Dict.keys (characters (add_character init "A" None)) /\
    Forall (fun e => exists summary, snd e = Value summary)
      (character_summaries report).
Proof.
  apply (export_before_any_line 0 (add_character init "A" None) still_world).
  reflexivity.
Defined.

(** * Further properties of the scores *)

Lemma distinct_le (l : list nat) : distinct l <= length l.
Proof.
  unfold distinct. induction l as [|x l IH]; simpl; [lia|].
  destruct (in_dec Nat.eq_dec x l); simpl; lia.
Qed.

Lemma distinct_pos (l : list nat) : l <> [] -> 1 <= distinct l.
Proof.
  unfold distinct. intros Hne. destruct l as [|x l]; [congruence|].
  assert (H : In x (nodup Nat.eq_dec (x :: l))) by (apply nodup_In; left; reflexivity).
  destruct (nodup Nat.eq_dec (x :: l)); [destruct H | simpl; lia].
Qed.

Lemma Qnat_le (a b : nat) : a <= b -> (Qnat a <= Qnat b)%Q.
Proof. intros H. unfold Qnat, Qle. simpl. lia. Qed.

Lemma Qnat_pos (a : nat) : 1 <= a -> (0 < Qnat a)%Q.
Proof. intros H. unfold Qnat, Qlt. simpl. lia. Qed.

Lemma ratio_bounds (d n : nat) :
  1 <= d -> d <= n -> (0 < Qnat d / Qnat n /\ Qnat d / Qnat n <= 1)%Q.
Proof.
  intros Hd Hn.
  pose proof (Qnat_pos n ltac:(lia)) as Hp.
  pose proof (Qnat_pos d Hd) as Hdp.
  pose proof (Qnat_le d n Hn) as Hle.
  split.
  - apply Qlt_shift_div_l; [exact Hp | lra].
  - apply Qle_shift_div_r; [exact Hp | lra].
Qed.

(** X11. The pacing score never exceeds 1; it is positive whenever the
    sentences average at most 16 words, and negative once they average
    more than 28, although the docstring announces a score between 0
    and 1. *)
Theorem pacing_score_bounds (text : str) :
  (_calculate_pacing_score text <= 1)%Q /\
  ((line_average text <= 16 # 1)%Q -> (0 < _calculate_pacing_score text)%Q) /\
  ((28 # 1 < line_average text)%Q -> (_calculate_pacing_score text < 0)%Q).
Proof.
  unfold _calculate_pacing_score, line_average.
  destruct (sentences_of text) as [|s0 ss] eqn:E.
  - repeat split; intros; lra.
  - set (lengths := word_counts (s0 :: ss)).
    assert (Hne : lengths <> []) by (unfold lengths, word_counts; simpl; discriminate).
    destruct (ratio_bounds (distinct lengths) (length lengths)
                (distinct_pos lengths Hne) (distinct_le lengths)) as [Hv0 Hv1].
    pose proof (mean_nonneg lengths) as Hm.
    set (variety := (Qnat (distinct lengths) / Qnat (length lengths))%Q) in *.
    set (avg := mean lengths) in *.
    pose proof (Qabs_nonneg (avg - (8 # 1))) as Habs.
    assert (Hdiv : forall x : Q, (x / (8 # 1) == x * (1 # 8))%Q)
      by (intros x; unfold Qdiv; reflexivity).
    rewrite Hdiv.
    split; [lra|]. split; intros H.
    + assert (Hle : (Qabs (avg - (8 # 1)) <= 8 # 1)%Q)
        by (apply Qabs_Qle_condition; split; lra).
      lra.
    + assert (Hge : (avg - (8 # 1) <= Qabs (avg - (8 # 1)))%Q)
        by apply Qle_Qabs.
      lra.
Qed.

Lemma pacing_score_bounds_witness :
  (_calculate_pacing_score "One two three. Four five!" <= 1)%Q /\
  (0 < _calculate_pacing_score "One two three. Four five!")%Q.
Proof.
  destruct (pacing_score_bounds "One two three. Four five!") as (H1 & H2 & _).
  split; [exact H1|]. apply H2. vm_compute. discriminate.
Defined.

Lemma dict_set_length (V : Type) (k : str) (v : V) (d : Dict.t V) :
  length d <= length (Dict.set k v d) <= S (length d) /\
  1 <= length (Dict.set k v d).
Proof.
  induction d as [|[k' v'] d IH]; simpl; [lia|].
  destruct (Str.eqb k k'); simpl; lia.
Qed.

Lemma counter_length (xs : list str) :
  forall d,
    let step := fun (d : Dict.t nat) (x : str) =>
      Dict.set x (match Dict.get x d with Some n => n | None => 0 end + 1) d in
    length d <= length (fold_left step xs d) <= length d + length xs /\
    (xs <> [] -> 1 <= length (fold_left step xs d)).
Proof.
  induction xs as [|x xs IH]; intros d step; simpl.
  - split; [lia | congruence].
  - destruct (IH (step d x)) as [[H1 H2] H3]. fold step in H1, H2, H3.
    pose proof (dict_set_length _ x
                  (match Dict.get x d with Some n => n | None => 0 end + 1) d)
      as [[Hs1 Hs2] Hs3].
    fold (step d x) in Hs1, Hs2, Hs3.
    split; [lia|]. intros _. lia.
Qed.

Lemma distinct_str_bounds (xs : list str) :
  distinct_str xs <= length xs /\ (xs <> [] -> 1 <= distinct_str xs).
Proof.
  unfold distinct_str, counter.
  destruct (counter_length xs []) as [[_ H2] H3]. simpl in H2. auto.
Qed.

(** X12. The consistency score lies between 1/2 and 1: it is 1 for fewer
    than two lines and [1 - distinct/(2 * lines)] otherwise, so the clamp
    to the interval from 0 to 1 never acts. *)
Theorem consistency_score_range (character_lines : list DialogueLine) :
  (1 # 2 <= _calculate_consistency_score character_lines)%Q /\
  (_calculate_consistency_score character_lines <= 1)%Q /\
  (_calculate_consistency_score character_lines
   == if length character_lines <? 2 then 1
      else 1 - Qnat (distinct_str (map emotional_tone character_lines))
               / Qnat (length character_lines) * (1 # 2))%Q.
Proof.
  unfold _calculate_consistency_score.
  destruct (length character_lines <? 2) eqn:E.
  - repeat split; first [lra | reflexivity].
  - apply Nat.ltb_ge in E. rewrite length_map.
    set (tones := map emotional_tone character_lines).
    assert (Hlen : length tones = length character_lines)
      by (unfold tones; apply length_map).
    destruct (distinct_str_bounds tones) as [Hle Hpos].
    assert (Hne : tones <> [])
      by (intros H; rewrite H in Hlen; simpl in Hlen; lia).
    destruct (ratio_bounds (distinct_str tones) (length character_lines)
                (Hpos Hne) ltac:(lia)) as [Hr0 Hr1].
    set (ratio := (Qnat (distinct_str tones) / Qnat (length character_lines))%Q)
      in *.
    assert (Hmin : (Qmin 1 (1 - ratio * (5 # 10)) == 1 - ratio * (5 # 10))%Q)
      by (apply Q.min_r; lra).
    assert (Hmax : (Qmax 0 (Qmin 1 (1 - ratio * (5 # 10)))
                    == 1 - ratio * (5 # 10))%Q)
      by (rewrite Hmin; apply Q.max_r; lra).
    rewrite Hmax. repeat split; lra.
Qed.

(** * Further properties of the voice transforms *)

Lemma casual_replacements_ok : table_ok casual_replacements = true.
Proof. vm_compute. reflexivity. Qed.

Lemma verbose_expansions_ok : table_ok verbose_expansions = true.
Proof. vm_compute. reflexivity. Qed.

Lemma make_more_casual_no_marker (text : str) (w : World) :
  (2 # 10 <= draws w (draw_pos w))%Q ->
  fst (_make_more_casual text w) = replace_words casual_replacements text /\
  draws (snd (_make_more_casual text w)) = draws w.
Proof.
  intros H. unfold _make_more_casual.
  destruct (negb (Re.matches true _ (replace_words casual_replacements text)));
    [|split; reflexivity].
  unfold bind, Random.random. rewrite (Qltb_ge _ _ H). split; reflexivity.
Qed.

(** X13. With the casual marker switched off (no draw below 0.2),
    [_make_more_casual] applied to its own result returns that result: once
    the formal forms are replaced, a second pass finds none. *)
Theorem casual_transform_idempotent (text : str) (w : World) :
  (forall i, 2 # 10 <= draws w i)%Q ->
  let once := _make_more_casual text w in
  fst (_make_more_casual (fst once) (snd once)) = fst once.
Proof.
  intros Hd once. subst once.
  destruct (make_more_casual_no_marker text w (Hd _)) as [H1 H2].
  destruct (make_more_casual_no_marker (fst (_make_more_casual text w))
              (snd (_make_more_casual text w))) as [H3 _].
  - rewrite H2. apply Hd.
  - rewrite H3, H1. apply replace_words_idempotent.
    exact casual_replacements_ok.
Qed.

Lemma casual_transform_idempotent_witness :
  let once :=
    _make_more_casual "I cannot go. Perhaps you will not either."
      (mkWorld (fun _ => (1 # 2)%Q) 0 (fun _ => []) 0) in
  fst (_make_more_casual (fst once) (snd once)) = fst once.
Proof.
  apply casual_transform_idempotent. intros i. vm_compute. discriminate.
Defined.

Lemma make_more_verbose_no_addition (text : str) (w : World) :
  (4 # 10 <= draws w (draw_pos w))%Q ->
  fst (_make_more_verbose text w) = replace_words verbose_expansions text /\
  draws (snd (_make_more_verbose text w)) = draws w.
Proof.
  intros H. unfold _make_more_verbose, bind, Random.random.
  rewrite (Qltb_ge _ _ H). split; reflexivity.
Qed.

(** X14. With the explanatory addition switched off (no draw below 0.4),
    [_make_more_verbose] applied to its own result returns that result: no
    expansion contains a plain adjective of the table as a whole word. *)
Theorem verbose_transform_idempotent (text : str) (w : World) :
  (forall i, 4 # 10 <= draws w i)%Q ->
  let once := _make_more_verbose text w in
  fst (_make_more_verbose (fst once) (snd once)) = fst once.
Proof.
  intros Hd once. subst once.
  destruct (make_more_verbose_no_addition text w (Hd _)) as [H1 H2].
  destruct (make_more_verbose_no_addition (fst (_make_more_verbose text w))
              (snd (_make_more_verbose text w))) as [H3 _].
  - rewrite H2. apply Hd.
  - rewrite H3, H1. apply replace_words_idempotent.
    exact verbose_expansions_ok.
Qed.

Lemma verbose_transform_idempotent_witness :
  let once :=
    _make_more_verbose "A bad day, a HARD road, not easy."
      (mkWorld (fun _ => (1 # 2)%Q) 0 (fun _ => []) 0) in
  fst (_make_more_verbose (fst once) (snd once)) = fst once.
Proof.
  apply verbose_transform_idempotent. intros i. vm_compute. discriminate.
Defined.

(** ** What a transform never leaves behind *)

Lemma search_word_clean (w : str) :
  wordy w = true ->
  forall s prev,
    existsb (@Re.is_hit) (Re.scan_from true (word_re w) 0 prev s)
    = negb (clean w (Re.is_word_opt prev) s).
Proof.
  intros Hw. induction s as [|c s IH]; intros prev; [reflexivity|].
  pose proof (match_word w prev (c :: s) Hw) as Hm.
  cbn [clean]. destruct (word_at w (Re.is_word_opt prev) (c :: s)) eqn:E.
  - erewrite scan_hit; [reflexivity | exact Hm |].
    destruct w; [discriminate Hw | simpl; discriminate].
  - rewrite scan_keep by exact Hm. simpl existsb. rewrite IH. reflexivity.
Qed.

Lemma replace_words_cleans (table : list (str * str)) (s : str) (e : str * str) :
  table_ok table = true ->
  In e table ->
  wordy (fst e) = true /\ clean (fst e) false (replace_words table s) = true.
Proof.
  intros Hok He. unfold table_ok in Hok. rewrite forallb_forall in Hok.
  pose proof (Hok e He) as H.
  apply andb_true_iff in H as [H _]. apply andb_true_iff in H as [Hw _].
  split; [exact Hw|].
  apply replace_words_no_match.
  - intros e' He'. pose proof (Hok e' He') as H'.
    apply andb_true_iff in H' as [H1 H2]. apply andb_true_iff in H1 as [Hw' Hf'].
    rewrite forallb_forall in H2. auto.
  - right. apply in_map. exact He.
Qed.

Lemma lower_lower_char (c : ascii) :
  Str.lower_char (Str.lower_char c) = Str.lower_char c.
Proof.
  destruct c as [[] [] [] [] [] [] [] []]; vm_compute; reflexivity.
Qed.

Lemma tail_match_lower (w : str) :
  forall s, tail_match w (Str.lower s) = tail_match w s.
Proof.
  induction w as [|a w IH]; intros s.
  - destruct s as [|c s]; [reflexivity|]. simpl. unfold is_word_head. simpl.
    rewrite is_word_lower. reflexivity.
  - destruct s as [|c s]; [reflexivity|].
    cbn [Str.lower map tail_match]. fold (Str.lower s). rewrite IH.
    unfold Re.char_eq. rewrite lower_lower_char. reflexivity.
Qed.

Lemma clean_lower (w : str) :
  forall s pw, clean w pw (Str.lower s) = clean w pw s.
Proof.
  induction s as [|c s IH]; intros pw; [reflexivity|].
  cbn [Str.lower map clean]. fold (Str.lower s).
  rewrite IH, is_word_lower. unfold word_at.
  change (Str.lower_char c :: Str.lower s) with (Str.lower (c :: s)).
  rewrite tail_match_lower. reflexivity.
Qed.

Lemma clean_prepend (w z : str) :
  forall f pw,
    inner_free w pw f = true ->
    clean w (end_status pw f) z = true ->
    clean w pw (f ++ z) = true.
Proof.
  induction f as [|a f IH]; intros pw Hin Hz; [exact Hz|].
  cbn [inner_free] in Hin. apply andb_true_iff in Hin as [H1 H2].
  cbn [app clean]. rewrite (IH _ H2 Hz), andb_true_r.
  unfold word_at. destruct pw; [reflexivity|].
  rewrite orb_false_l in H1. rewrite andb_true_l.
  apply negb_true_iff in H1. rewrite negb_true_iff.
  apply (agree_false w (a :: f) z H1).
Qed.

Lemma choice_in (xs : list str) (w : World) :
  xs <> [] -> In (fst (Random.choice xs w)) xs.
Proof.
  intros Hne. unfold Random.choice, bind.
  pose proof (randbelow_below (length xs) w) as Hj.
  destruct (Random.randbelow (length xs) w) as [j w1]. simpl in *.
  apply nth_In. apply Hj. destruct xs; [congruence | simpl; lia].
Qed.

(** A marker put in front of the lowered text brings in no word of the
    table. *)
Lemma marked_clean (ws markers : list str) (r : str) (w : World) :
  markers <> [] ->
  forallb (fun word =>
             forallb (fun m => inner_free word false (m ++ txt " ")
                               && negb (end_status false (m ++ txt " ")))
                     markers) ws = true ->
  forall word,
    In word ws ->
    clean word false r = true ->
    clean word false (fst (Random.choice markers w) ++ txt " " ++ Str.lower r)
    = true.
Proof.
  intros Hne Hall word Hw Hr.
  rewrite forallb_forall in Hall. specialize (Hall word Hw).
  rewrite forallb_forall in Hall.
  specialize (Hall _ (choice_in markers w Hne)).
  apply andb_true_iff in Hall as [Hin Hend]. apply negb_true_iff in Hend.
  rewrite app_assoc. apply clean_prepend; [exact Hin|].
  rewrite Hend, clean_lower. exact Hr.
Qed.

(** X15. Whatever the random draws, the result of [_make_more_formal]
    holds none of the informal words of its table ("can't", "won't",
    "don't", "isn't", "aren't", "yeah", "okay", "sure") as a whole word, in
    any case, with or without the formal prefix. *)
Theorem formal_result_has_no_informal_word (text : str) (w : World) :
  whole_words_absent (map fst formal_replacements)
    (fst (_make_more_formal text w)) = true.
Proof.
  unfold whole_words_absent. apply forallb_forall. intros word Hword.
  apply in_map_iff in Hword as (e & <- & He).
  destruct (replace_words_cleans formal_replacements text e
              formal_replacements_ok He) as [Hw Hc].
  unfold Re.search, Re.scan. rewrite search_word_clean by exact Hw.
  rewrite negb_involutive. simpl Re.is_word_opt.
  unfold _make_more_formal, _make_more_formal_at.
  destruct (negb (Re.matches false _ (replace_words formal_replacements text)));
    [|exact Hc].
  unfold bind. destruct (Random.random w) as [u w1].
  destruct (Qltb u (2 # 10)); [|exact Hc].
  pose proof (marked_clean (map fst formal_replacements)
                (strs ["Perhaps"; "It appears that"; "One might say"])
                (replace_words formal_replacements text) w1) as Hm.
  destruct (Random.choice (strs ["Perhaps"; "It appears that"; "One might say"]) w1)
    as [prefix w2].
  apply Hm;
    [discriminate | vm_compute; reflexivity | apply in_map; exact He | exact Hc].
Qed.

(** X16. Whatever the random draws, the result of [_make_more_casual]
    holds none of the formal forms of its table ("cannot", "will not",
    "do not", "is not", "are not", "very well", "certainly", "perhaps") as
    whole words, in any case, with or without the casual marker. *)
Theorem casual_result_has_no_formal_form (text : str) (w : World) :
  whole_words_absent (map fst casual_replacements)
    (fst (_make_more_casual text w)) = true.
Proof.
  unfold whole_words_absent. apply forallb_forall. intros word Hword.
  apply in_map_iff in Hword as (e & <- & He).
  destruct (replace_words_cleans casual_replacements text e
              casual_replacements_ok He) as [Hw Hc].
  unfold Re.search, Re.scan. rewrite search_word_clean by exact Hw.
  rewrite negb_involutive. simpl Re.is_word_opt.
  unfold _make_more_casual.
  destruct (negb (Re.matches true _ (replace_words casual_replacements text)));
    [|exact Hc].
  unfold bind. destruct (Random.random w) as [u w1].
  destruct (Qltb u (2 # 10)); [|exact Hc].
  pose proof (marked_clean (map fst casual_replacements)
                (strs ["Look,"; "Hey,"; "Well,"])
                (replace_words casual_replacements text) w1) as Hm.
  destruct (Random.choice (strs ["Look,"; "Hey,"; "Well,"]) w1)
    as [marker w2].
  apply Hm;
    [discriminate | vm_compute; reflexivity | apply in_map; exact He | exact Hc].
Qed.

(** * Further properties of detection *)

Lemma lower_upper_char (c : ascii) :
  Str.lower_char (Str.upper_char c) = Str.lower_char c.
Proof.
  destruct c as [[] [] [] [] [] [] [] []]; vm_compute; reflexivity.
Qed.

Lemma lower_upper (s : str) : Str.lower (Str.upper s) = Str.lower s.
Proof.
  unfold Str.lower, Str.upper. rewrite map_map. apply map_ext.
  apply lower_upper_char.
Qed.

Lemma lower_lower (s : str) : Str.lower (Str.lower s) = Str.lower s.
Proof.
  unfold Str.lower. rewrite map_map. apply map_ext. apply lower_lower_char.
Qed.

(** X17. Tone, clichés and tropes are read off the lowered text only:
    putting a text in upper case, or in lower case, changes none of the
    three reports. *)
Theorem detection_ignores_case (text : str) :
  (_analyze_tone (Str.upper text) = _analyze_tone text /\
   _detect_cliches (Str.upper text) = _detect_cliches text /\
   _detect_tropes (Str.upper text) = _detect_tropes text) /\
  (_analyze_tone (Str.lower text) = _analyze_tone text /\
   _detect_cliches (Str.lower text) = _detect_cliches text /\
   _detect_tropes (Str.lower text) = _detect_tropes text).
Proof.
  unfold _analyze_tone, analyze_tone_with, _detect_cliches, _detect_tropes.
  rewrite lower_upper, lower_lower. repeat split; reflexivity.
Qed.

(** ** Characters a substitution can produce *)

Section SubFacts.
Variable ci : bool.
Variable r : Re.regex.

Lemma scan_keep_in (s : str) :
  forall k prev c,
    In (Re.Keep c) (Re.scan_from ci r k prev s) -> In c s.
Proof.
  induction s as [|a s IH]; intros k prev c H; [destruct H|].
  cbn [Re.scan_from] in H. destruct k as [|k].
  - destruct (Re.match_here ci r prev (a :: s)) as [[[|x m] rest]|].
    + destruct H as [[= <-] | H]; [left; reflexivity | right; eauto].
    + destruct H as [H | H]; [discriminate | right; eauto].
    + destruct H as [[= <-] | H]; [left; reflexivity | right; eauto].
  - right. eauto.
Qed.

Lemma sub_forall (P : ascii -> Prop) (repl : str -> str) (s : str) :
  Forall P s ->
  (forall m, Forall P (repl m)) ->
  Forall P (Re.sub ci r repl s).
Proof.
  intros Hs Hrepl. unfold Re.sub, Re.scan.
  rewrite Forall_forall in Hs.
  apply Forall_forall. intros c Hc.
  apply in_flat_map in Hc as ([a|m] & Hg & Hc).
  - destruct Hc as [<- | []]. apply Hs. eapply scan_keep_in. exact Hg.
  - specialize (Hrepl m). rewrite Forall_forall in Hrepl. auto.
Qed.

End SubFacts.

Lemma lstrip_in (f : ascii -> bool) (s : str) (c : ascii) :
  In c (Str.lstrip_by f s) -> In c s.
Proof.
  induction s as [|a s IH]; [intros []|]. simpl.
  destruct (f a); [right; auto | auto].
Qed.

Lemma strip_forall (P : ascii -> Prop) (s : str) :
  Forall P s -> Forall P (Str.strip s).
Proof.
  intros H. rewrite Forall_forall in H. apply Forall_forall. intros c Hc.
  unfold Str.strip, Str.rstrip_by in Hc.
  apply in_rev, lstrip_in in Hc. apply in_rev in Hc.
  apply lstrip_in in Hc. auto.
Qed.

(** Where [cls+] is replaced, no character of the class is kept. *)
Lemma plus_keeps_none (cls : ascii -> bool) (s : str) :
  forall k prev c,
    In (Re.Keep c) (Re.scan_from false [Re.Rep 1 cls] k prev s) ->
    cls c = false.
Proof.
  induction s as [|a s IH]; intros k prev c H; [destruct H|].
  cbn [Re.scan_from] in H. destruct k as [|k]; [|eauto].
  rewrite match_plus in H. cbn [Re.run] in H.
  destruct (cls a) eqn:E.
  - simpl in H. destruct H as [H | H]; [discriminate | eauto].
  - destruct H as [[= <-] | H]; [exact E | eauto].
Qed.

(** X18. The result of [_reduce_emotional_intensity] holds no exclamation
    mark: every run of them has become a full stop and no later step brings
    one back. *)
Theorem reduced_text_has_no_exclamation (text : str) :
  existsb is_bang (_reduce_emotional_intensity text) = false.
Proof.
  unfold _reduce_emotional_intensity.
  assert (H : Forall (fun c => is_bang c = false)
                (Str.strip
                   (Re.sub false [Re.Lit ".."; Re.Rep 1 is_dot] (fun _ => txt ".")
                      (Re.sub false [Re.Rep 1 is_bang] (fun _ => txt ".")
                         (Re.sub true
                            [Re.WordB;
                             Re.Alt (strs ["absolutely"; "completely"; "utterly";
                                           "totally"; "damn"; "really"; "very"]);
                             Re.Rep 1 Str.is_space]
                            (fun _ => []) text))))).
  { apply strip_forall. apply sub_forall.
    - unfold Re.sub, Re.scan. apply Forall_forall. intros c Hc.
      apply in_flat_map in Hc as ([a|m] & Hg & Hc).
      + destruct Hc as [<- | []]. eapply plus_keeps_none. exact Hg.
      + destruct Hc as [<- | []]. reflexivity.
    - intros m. repeat constructor. }
  rewrite Forall_forall in H.
  destruct (existsb is_bang _) eqn:E; [|reflexivity].
  apply existsb_exists in E as (c & Hc & Hb).
  rewrite (H c Hc) in Hb. discriminate.
Qed.

(** * The tones of a summary *)

Lemma descending_cons (a : nat) (l : list nat) :
  descending (a :: l) = true ->
  descending l = true /\ (forall b l', l = b :: l' -> b <= a).
Proof.
  destruct l as [|b l]; simpl.
  - split; [reflexivity | discriminate].
  - intros H. apply andb_true_iff in H as [H1 H2]. apply Nat.leb_le in H1.
    split; [exact H2|]. intros b' l' [= <- <-]. exact H1.
Qed.

Lemma descending_step (a b : nat) (l : list nat) :
  descending (a :: b :: l) = (b <=? a) && descending (b :: l).
Proof. reflexivity. Qed.

Lemma insert_by_count_bound (e : str * nat) :
  forall l a,
    descending (a :: map snd l) = true ->
    snd e <= a ->
    descending (a :: map snd (insert_by_count e l)) = true.
Proof.
  induction l as [|e' l IH]; intros a Hd He.
  - cbn [insert_by_count map]. rewrite descending_step.
    apply andb_true_iff. split; [apply Nat.leb_le; exact He | reflexivity].
  - cbn [map] in Hd. rewrite descending_step in Hd.
    apply andb_true_iff in Hd as [H1 H2].
    cbn [insert_by_count]. destruct (snd e' <=? snd e) eqn:E.
    + cbn [map]. rewrite !descending_step, E, H2, andb_true_r.
      apply Nat.leb_le. exact He.
    + apply Nat.leb_gt in E. cbn [map]. rewrite descending_step, H1.
      apply IH; [exact H2 | lia].
Qed.

Lemma insert_by_count_sorted (e : str * nat) (l : Dict.t nat) :
  descending (map snd l) = true ->
  descending (map snd (insert_by_count e l)) = true.
Proof.
  destruct l as [|e' l]; intros Hd; [reflexivity|].
  cbn [insert_by_count]. destruct (snd e' <=? snd e) eqn:E.
  - cbn [map] in Hd |- *. rewrite descending_step, E. exact Hd.
  - apply Nat.leb_gt in E. cbn [map].
    apply insert_by_count_bound; [exact Hd | lia].
Qed.

Lemma insert_by_count_in (e x : str * nat) (l : Dict.t nat) :
  In x (insert_by_count e l) -> x = e \/ In x l.
Proof.
  induction l as [|e' l IH]; simpl; [intros [<- | []]; auto|].
  destruct (snd e' <=? snd e); simpl.
  - intros [<- | [<- | H]]; auto.
  - intros [<- | H]; auto. destruct (IH H); auto.
Qed.

Lemma sorted_by_count (l : Dict.t nat) :
  descending (map snd (fold_right insert_by_count [] l)) = true /\
  (forall x, In x (fold_right insert_by_count [] l) -> In x l).
Proof.
  induction l as [|e l [IH1 IH2]]; [split; [reflexivity | auto]|].
  cbn [fold_right]. split.
  - apply insert_by_count_sorted. exact IH1.
  - intros x Hx. apply insert_by_count_in in Hx as [-> | Hx];
      [left; reflexivity | right; auto].
Qed.

Lemma descending_firstn (n : nat) :
  forall l, descending l = true -> descending (firstn n l) = true.
Proof.
  induction n as [|n IH]; intros l H; [reflexivity|].
  destruct l as [|a l]; [reflexivity|].
  destruct (descending_cons a l H) as [Hl Hb].
  cbn [firstn]. specialize (IH l Hl).
  destruct n as [|n]; [reflexivity|].
  destruct l as [|b l]; [reflexivity|].
  cbn [firstn] in IH |- *.
  rewrite descending_step, IH, andb_true_r.
  apply Nat.leb_le. apply (Hb b l eq_refl).
Qed.

Lemma firstn_in (A : Type) (n : nat) (l : list A) (x : A) :
  In x (firstn n l) -> In x l.
Proof.
  revert l. induction n as [|n IH]; intros l H; [destruct H|].
  destruct l as [|a l]; [destruct H|].
  destruct H as [<- | H]; [left; reflexivity | right; auto].
Qed.

Lemma dict_set_forall (V : Type) (P : str * V -> Prop) (k : str) (v : V)
  (d : Dict.t V) :
  P (k, v) -> Forall P d -> Forall P (Dict.set k v d).
Proof.
  intros Hk. induction d as [|[k' v'] d IH]; intros Hd; simpl.
  - constructor; [exact Hk | constructor].
  - inversion Hd as [|? ? H1 H2]; subst.
    destruct (Str.eqb k k') eqn:E.
    + apply str_eqb_eq in E. subst k'. constructor; assumption.
    + constructor; auto.
Qed.

Lemma counter_entries (all : list str) (xs : list str) :
  incl xs all ->
  forall d,
    Forall (fun e => 1 <= snd e /\ In (fst e) all) d ->
    Forall (fun e => 1 <= snd e /\ In (fst e) all)
      (fold_left
         (fun d x =>
            Dict.set x (match Dict.get x d with Some n => n | None => 0 end + 1) d)
         xs d).
Proof.
  induction xs as [|x xs IH]; intros Hincl d Hd; [exact Hd|].
  cbn [fold_left]. apply IH.
  - intros y Hy. apply Hincl. right. exact Hy.
  - apply dict_set_forall; [|exact Hd]. simpl. split; [lia|].
    apply Hincl. left. reflexivity.
Qed.

Lemma most_common_sound (n : nat) (xs : list str) :
  length (most_common n xs) <= n /\
  descending (map snd (most_common n xs)) = true /\
  Forall (fun e => 1 <= snd e /\ In (fst e) xs) (most_common n xs).
Proof.
  unfold most_common.
  destruct (sorted_by_count (counter xs)) as [Hs Hin].
  split; [rewrite length_firstn; lia|]. split.
  - rewrite <- firstn_map. apply descending_firstn. exact Hs.
  - apply Forall_forall. intros e He.
    apply firstn_in, Hin in He.
    pose proof (counter_entries xs xs (incl_refl _) [] (Forall_nil _)) as Hc.
    rewrite Forall_forall in Hc. apply Hc. exact He.
Qed.

(** X19. The summary of a registered character is a value carrying the
    character's name and count; its common tones are at most three, listed
    by non-increasing number of lines, each the tone of at least one of the
    speaker's recorded lines. *)
Theorem summary_of_a_registered_character
  (self : DialogueComposer) (sp : str) (c : Character) :
  Dict.get sp (characters self) = Some c ->
  exists summary,
    get_character_voice_summary self sp = Value summary /\
    summary_name summary = name c /\
    summary_dialogue_count summary = dialogue_count c /\
    length (common_tones summary) <= 3 /\
    descending (map snd (common_tones summary)) = true /\
    Forall (fun e =>
              1 <= snd e /\
              In (fst e)
                (map emotional_tone (lines_of sp (dialogue_history self))))
      (common_tones summary).
Proof.
  intros H. unfold get_character_voice_summary. rewrite H.
  eexists. split; [reflexivity|]. simpl.
  split; [reflexivity|]. split; [reflexivity|].
  apply (most_common_sound 3).
Qed.

Lemma summary_of_a_registered_character_witness :
  exists c summary,
    Dict.get "A" (characters one_line_session) = Some c /\
    get_character_voice_summary one_line_session "A" = Value summary /\
    summary_name summary = name c /\
    summary_dialogue_count summary = dialogue_count c /\
    length (common_tones summary) <= 3 /\
    descending (map snd (common_tones summary)) = true /\
    Forall (fun e =>
              1 <= snd e /\
              In (fst e)
                (map emotional_tone
                   (lines_of "A" (dialogue_history one_line_session))))
      (common_tones summary).
Proof.
  eexists.
  assert (H : Dict.get "A" (characters one_line_session) = Some _)
    by (vm_compute; reflexivity).
  destruct (summary_of_a_registered_character one_line_session "A" _ H)
    as (summary & Hs).
  exists summary. split; [exact H | exact Hs].
Defined.

(** * The advice of an analysis *)

Lemma Qltb_true_iff (a b : Q) : Qltb a b = true <-> (a < b)%Q.
Proof.
  unfold Qltb. destruct (Qlt_le_dec a b) as [H | H]; split; auto.
  - discriminate.
  - intros Hlt. exfalso. apply (Qlt_not_le _ _ Hlt). exact H.
Qed.

Lemma tone_mismatch_condition (tone : str) (tension : Z) :
  negb (Str.eqb tone "neutral") && (7 <? tension)%Z
  && (Str.eqb tone "happy" || Str.eqb tone "romantic") = true
  <-> (7 < tension)%Z /\ (tone = txt "happy" \/ tone = txt "romantic").
Proof.
  rewrite !andb_true_iff, orb_true_iff, !str_eqb_eq, Z.ltb_lt, negb_true_iff.
  split.
  - intros [[_ Ht] Hc]. auto.
  - intros [Ht Hc]. repeat split; auto.
    destruct Hc as [-> | ->]; reflexivity.
Qed.

Lemma generate_suggestions_members (self : DialogueComposer) (an : Analysis) :
  (In ToneMismatch (_generate_suggestions self an) <->
   exists scene,
     scene_context self = Some scene /\ (7 < tension_level scene)%Z /\
     (analysis_emotional_tone an = txt "happy" \/
      analysis_emotional_tone an = txt "romantic")) /\
  (forall k,
     In (ClichesFound k) (_generate_suggestions self an) <->
     1 <= k /\ k = length (cliches_detected an)) /\
  (In AlternativesProvided (_generate_suggestions self an) <->
   dialogue_alternatives an <> []) /\
  (In PacingCouldImprove (_generate_suggestions self an) <->
   (pacing_score (pacing_analysis an) < 4 # 10)%Q).
Proof.
  unfold _generate_suggestions.
  assert (Hc : forall x,
             In x (match cliches_detected an with
                   | [] => []
                   | l => [ClichesFound (length l)]
                   end) <->
             1 <= length (cliches_detected an) /\
             x = ClichesFound (length (cliches_detected an))).
  { intros x. destruct (cliches_detected an); simpl.
    - split; [intros [] | intros [H _]; lia].
    - split; [intros [<- | []]; split; [lia | reflexivity]
             | intros [_ ->]; left; reflexivity]. }
  assert (Ha : forall x,
             In x (match dialogue_alternatives an with
                   | [] => []
                   | _ :: _ => [AlternativesProvided]
                   end) <->
             dialogue_alternatives an <> [] /\ x = AlternativesProvided).
  { intros x. destruct (dialogue_alternatives an); simpl.
    - split; [intros [] | intros [H _]; congruence].
    - split; [intros [<- | []]; split; [discriminate | reflexivity]
             | intros [_ ->]; left; reflexivity]. }
  assert (Hp : forall x,
             In x (if Qltb (pacing_score (pacing_analysis an)) (4 # 10)
                   then [PacingCouldImprove] else []) <->
             (pacing_score (pacing_analysis an) < 4 # 10)%Q /\
             x = PacingCouldImprove).
  { intros x. rewrite <- Qltb_true_iff.
    destruct (Qltb (pacing_score (pacing_analysis an)) (4 # 10)); simpl.
    - split; [intros [<- | []]; auto | intros [_ ->]; left; reflexivity].
    - split; [intros [] | intros [H _]; discriminate]. }
  assert (Ht : forall x,
             In x (match scene_context self with
                   | Some scene =>
                       if negb (Str.eqb (analysis_emotional_tone an) "neutral")
                          && (7 <? tension_level scene)%Z
                          && (Str.eqb (analysis_emotional_tone an) "happy"
                              || Str.eqb (analysis_emotional_tone an) "romantic")
                       then [ToneMismatch] else []
                   | None => []
                   end) <->
             (exists scene,
                scene_context self = Some scene /\ (7 < tension_level scene)%Z /\
                (analysis_emotional_tone an = txt "happy" \/
                 analysis_emotional_tone an = txt "romantic")) /\
             x = ToneMismatch).
  { intros x. destruct (scene_context self) as [scene|].
    - pose proof (tone_mismatch_condition (analysis_emotional_tone an)
                    (tension_level scene)) as Hcond.
      destruct (negb (Str.eqb (analysis_emotional_tone an) "neutral")
                && (7 <? tension_level scene)%Z
                && (Str.eqb (analysis_emotional_tone an) "happy"
                    || Str.eqb (analysis_emotional_tone an) "romantic")); simpl.
      + split.
        * intros [<- | []]. split; [|reflexivity].
          exists scene. split; [reflexivity | apply Hcond; reflexivity].
        * intros [_ ->]. left. reflexivity.
      + split; [intros []|].
        intros [(scene' & [= <-] & H) _].
        apply Hcond in H. discriminate.
    - simpl. split; [intros [] | intros [(scene & H & _) _]; discriminate]. }
  split; [|split; [|split]].
  - rewrite !in_app_iff, Hc, Ha, Hp, Ht. split.
    + intros [[_ H] | [[_ H] | [[_ H] | [H _]]]]; try discriminate. exact H.
    + intros H. right. right. right. split; [exact H | reflexivity].
  - intros k. rewrite !in_app_iff, Hc, Ha, Hp, Ht. split.
    + intros [[H1 H2] | [[_ H] | [[_ H] | [_ H]]]]; try discriminate.
      injection H2 as ->. split; [exact H1 | reflexivity].
    + intros [H1 ->]. left. split; [exact H1 | reflexivity].
  - rewrite !in_app_iff, Hc, Ha, Hp, Ht. split.
    + intros [[_ H] | [[H _] | [[_ H] | [_ H]]]]; try discriminate. exact H.
    + intros H. right. left. split; [exact H | reflexivity].
  - rewrite !in_app_iff, Hc, Ha, Hp, Ht. split.
    + intros [[_ H] | [[_ H] | [[H _] | [_ H]]]]; try discriminate. exact H.
    + intros H. right. right. left. split; [exact H | reflexivity].
Qed.

(** X20. What the suggestions of an analysed line say: the tone-mismatch
    advice is given exactly when a scene is set, its tension is above 7 and
    the tone of the line is "happy" or "romantic"; the cliché note is given
    exactly when clichés were reported, with their number; the note on
    alternatives exactly when alternatives were generated. (The pacing note
    hangs on a floating-point comparison with 0.4 and is left out.) *)
Theorem suggestions_follow_the_analysis
  (self : DialogueComposer) (sp text cx : str) (w : World) :
  let a := fst (fst (analyze_dialogue_line self sp text cx w)) in
  (In ToneMismatch (suggestions a) <->
   exists scene,
     scene_context self = Some scene /\ (7 < tension_level scene)%Z /\
     (_analyze_tone text = txt "happy" \/ _analyze_tone text = txt "romantic")) /\
  (forall k,
     In (ClichesFound k) (suggestions a) <->
     1 <= k /\ k = length (_detect_cliches text)) /\
  (In AlternativesProvided (suggestions a) <-> dialogue_alternatives a <> []).
Proof.
  intros a. subst a. unfold analyze_dialogue_line, bind.
  destruct (generate_dialogue_alternatives self sp text 5 w) as [alts w1].
  cbn [fst snd ret now_isoformat suggestions dialogue_alternatives
       analysis_speaker analysis_text word_count sentence_count
       cliches_detected tropes_detected analysis_emotional_tone
       character_consistency pacing_analysis].
  unfold ret. cbn [fst suggestions dialogue_alternatives].
  match goal with
  | |- context [_generate_suggestions self ?an] =>
      destruct (generate_suggestions_members self an) as (H1 & H2 & H3 & _)
  end.
  split; [exact H1|]. split; [exact H2 | exact H3].
Qed.

(** * The layout of an improved version *)

Lemma run_stops (cls : ascii -> bool) (s : str) :
  match skipn (Re.run cls s) s with
  | c :: _ => cls c = false
  | [] => True
  end.
Proof.
  induction s as [|a s IH]; simpl; [exact I|].
  destruct (cls a) eqn:E; simpl; [exact IH | exact E].
Qed.

(** Replacing each run of whitespace by one space leaves single spaces. *)
Lemma collapse_single_spaced (n : nat) :
  forall s prev b,
    length s <= n ->
    (b = true -> is_space_head s = false) ->
    single_spaced b
      (flat_map (fun g => match g with
                          | Re.Keep c => [c]
                          | Re.Hit _ => txt " "
                          end)
         (Re.scan_from false [Re.Rep 1 Str.is_space] 0 prev s)) = true.
Proof.
  induction n as [|n IH]; intros s prev b Hlen Hb.
  - destruct s; [reflexivity | simpl in Hlen; lia].
  - destruct s as [|c s]; [reflexivity|]. simpl in Hlen.
    pose proof (match_plus Str.is_space prev (c :: s)) as Hm.
    simpl Re.run in Hm. destruct (Str.is_space c) eqn:E.
    + pose proof (run_le Str.is_space s) as Hrun.
      assert (Hl : length (firstn (S (Re.run Str.is_space s)) (c :: s) ++ []) - 1
                   = Re.run Str.is_space s).
      { rewrite length_app, length_firstn. simpl length. lia. }
      erewrite scan_hit; [|exact Hm | simpl; discriminate].
      rewrite Hl. cbn [flat_map txt list_ascii_of_string app single_spaced].
      replace (Str.is_space " ") with true by reflexivity.
      destruct b; [specialize (Hb eq_refl); simpl in Hb; congruence|].
      simpl negb. simpl andb.
      apply IH; [rewrite length_skipn; lia|].
      intros _. pose proof (run_stops Str.is_space s) as Hs.
      destruct (skipn (Re.run Str.is_space s) s); [reflexivity | exact Hs].
    + rewrite scan_keep by exact Hm.
      cbn [flat_map app single_spaced]. rewrite E.
      apply IH; [lia | discriminate].
Qed.

Lemma lstrip_single_spaced (s : str) :
  forall b,
    single_spaced b s = true ->
    single_spaced true (Str.lstrip_by Str.is_space s) = true.
Proof.
  induction s as [|c s IH]; intros b H; [reflexivity|].
  cbn [Str.lstrip_by single_spaced] in H |- *.
  destruct (Str.is_space c) eqn:E.
  - apply andb_true_iff in H as [_ H]. apply (IH true H).
  - cbn [single_spaced]. rewrite E. exact H.
Qed.

Lemma lstrip_head (s : str) :
  is_space_head (Str.lstrip_by Str.is_space s) = false.
Proof.
  induction s as [|c s IH]; [reflexivity|]. simpl.
  destruct (Str.is_space c) eqn:E; [exact IH | simpl; exact E].
Qed.

Lemma lstrip_suffix (f : ascii -> bool) (s : str) :
  exists dropped, s = dropped ++ Str.lstrip_by f s.
Proof.
  induction s as [|c s [d IH]]; [exists []; reflexivity|]. simpl.
  destruct (f c).
  - exists (c :: d). simpl. rewrite <- IH. reflexivity.
  - exists []. reflexivity.
Qed.

Lemma single_spaced_prefix (p q : str) :
  forall b, single_spaced b (p ++ q) = true -> single_spaced b p = true.
Proof.
  induction p as [|c p IH]; intros b H; [reflexivity|].
  cbn [app single_spaced] in H |- *.
  destruct (Str.is_space c).
  - apply andb_true_iff in H as [H1 H2]. rewrite H1. apply (IH true H2).
  - apply (IH false H).
Qed.

Lemma strip_tidy (s : str) (b : bool) :
  single_spaced b s = true -> tidy (Str.strip s) = true.
Proof.
  intros H. unfold tidy, Str.strip, Str.rstrip_by.
  apply lstrip_single_spaced in H.
  set (r := Str.lstrip_by Str.is_space s) in *.
  rewrite rev_involutive, lstrip_head, andb_true_r.
  destruct (lstrip_suffix Str.is_space (rev r)) as [d Hd].
  apply (single_spaced_prefix _ (rev d)).
  rewrite <- rev_app_distr, <- Hd, rev_involutive. exact H.
Qed.

Lemma clean_up_tidy (s : str) : tidy (clean_up s) = true.
Proof.
  unfold clean_up, Re.sub at 1, Re.scan.
  apply (strip_tidy _ false).
  eapply collapse_single_spaced; [apply Nat.le_refl | discriminate].
Qed.

(** X21. Every improved version returned by [suggest_improved_dialogue] is
    laid out cleanly: no whitespace at either end, and between words only
    single spaces (no tab, no newline, no run of whitespace). *)
Theorem improved_versions_are_tidy
  (self : DialogueComposer) (sp text : str) (w : World) :
  forallb tidy
    (improved_versions (fst (suggest_improved_dialogue self sp text w))) = true.
Proof.
  unfold suggest_improved_dialogue, bind.
  destruct (generate_dialogue_alternatives self sp text 5 w) as [alts w1].
  cbn [fst ret]. unfold ret. cbn [fst improved_versions].
  destruct alts as [|alt alts]; [reflexivity|].
  apply forallb_forall. intros v Hv.
  apply in_map_iff in Hv as (k & <- & _).
  unfold improved_version. apply clean_up_tidy.
Qed.

(** * Sampling without replacement *)

Lemma firstn_snoc (m : nat) (l : list str) :
  m < length l -> firstn (S m) l = firstn m l ++ [nth m l []].
Proof.
  revert l. induction m as [|m IH]; intros [|y l] H; simpl in H; try lia.
  - reflexivity.
  - cbn [firstn nth app]. rewrite <- IH by lia. reflexivity.
Qed.

(** One pick: the picked element and the live part of the new pool make up
    the live part of the old pool. *)
Lemma pick_perm (pool : list str) :
  forall j m,
    j <= m -> m < length pool ->
    Permutation
      (nth j pool [] :: firstn m (Random.set_nth j (nth m pool []) pool))
      (firstn (S m) pool).
Proof.
  induction pool as [|y ys IH]; intros j m Hj Hm; simpl in Hm; [lia|].
  destruct j as [|j].
  - cbn [Random.set_nth nth]. destruct m as [|m].
    + reflexivity.
    + change (Permutation (y :: nth m ys [] :: firstn m ys)
                (y :: firstn (S m) ys)).
      apply perm_skip.
      rewrite (firstn_snoc m ys) by lia. apply Permutation_cons_append.
  - destruct m as [|m]; [lia|].
    change (Permutation
              (nth j ys [] :: y :: firstn m (Random.set_nth j (nth m ys []) ys))
              (y :: firstn (S m) ys)).
    eapply perm_trans; [apply perm_swap|]. apply perm_skip.
    apply IH; lia.
Qed.

Lemma sample_from_perm (k : nat) :
  forall pool n w,
    k <= n -> n <= length pool -> NoDup (firstn n pool) ->
    NoDup (fst (Random.sample_from pool n k w)) /\
    incl (fst (Random.sample_from pool n k w)) (firstn n pool) /\
    (k = n -> Permutation (fst (Random.sample_from pool n k w)) (firstn n pool)).
Proof.
  induction k as [|k IH]; intros pool n w Hk Hn Hnd.
  - cbn [Random.sample_from ret fst]. unfold ret. cbn [fst].
    split; [constructor|]. split; [intros x []|].
    intros <-. reflexivity.
  - cbn [Random.sample_from]. unfold bind.
    pose proof (randbelow_below n w ltac:(lia)) as Hj.
    destruct (Random.randbelow n w) as [j w1]. cbn [fst] in Hj.
    destruct n as [|m]; [lia|].
    replace (S m - 1) with m by lia.
    pose proof (pick_perm pool j m ltac:(lia) ltac:(lia)) as HP.
    set (pool' := Random.set_nth j (nth m pool []) pool) in *.
    assert (Hnd' : NoDup (nth j pool [] :: firstn m pool')).
    { eapply Permutation_NoDup; [apply Permutation_sym; exact HP | exact Hnd]. }
    inversion Hnd' as [|? ? Hx Hrest]; subst.
    specialize (IH pool' m w1 ltac:(lia)
                  ltac:(unfold pool'; rewrite set_nth_length; lia) Hrest).
    destruct (Random.sample_from pool' m k w1) as [rest w2].
    cbn [fst ret] in *. unfold ret. cbn [fst].
    destruct IH as (Hr & Hi & Hp).
    split; [|split].
    + constructor; [|exact Hr]. intros Hin. apply Hx. apply Hi. exact Hin.
    + intros z [<- | Hz].
      * eapply Permutation_in; [exact HP | left; reflexivity].
      * eapply Permutation_in; [exact HP | right; apply Hi; exact Hz].
    + intros E. eapply perm_trans; [|exact HP]. apply perm_skip.
      apply Hp. lia.
Qed.

Lemma sample_distinct (population : list str) (k : nat) (w : World) :
  k <= length population -> NoDup population ->
  NoDup (fst (Random.sample population k w)) /\
  (k = length population ->
   Permutation (fst (Random.sample population k w)) population).
Proof.
  intros Hk Hnd. unfold Random.sample.
  destruct (sample_from_perm k population (length population) w Hk
              (Nat.le_refl _)) as (H1 & _ & H3).
  - rewrite firstn_all. exact Hnd.
  - split; [exact H1|]. intros E. rewrite firstn_all in H3. apply H3. exact E.
Qed.

Lemma nodupb_NoDup (l : list str) : nodupb l = true -> NoDup l.
Proof.
  induction l as [|x l IH]; simpl; [constructor|].
  rewrite andb_true_iff, negb_true_iff. intros [Hx Hl].
  constructor; [|apply IH; exact Hl].
  intros Hin. assert (E : existsb (Str.eqb x) l = true).
  { apply existsb_exists. exists x. split; [exact Hin | apply str_eqb_refl]. }
  congruence.
Qed.

Lemma library_entries_distinct (pattern : str) (base : list str) :
  Dict.get pattern _load_cliche_alternatives = Some base -> NoDup base.
Proof.
  intros H. apply dict_get_in in H.
  assert (Hall : forallb nodupb (map snd _load_cliche_alternatives) = true)
    by (vm_compute; reflexivity).
  rewrite forallb_forall in Hall. apply nodupb_NoDup. apply Hall. exact H.
Qed.

Lemma alternatives_for_distinct (self : DialogueComposer) (sp text : str)
  (n : nat) (all : list (str * str)) (detected : list (str * str)) :
  incl detected all ->
  forall w,
    Forall (fun alt =>
              NoDup (alternatives alt) /\
              (5 <= n -> alternative_complete all alt))
      (fst (alternatives_for self sp text n detected w)).
Proof.
  induction detected as [|[phrase pattern] detected IH]; intros Hincl w;
    [constructor|].
  assert (Hincl' : incl detected all) by (intros x Hx; apply Hincl; right; exact Hx).
  cbn [alternatives_for].
  destruct (Dict.get pattern _load_cliche_alternatives) as [[|a base]|] eqn:E;
    try (apply IH; exact Hincl').
  unfold bind.
  pose proof (library_entries_have_five _ _ E) as Hfive.
  pose proof (sample_distinct (a :: base) (Nat.min n (length (a :: base))) w
                (Nat.le_min_r _ _) (library_entries_distinct _ _ E)) as [Hnd Hp].
  destruct (Random.sample (a :: base) (Nat.min n (length (a :: base))) w)
    as [selected w1].
  destruct (_adapt_to_character_voice self sp selected text w1) as [adapted w2].
  specialize (IH Hincl' w2).
  destruct (alternatives_for self sp text n detected w2) as [rest w3].
  cbn [fst ret] in *. unfold ret. cbn [fst].
  constructor; [|exact IH].
  cbn [alternatives]. split; [exact Hnd|].
  intros Hn. exists pattern, (a :: base). cbn [original_phrase alternatives].
  split; [apply Hincl; left; reflexivity|]. split; [exact E|].
  apply Hp. rewrite Hfive. lia.
Qed.

(** X22. The phrases of an alternative are drawn without replacement: no
    phrase is offered twice, whatever the number asked for and whatever the
    draws; with the five asked for by [analyze_dialogue_line] and
    [suggest_improved_dialogue] the phrases are the whole table entry of
    the detected pattern, in some order. *)
Theorem alternatives_without_repetition
  (self : DialogueComposer) (sp text cx : str) (n : nat) (w : World) :
  Forall (fun alt => NoDup (alternatives alt))
    (fst (generate_dialogue_alternatives self sp text n w)) /\
  Forall (alternative_complete (detected_cliches text))
    (dialogue_alternatives (fst (fst (analyze_dialogue_line self sp text cx w))))
  /\
  Forall (alternative_complete (detected_cliches text))
    (cliche_alternatives (fst (suggest_improved_dialogue self sp text w))).
Proof.
  split; [|split].
  - eapply Forall_impl;
      [|apply (alternatives_for_distinct self sp text n (detected_cliches text)
                 (detected_cliches text) (incl_refl _) w)].
    intros alt [H _]. exact H.
  - unfold analyze_dialogue_line, bind.
    pose proof (alternatives_for_distinct self sp text 5 (detected_cliches text)
                  (detected_cliches text) (incl_refl _) w) as H.
    fold (generate_dialogue_alternatives self sp text 5) in H.
    destruct (generate_dialogue_alternatives self sp text 5 w) as [alts w1].
    cbn [fst snd ret now_isoformat dialogue_alternatives]. unfold ret.
    cbn [fst dialogue_alternatives].
    eapply Forall_impl; [|exact H]. intros alt [_ Hc]. apply Hc. lia.
  - unfold suggest_improved_dialogue, bind.
    pose proof (alternatives_for_distinct self sp text 5 (detected_cliches text)
                  (detected_cliches text) (incl_refl _) w) as H.
    fold (generate_dialogue_alternatives self sp text 5) in H.
    destruct (generate_dialogue_alternatives self sp text 5 w) as [alts w1].
    cbn [fst ret cliche_alternatives]. unfold ret. cbn [fst cliche_alternatives].
    eapply Forall_impl; [|exact H]. intros alt [_ Hc]. apply Hc. lia.
Qed.

(** * Transforms that only remove *)

Lemma strip_lit_split (ci : bool) (l : str) :
  forall s m rest, Re.strip_lit ci l s = Some (m, rest) -> m ++ rest = s.
Proof.
  induction l as [|a l IH]; intros s m rest H.
  - simpl in H. injection H as <- <-. reflexivity.
  - destruct s as [|c s]; [discriminate|]. cbn [Re.strip_lit] in H.
    destruct (Re.char_eq ci a c); [|discriminate].
    destruct (Re.strip_lit ci l s) as [[m' r']|] eqn:E; [|discriminate].
    injection H as <- <-. simpl. f_equal. apply IH. exact E.
Qed.

Lemma first_of_some (A B : Type) (k : A -> option B) (xs : list A) (r : B) :
  Re.first_of k xs = Some r -> exists x, In x xs /\ k x = Some r.
Proof.
  induction xs as [|x xs IH]; simpl; [discriminate|].
  destruct (k x) as [r'|] eqn:E.
  - intros [= <-]. exists x. auto.
  - intros H. destruct (IH H) as (y & Hy & Hk). exists y. auto.
Qed.

(** A match is cut from the front of the text. *)
Lemma match_here_split (ci : bool) (r : Re.regex) :
  forall prev s m rest,
    Re.match_here ci r prev s = Some (m, rest) -> m ++ rest = s.
Proof.
  induction r as [|a r IH]; intros prev s m rest H.
  - simpl in H. injection H as <- <-. reflexivity.
  - assert (Hc : forall m0 rest0,
               m0 ++ rest0 = s ->
               match Re.match_here ci r (Re.prev_after prev m0) rest0 with
               | Some (m', rest') => Some (m0 ++ m', rest')
               | None => None
               end = Some (m, rest) ->
               m ++ rest = s).
    { intros m0 rest0 E Hm.
      destruct (Re.match_here ci r (Re.prev_after prev m0) rest0)
        as [[m' rest']|] eqn:E'; [|discriminate].
      injection Hm as <- <-. apply IH in E'.
      rewrite <- app_assoc, E'. exact E. }
    cbn [Re.match_here] in H. destruct a as [l|alts|min cls|c| | |].
    + destruct (Re.strip_lit ci l s) as [[m0 rest0]|] eqn:E; [|discriminate].
      eapply Hc; [eapply strip_lit_split; exact E | exact H].
    + apply first_of_some in H as (l & _ & H).
      destruct (Re.strip_lit ci l s) as [[m0 rest0]|] eqn:E; [|discriminate].
      eapply Hc; [eapply strip_lit_split; exact E | exact H].
    + apply first_of_some in H as (k & _ & H).
      eapply Hc; [apply firstn_skipn | exact H].
    + destruct s as [|c' s'].
      * eapply (Hc [] []); [reflexivity | exact H].
      * destruct (Re.char_eq ci c c').
        -- destruct (Re.match_here ci r (Re.prev_after prev [c']) s')
             as [[m' rest']|] eqn:E'.
           ++ eapply (Hc [c'] s'); [reflexivity|]. rewrite E'. exact H.
           ++ eapply (Hc [] (c' :: s')); [reflexivity | exact H].
        -- eapply (Hc [] (c' :: s')); [reflexivity | exact H].
    + destruct (Re.boundary prev s); [|discriminate].
      eapply (Hc [] s); [reflexivity | exact H].
    + destruct prev; [discriminate|].
      eapply (Hc [] s); [reflexivity | exact H].
    + destruct (Re.at_end s); [|discriminate].
      eapply (Hc [] s); [reflexivity | exact H].
Qed.

(** Where no replacement is longer than what it replaces, the text does
    not grow. *)
Lemma scan_length_le (ci : bool) (r : Re.regex) (repl : str -> str) :
  (forall m, m <> [] -> length (repl m) <= length m) ->
  forall s k prev,
    k <= length s ->
    length (flat_map (fun g => match g with
                               | Re.Keep c => [c]
                               | Re.Hit m => repl m
                               end)
              (Re.scan_from ci r k prev s)) + k <= length s.
Proof.
  intros Hrepl. induction s as [|c s IH]; intros k prev Hk.
  - simpl in Hk. destruct k; [simpl; lia | lia].
  - cbn [Re.scan_from]. destruct k as [|k].
    + destruct (Re.match_here ci r prev (c :: s)) as [[[|x m] rest]|] eqn:E.
      * cbn [flat_map]. rewrite length_app.
        specialize (IH 0 (Some c) ltac:(lia)). simpl in *. lia.
      * apply match_here_split in E.
        assert (Hm : length m <= length s).
        { apply (f_equal (@length ascii)) in E. simpl in E.
          rewrite length_app in E. lia. }
        cbn [flat_map]. rewrite length_app.
        replace (length (x :: m) - 1) with (length m) by (simpl; lia).
        specialize (IH (length m) (Some c) Hm).
        specialize (Hrepl (x :: m) ltac:(discriminate)). simpl in *. lia.
      * cbn [flat_map]. rewrite length_app.
        specialize (IH 0 (Some c) ltac:(lia)). simpl in *. lia.
    + specialize (IH k (Some c) ltac:(simpl in Hk; lia)). simpl in *. lia.
Qed.

Lemma sub_length_le (ci : bool) (r : Re.regex) (repl : str -> str) (s : str) :
  (forall m, m <> [] -> length (repl m) <= length m) ->
  length (Re.sub ci r repl s) <= length s.
Proof.
  intros H. unfold Re.sub, Re.scan.
  pose proof (scan_length_le ci r repl H s 0 None ltac:(lia)). lia.
Qed.

Lemma lstrip_length_le (f : ascii -> bool) (s : str) :
  length (Str.lstrip_by f s) <= length s.
Proof.
  induction s as [|c s IH]; simpl; [lia|].
  destruct (f c); simpl; lia.
Qed.

Lemma strip_length_le (s : str) : length (Str.strip s) <= length s.
Proof.
  unfold Str.strip, Str.rstrip_by. rewrite length_rev.
  etransitivity; [apply lstrip_length_le|]. rewrite length_rev.
  apply lstrip_length_le.
Qed.

Lemma removal_shorter (m : str) : m <> [] -> length (@nil ascii) <= length m.
Proof. intros _. simpl. lia. Qed.

Lemma full_stop_shorter (m : str) : m <> [] -> length (txt ".") <= length m.
Proof. destruct m; [congruence|]. intros _. simpl. lia. Qed.

Lemma space_shorter (m : str) : m <> [] -> length (txt " ") <= length m.
Proof. destruct m; [congruence|]. intros _. simpl. lia. Qed.

Lemma removals_length_le (patterns : list Re.regex) :
  forall text,
    length (fold_left
              (fun result pattern => Re.sub true pattern (fun _ => []) result)
              patterns text) <= length text.
Proof.
  induction patterns as [|p ps IH]; intros text; simpl; [lia|].
  etransitivity; [apply IH|]. apply sub_length_le. apply removal_shorter.
Qed.

(** X23. The two transforms that cut a voice down never lengthen a text:
    the result of [_make_more_terse] and the result of
    [_reduce_emotional_intensity] have at most as many characters as the
    text given. *)
Theorem terse_and_flat_never_lengthen (text : str) :
  length (_make_more_terse text) <= length text /\
  length (_reduce_emotional_intensity text) <= length text.
Proof.
  split.
  - unfold _make_more_terse.
    etransitivity; [apply sub_length_le; apply full_stop_shorter|].
    etransitivity; [apply strip_length_le|].
    etransitivity; [apply sub_length_le; apply space_shorter|].
    apply removals_length_le.
  - unfold _reduce_emotional_intensity.
    etransitivity; [apply strip_length_le|].
    etransitivity; [apply sub_length_le; apply full_stop_shorter|].
    etransitivity; [apply sub_length_le; apply full_stop_shorter|].
    apply sub_length_le. apply removal_shorter.
Qed.

(** * Voice drift *)

(** X24. A voice-drift warning needs a counted line: in every session
    reached from a new composer, the consistency check of an unregistered
    speaker reports a new character; for a registered speaker it gives at
    most one warning, and a warning only when the character has at least one
    counted line and a positive average sentence length. A character whose
    count is 0, as right after a registration, is never warned about. (How
    far the line's average must lie from the character's is a floating-point
    comparison with 3 and is left out.) *)
Theorem drift_warning_needs_a_counted_line
  (cs : list Call) (w : World) (sp text : str) :
  let self := fst (calls cs init w) in
  match _check_character_consistency self sp text with
  | NewCharacter => Dict.get sp (characters self) = None
  | Established warnings =>
      exists c,
        Dict.get sp (characters self) = Some c /\
        length warnings <= 1 /\
        (dialogue_count c = 0 -> warnings = []) /\
        (warnings = [] \/
         (1 <= dialogue_count c /\ (0 < avg_sentence_length c)%Q))
  end.
Proof.
  intros self.
  pose proof (calls_sound cs init w init_sound) as Hs. fold self in Hs.
  unfold _check_character_consistency.
  destruct (Dict.get sp (characters self)) as [c|] eqn:E; [|reflexivity].
  destruct (Hs sp c E) as (_ & _ & _ & Hzero).
  cbv zeta.
  destruct (Qltb 0 (avg_sentence_length c)) eqn:Ea.
  - assert (Hcount : 1 <= dialogue_count c).
    { destruct (dialogue_count c) as [|n] eqn:En; [|lia].
      rewrite (Hzero eq_refl) in Ea. discriminate. }
    apply Qltb_true_iff in Ea.
    match goal with
    | |- context [if ?b then _ else _] => destruct b
    end; cbv beta iota zeta; exists c; (split; [reflexivity|]);
      (split; [simpl; lia|]); (split; [lia|]); right; split; assumption.
  - cbv beta iota zeta.
    exists c. split; [reflexivity|]. split; [simpl; lia|].
    split; [reflexivity|]. left. reflexivity.
Qed.

(** * The pacing report *)

Lemma lstrip_content (s : str) :
  Str.has_content (Str.lstrip_by Str.is_space s) = Str.has_content s.
Proof.
  induction s as [|c s IH]; [reflexivity|]. simpl.
  destruct (Str.is_space c) eqn:E; simpl; [exact IH | rewrite E; reflexivity].
Qed.

Lemma content_rev (s : str) : Str.has_content (rev s) = Str.has_content s.
Proof.
  unfold Str.has_content. induction s as [|c s IH]; [reflexivity|].
  simpl. rewrite existsb_app, IH. simpl. rewrite orb_false_r. apply orb_comm.
Qed.

Lemma strip_content (s : str) : Str.has_content (Str.strip s) = Str.has_content s.
Proof.
  unfold Str.strip, Str.rstrip_by.
  rewrite content_rev, lstrip_content, content_rev. apply lstrip_content.
Qed.

Lemma nonempty_rev (cur : str) : cur <> [] -> Str.nonempty (rev cur) = true.
Proof.
  destruct cur as [|a cur]; [congruence|]. intros _. simpl.
  destruct (rev cur); reflexivity.
Qed.

Lemma pieces_content (s : str) :
  forall cur,
    cur <> [] \/ Str.has_content s = true ->
    1 <= length (filter Str.nonempty (Str.pieces Str.is_space cur s)).
Proof.
  induction s as [|c s IH]; intros cur H.
  - destruct H as [H | H]; [|discriminate].
    simpl. rewrite nonempty_rev by exact H. simpl. lia.
  - cbn [Str.pieces]. destruct (Str.is_space c) eqn:E.
    + cbn [filter]. destruct (Str.nonempty (rev cur)) eqn:En; [simpl; lia|].
      apply IH. right. destruct H as [H | H].
      * rewrite nonempty_rev in En by exact H. discriminate.
      * simpl in H. rewrite E in H. exact H.
    + apply IH. left. discriminate.
Qed.

(** A sentence holds at least one word. *)
Lemma sentence_words (text : str) :
  Forall (fun n => 1 <= n) (word_counts (sentences_of text)).
Proof.
  unfold word_counts, sentences_of. rewrite map_map. apply Forall_map.
  apply Forall_forall. intros s Hs. apply filter_In in Hs as [_ Hs].
  unfold Str.split. apply pieces_content. right.
  rewrite strip_content. exact Hs.
Qed.

Lemma sum_ge_length (l : list nat) :
  Forall (fun n => 1 <= n) l -> length l <= sum_nat l.
Proof.
  induction 1 as [|x l Hx _ IH]; simpl; [lia|]. unfold sum_nat in *. simpl. lia.
Qed.

Lemma mean_ge_one (l : list nat) :
  l <> [] -> Forall (fun n => 1 <= n) l -> (1 <= mean l)%Q.
Proof.
  intros Hne Hall. unfold mean.
  assert (Hlen : 1 <= length l) by (destruct l; [congruence | simpl; lia]).
  pose proof (Qnat_pos _ Hlen) as Hp.
  pose proof (Qnat_le _ _ (sum_ge_length l Hall)) as Hle.
  apply Qle_shift_div_l; [exact Hp | lra].
Qed.

(** X25. The pacing report of an analysed line: its sentence count is the
    sentence count of the analysis; the rhythm variety never exceeds the
    sentence count; a line without a sentence has average 0, variety 0 and
    score 1/2; a line with a sentence has an average of at least one word
    a sentence and a variety of at least 1. *)
Theorem pacing_report_shape
  (self : DialogueComposer) (sp text cx : str) (w : World) :
  let a := fst (fst (analyze_dialogue_line self sp text cx w)) in
  let p := pacing_analysis a in
  p = _analyze_pacing text /\
  sentence_count a = pacing_sentence_count p /\
  rhythm_variety p <= pacing_sentence_count p /\
  match pacing_sentence_count p with
  | 0 =>
      pacing_avg_sentence_length p = 0%Q /\ rhythm_variety p = 0 /\
      pacing_score p = (1 # 2)%Q
  | S _ =>
      (1 <= pacing_avg_sentence_length p)%Q /\ 1 <= rhythm_variety p
  end.
Proof.
  intros a p. subst p a. unfold analyze_dialogue_line, bind.
  destruct (generate_dialogue_alternatives self sp text 5 w) as [alts w1].
  cbn [fst snd ret now_isoformat pacing_analysis sentence_count].
  unfold ret. cbn [fst pacing_analysis sentence_count].
  split; [reflexivity|].
  unfold _analyze_pacing.
  cbn [pacing_sentence_count rhythm_variety pacing_avg_sentence_length
       pacing_score].
  split; [unfold sentences_of; rewrite length_map; reflexivity|].
  split.
  { etransitivity; [apply distinct_le|]. unfold word_counts.
    rewrite length_map. lia. }
  pose proof (sentence_words text) as Hw.
  unfold _calculate_pacing_score.
  destruct (sentences_of text) as [|s ss] eqn:E.
  - repeat split; reflexivity.
  - cbn [length]. split.
    + apply mean_ge_one; [discriminate | exact Hw].
    + apply distinct_pos. discriminate.
Qed.

(** * Guidance and adaptation *)



(** * The closing mark of a dramatic line *)

Lemma strip_lit_word (l : str) :
  forall s m rest,
    Re.strip_lit true l s = Some (m, rest) ->
    forallb Str.is_word l = true -> forallb Str.is_word m = true.
Proof.
  induction l as [|a l IH]; intros s m rest H Hl.
  - simpl in H. injection H as <- <-. reflexivity.
  - destruct s as [|c s]; [discriminate|]. cbn [Re.strip_lit] in H.
    destruct (Re.char_eq true a c) eqn:Ec; [|discriminate].
    destruct (Re.strip_lit true l s) as [[m' r']|] eqn:E; [|discriminate].
    injection H as <- <-. simpl in Hl. apply andb_true_iff in Hl as [Ha Hl].
    simpl. rewrite (char_eq_is_word _ _ Ec), Ha. simpl.
    eapply IH; [exact E | exact Hl].
Qed.

(** What a whole-word alternation matches is made of word characters. *)
Lemma word_match_chars (ws : list str) (prev : option ascii) (s m rest : str) :
  forallb (forallb Str.is_word) ws = true ->
  Re.match_here true [Re.WordB; Re.Alt ws; Re.WordB] prev s = Some (m, rest) ->
  forallb Str.is_word m = true.
Proof.
  intros Hws H. cbn [Re.match_here] in H.
  destruct (Re.boundary prev s); [|discriminate].
  destruct (Re.first_of _ ws) as [[m1 rest1]|] eqn:E; [|discriminate].
  injection H as <- <-.
  apply first_of_some in E as (l & Hl & E).
  destruct (Re.strip_lit true l s) as [[m0 rest0]|] eqn:E0; [|discriminate].
  destruct (Re.boundary _ rest0); [|discriminate].
  injection E as <- <-. simpl. rewrite app_nil_r.
  eapply strip_lit_word; [exact E0|].
  rewrite forallb_forall in Hws. apply Hws. exact Hl.
Qed.

Lemma word_prefix_bound (m : str) :
  forall rest s1 s2,
    m ++ rest = s1 ++ s2 ->
    forallb Str.is_word m = true ->
    forallb (fun c => negb (Str.is_word c)) s2 = true ->
    length m <= length s1.
Proof.
  induction m as [|x m IH]; intros rest s1 s2 E Hm Hs; [simpl; lia|].
  simpl in Hm. apply andb_true_iff in Hm as [Hx Hm].
  destruct s1 as [|a s1].
  - simpl in E. destruct s2 as [|b s2]; [discriminate|].
    injection E as <- _. simpl in Hs. rewrite Hx in Hs. discriminate.
  - simpl in E. injection E as _ E. simpl.
    specialize (IH _ _ _ E Hm Hs). lia.
Qed.

Section ClosingMark.
Variable ws : list str.
Variable repl : str -> str.
Hypothesis ws_words : forallb (forallb Str.is_word) ws = true.

Lemma tail_kept (s2 : str) :
  forallb (fun c => negb (Str.is_word c)) s2 = true ->
  forall prev,
    flat_map (fun g => match g with
                       | Re.Keep c => [c]
                       | Re.Hit m => repl m
                       end)
      (Re.scan_from true [Re.WordB; Re.Alt ws; Re.WordB] 0 prev s2) = s2.
Proof.
  induction s2 as [|c s2 IH]; intros Hs prev; [reflexivity|].
  pose proof Hs as Hs'. simpl in Hs'. apply andb_true_iff in Hs' as [Hc Hs'].
  cbn [Re.scan_from].
  destruct (Re.match_here true [Re.WordB; Re.Alt ws; Re.WordB] prev (c :: s2))
    as [[[|x m] rest]|] eqn:E.
  - cbn [flat_map app]. rewrite IH by exact Hs'. reflexivity.
  - pose proof (word_match_chars _ _ _ _ _ ws_words E) as Hm.
    apply match_here_split in E.
    pose proof (word_prefix_bound _ _ [] _ E Hm Hs) as Hlen.
    simpl in Hlen. lia.
  - cbn [flat_map app]. rewrite IH by exact Hs'. reflexivity.
Qed.

(** A tail without word characters comes through the substitution. *)
Lemma sub_keeps_tail (s2 : str) :
  forallb (fun c => negb (Str.is_word c)) s2 = true ->
  forall s1 k prev,
    k <= length s1 ->
    exists body,
      flat_map (fun g => match g with
                         | Re.Keep c => [c]
                         | Re.Hit m => repl m
                         end)
        (Re.scan_from true [Re.WordB; Re.Alt ws; Re.WordB] k prev (s1 ++ s2))
      = body ++ s2.
Proof.
  intros Hs. induction s1 as [|a s1 IH]; intros k prev Hk.
  - simpl in Hk. replace k with 0 by lia. exists []. simpl.
    apply tail_kept. exact Hs.
  - cbn [app Re.scan_from]. destruct k as [|k].
    + destruct (Re.match_here true [Re.WordB; Re.Alt ws; Re.WordB] prev
                  (a :: s1 ++ s2)) as [[[|x m] rest]|] eqn:E.
      * destruct (IH 0 (Some a) ltac:(lia)) as [body Hb].
        exists (a :: body). cbn [flat_map app]. rewrite Hb. reflexivity.
      * pose proof (word_match_chars _ _ _ _ _ ws_words E) as Hm.
        apply match_here_split in E.
        pose proof (word_prefix_bound _ _ (a :: s1) _ E Hm Hs) as Hlen.
        destruct (IH (length (x :: m) - 1) (Some a)
                    ltac:(simpl in *; lia)) as [body Hb].
        exists (repl (x :: m) ++ body). cbn [flat_map].
        rewrite Hb, app_assoc. reflexivity.
      * destruct (IH 0 (Some a) ltac:(lia)) as [body Hb].
        exists (a :: body). cbn [flat_map app]. rewrite Hb. reflexivity.
    + destruct (IH k (Some a) ltac:(simpl in Hk; lia)) as [body Hb].
      exists body. exact Hb.
Qed.

End ClosingMark.

Lemma endswith_app (p s : str) :
  Str.endswith p s = true <-> exists body, s = body ++ p.
Proof.
  unfold Str.endswith. rewrite startswith_app. split.
  - intros [post H]. exists (rev post).
    rewrite <- (rev_involutive s), H, rev_app_distr, rev_involutive.
    reflexivity.
  - intros [body ->]. exists (rev body). apply rev_app_distr.
Qed.

(** X27. [_add_emotional_intensity] leaves the closing mark of a line
    alone: a text that ends in an exclamation mark, a question mark or an
    ellipsis gives a result that ends in the same way, whatever the random
    draws and whichever intensifier is inserted. *)
Theorem intensity_keeps_the_closing_mark (text p : str) (w : World) :
  In p (strs ["!"; "?"; "..."]) ->
  Str.endswith p text = true ->
  Str.endswith p (fst (_add_emotional_intensity text w)) = true.
Proof.
  intros Hp He.
  assert (Hnw : forallb (fun c => negb (Str.is_word c)) p = true).
  { simpl in Hp. destruct Hp as [<- | [<- | [<- | []]]]; vm_compute; reflexivity. }
  assert (Hany : Str.endswith "!" text || Str.endswith "?" text
                 || Str.endswith "..." text = true).
  { rewrite !orb_true_iff. simpl in Hp.
    destruct Hp as [<- | [<- | [<- | []]]];
      [left; left; exact He | left; right; exact He | right; exact He]. }
  unfold _add_emotional_intensity, bind.
  destruct (Random.random w) as [u w1].
  destruct (Qltb u (5 # 10)).
  - destruct (Random.choice _ w1) as [intensifier w2].
    unfold ret at 1. rewrite Hany. cbn [negb]. unfold ret. cbn [fst].
    apply endswith_app in He as [body ->].
    apply endswith_app. unfold Re.sub, Re.scan.
    apply sub_keeps_tail; [vm_compute; reflexivity | exact Hnw | simpl; lia].
  - unfold ret at 1. rewrite Hany. cbn [negb]. unfold ret. cbn [fst].
    exact He.
Qed.

Lemma intensity_keeps_the_closing_mark_witness :
  Str.endswith "?" (fst (_add_emotional_intensity "Is it bad?" still_world))
  = true.
Proof.
  apply intensity_keeps_the_closing_mark; [right; left; reflexivity|].
  vm_compute. reflexivity.
Defined.

(** * Capitalised replacements *)

(** ** The first character through the adjustments of a voice *)

Lemma starts_with_letter_cons (s : str) :
  starts_with_letter s = true <->
  exists c rest, s = c :: rest /\ Str.is_letter c = true.
Proof.
  split.
  - destruct s as [|c rest]; [discriminate|]. intros H. exists c, rest. auto.
  - intros (c & rest & -> & H). exact H.
Qed.

Lemma letter_is_no_mark (c : ascii) :
  Str.is_letter c = true ->
  Str.is_space c = false /\ is_bang c = false /\
  Str.mem_char c "." = false /\ Str.mem_char c ".!?" = false /\
  Re.char_eq false "." c = false.
Proof.
  destruct c as [[] [] [] [] [] [] [] []]; vm_compute; intros H;
    first [discriminate H | repeat split; reflexivity].
Qed.

Lemma rstrip_keeps_head (f : ascii -> bool) (c : ascii) (s : str) :
  f c = false -> exists rest, Str.rstrip_by f (c :: s) = c :: rest.
Proof.
  intros Hc. unfold Str.rstrip_by. simpl rev.
  assert (H : forall l, exists l', Str.lstrip_by f (l ++ [c]) = l' ++ [c]).
  { induction l as [|a l [l' IH]]; simpl.
    - rewrite Hc. exists []. reflexivity.
    - destruct (f a); [exists l'; exact IH | exists (a :: l); reflexivity]. }
  destruct (H (rev s)) as [l' Hl]. rewrite Hl, rev_app_distr. simpl. eauto.
Qed.

(** A substitution starts with the first character of the text or with a
    replacement. *)
Lemma sub_head_cases (ci : bool) (r : Re.regex) (repl : str -> str)
  (c : ascii) (s : str) :
  (Re.match_here ci r None (c :: s) = None \/
   exists rest, Re.match_here ci r None (c :: s) = Some ([], rest)) /\
  (exists body, Re.sub ci r repl (c :: s) = c :: body)
  \/ exists m rest body,
       Re.match_here ci r None (c :: s) = Some (m, rest) /\ m <> [] /\
       Re.sub ci r repl (c :: s) = repl m ++ body.
Proof.
  unfold Re.sub, Re.scan. cbn [Re.scan_from].
  destruct (Re.match_here ci r None (c :: s)) as [[[|x m] rest]|] eqn:E.
  - left. split; [right; eauto|]. cbn [flat_map app]. eauto.
  - right. exists (x :: m), rest. cbn [flat_map]. eexists.
    split; [reflexivity|]. split; [discriminate | reflexivity].
  - left. split; [left; reflexivity|]. cbn [flat_map app]. eauto.
Qed.

Lemma sub_keeps_letter_head (ci : bool) (r : Re.regex) (repl : str -> str)
  (s : str) :
  starts_with_letter s = true ->
  (forall m, m <> [] -> starts_with_letter (repl m) = true) ->
  starts_with_letter (Re.sub ci r repl s) = true.
Proof.
  intros Hs Hrepl. apply starts_with_letter_cons in Hs as (c & rest & -> & Hc).
  destruct (sub_head_cases ci r repl c rest)
    as [[_ [body ->]] | (m & rest' & body & _ & Hm & ->)].
  - exact Hc.
  - specialize (Hrepl m Hm).
    apply starts_with_letter_cons in Hrepl as (c' & rest'' & -> & Hc').
    exact Hc'.
Qed.

(** ** What each transform can return *)

Lemma formal_in (threshold : Q) (text : str) (w : World) :
  In (fst (_make_more_formal_at threshold text w)) (formal_outcomes text).
Proof.
  unfold _make_more_formal_at, formal_outcomes, bind.
  destruct (negb _); [|left; reflexivity].
  destruct (Random.random w) as [u w1].
  destruct (Qltb u threshold); [|left; reflexivity].
  pose proof (choice_in (strs ["Perhaps"; "It appears that"; "One might say"])
                w1 ltac:(discriminate)) as Hin.
  destruct (Random.choice _ w1) as [prefix w2]. cbn [fst ret] in *.
  right. apply in_map_iff. exists prefix. split; [reflexivity | exact Hin].
Qed.

Lemma casual_in (text : str) (w : World) :
  In (fst (_make_more_casual text w)) (casual_outcomes text).
Proof.
  unfold _make_more_casual, casual_outcomes, bind.
  destruct (negb _); [|left; reflexivity].
  destruct (Random.random w) as [u w1].
  destruct (Qltb u (2 # 10)); [|left; reflexivity].
  pose proof (choice_in (strs ["Look,"; "Hey,"; "Well,"]) w1
                ltac:(discriminate)) as Hin.
  destruct (Random.choice _ w1) as [marker w2]. cbn [fst ret] in *.
  right. apply in_map_iff. exists marker. split; [reflexivity | exact Hin].
Qed.

Lemma verbose_in (text : str) (w : World) :
  In (fst (_make_more_verbose text w)) (verbose_outcomes text).
Proof.
  unfold _make_more_verbose, verbose_outcomes, bind.
  destruct (Random.random w) as [u w1].
  destruct (Qltb u (4 # 10)); [|left; reflexivity].
  pose proof (choice_in
                (strs [", if you understand what I mean";
                       ", as I'm sure you can appreciate";
                       ", which is quite significant";
                       ", in my considered opinion"]) w1
                ltac:(discriminate)) as Hin.
  destruct (Random.choice _ w1) as [addition w2]. cbn [fst ret] in *.
  right. apply in_map_iff. exists addition. split; [reflexivity | exact Hin].
Qed.

Lemma formality_in (formality : Q) (alt : str) (w : World) :
  In (fst (adjust_formality formality alt w)) (formality_outcomes alt).
Proof.
  unfold adjust_formality, adjust_formality_at, formality_outcomes.
  destruct (Qltb (7 # 10) formality).
  - right. apply in_or_app. left. apply formal_in.
  - destruct (Qltb formality (3 # 10)).
    + right. apply in_or_app. right. apply casual_in.
    + left. reflexivity.
Qed.

Lemma verbosity_in (verbosity : Q) (adapted : str) (w : World) :
  In (fst (adjust_verbosity verbosity adapted w)) (verbosity_outcomes adapted).
Proof.
  unfold adjust_verbosity, verbosity_outcomes.
  destruct (Qltb (7 # 10) verbosity).
  - right. right. apply verbose_in.
  - destruct (Qltb verbosity (3 # 10)).
    + right. left. reflexivity.
    + left. reflexivity.
Qed.

Lemma rstrip_append_head (chars r x : str) :
  (forall c, Str.is_letter c = true -> Str.mem_char c chars = false) ->
  starts_with_letter r = true ->
  starts_with_letter (Str.rstrip_chars chars r ++ x) = true.
Proof.
  intros Hchars Hr. apply starts_with_letter_cons in Hr as (c & rest & -> & Hc).
  unfold Str.rstrip_chars.
  destruct (rstrip_keeps_head (fun c => Str.mem_char c chars) c rest
              (Hchars c Hc)) as [rest' ->].
  exact Hc.
Qed.

Lemma punctuation_keeps_letter_head (text result : str) (w : World) :
  starts_with_letter result = true ->
  starts_with_letter
    (fst ((if negb (Str.endswith "!" text || Str.endswith "?" text
                    || Str.endswith "..." text)
           then
             u' <- Random.random ;;
             if Qltb u' (6 # 10)%Q
             then ret (Str.rstrip_chars "." result ++ txt "!")
             else ret result
           else ret result) w)) = true.
Proof.
  intros Hres. destruct (negb _); [|exact Hres].
  unfold bind. destruct (Random.random w) as [u' w3].
  destruct (Qltb u' (6 # 10)); [|exact Hres].
  cbn [fst ret]. apply rstrip_append_head; [|exact Hres].
  intros c Hc. apply letter_is_no_mark in Hc. tauto.
Qed.

Lemma intensity_keeps_letter_head (text : str) (w : World) :
  starts_with_letter text = true ->
  starts_with_letter (fst (_add_emotional_intensity text w)) = true.
Proof.
  intros Ht. unfold _add_emotional_intensity. unfold bind at 1.
  destruct (Random.random w) as [u w1]. unfold bind at 1.
  destruct (Qltb u (5 # 10)).
  - unfold bind at 1.
    pose proof (choice_in
                  (strs ["absolutely"; "completely"; "utterly"; "totally";
                         "damn"]) w1 ltac:(discriminate)) as Hin.
    destruct (Random.choice _ w1) as [intensifier w2]. cbn [fst] in Hin.
    unfold ret at 1.
    apply punctuation_keeps_letter_head.
    apply sub_keeps_letter_head; [exact Ht|]. intros m _.
    simpl in Hin.
    destruct Hin as [<- | [<- | [<- | [<- | [<- | []]]]]]; reflexivity.
  - unfold ret at 1. apply punctuation_keeps_letter_head. exact Ht.
Qed.

Lemma reduce_keeps_letter_head (text : str) :
  starts_with_letter text = true ->
  no_removal_at_head text = true ->
  starts_with_letter (_reduce_emotional_intensity text) = true.
Proof.
  intros Ht Hno. apply starts_with_letter_cons in Ht as (c & s & -> & Hc).
  destruct (letter_is_no_mark c Hc) as (Hsp & Hbang & _ & _ & Hdot).
  unfold _reduce_emotional_intensity.
  unfold no_removal_at_head in Hno.
  match goal with
  | |- context [Re.sub true ?r ?repl (c :: s)] =>
      destruct (sub_head_cases true r repl c s)
        as [[_ [x1 ->]] | (m & rest & body & Hm & Hne & _)]
  end.
  2:{ rewrite Hm in Hno. discriminate. }
  match goal with
  | |- context [Re.sub false [Re.Rep 1 is_bang] ?repl (c :: x1)] =>
      destruct (sub_head_cases false [Re.Rep 1 is_bang] repl c x1)
        as [[_ [x2 ->]] | (m & rest & body & Hm & Hne & _)]
  end.
  2:{ rewrite match_plus in Hm. cbn [Re.run] in Hm. rewrite Hbang in Hm.
      discriminate. }
  match goal with
  | |- context [Re.sub false ?r ?repl (c :: x2)] =>
      destruct (sub_head_cases false r repl c x2)
        as [[_ [x3 ->]] | (m & rest & body & Hm & Hne & _)]
  end.
  2:{ cbn [Re.match_here Re.strip_lit txt list_ascii_of_string] in Hm.
      rewrite Hdot in Hm. discriminate. }
  unfold Str.strip. cbn [Str.lstrip_by]. rewrite Hsp.
  destruct (rstrip_keeps_head Str.is_space c x3 Hsp) as [rest ->].
  exact Hc.
Qed.

Lemma emotion_keeps_letter_head (emotion : Q) (adapted : str) (w : World) :
  starts_with_letter adapted = true ->
  (if no_removal_at_head adapted then true
   else starts_with_letter (_reduce_emotional_intensity adapted)) = true ->
  starts_with_letter (fst (adjust_emotion emotion adapted w)) = true.
Proof.
  intros Ha Hr. unfold adjust_emotion.
  destruct (Qltb (7 # 10) emotion); [apply intensity_keeps_letter_head; exact Ha|].
  destruct (Qltb emotion (3 # 10)); [|exact Ha].
  cbn [fst ret]. destruct (no_removal_at_head adapted) eqn:E; [|exact Hr].
  apply reduce_keeps_letter_head; assumption.
Qed.

(** An adapted phrase begins with a letter, whatever the voice and the
    draws. *)
Lemma adapted_starts_with_letter (formality verbosity emotion : Q) (alt : str)
  (w : World) :
  adaptable alt = true ->
  starts_with_letter
    (fst ((adapted <- adjust_formality formality alt ;;
           adapted <- adjust_verbosity verbosity adapted ;;
           adjust_emotion emotion adapted) w)) = true.
Proof.
  intros Hok. unfold bind.
  pose proof (formality_in formality alt w) as H1.
  destruct (adjust_formality formality alt w) as [a w1]. cbn [fst] in H1.
  pose proof (verbosity_in verbosity a w1) as H2.
  destruct (adjust_verbosity verbosity a w1) as [b w2]. cbn [fst] in H2.
  unfold adaptable in Hok. rewrite forallb_forall in Hok.
  specialize (Hok a H1). rewrite forallb_forall in Hok.
  specialize (Hok b H2). apply andb_true_iff in Hok as [Hb Hr].
  apply emotion_keeps_letter_head; assumption.
Qed.

Lemma adaptable_starts_with_letter (alt : str) :
  adaptable alt = true -> starts_with_letter alt = true.
Proof.
  intros Hok. unfold adaptable in Hok. rewrite forallb_forall in Hok.
  specialize (Hok alt (or_introl eq_refl)). rewrite forallb_forall in Hok.
  specialize (Hok alt (or_introl eq_refl)).
  apply andb_true_iff in Hok as [H _]. exact H.
Qed.

Lemma mapM_forall (A B : Type) (f : A -> M B) (P : A -> Prop) (Q : B -> Prop) :
  (forall x w, P x -> Q (fst (f x w))) ->
  forall l w, Forall P l -> Forall Q (fst (mapM f l w)).
Proof.
  intros Hf. induction l as [|x l IH]; intros w Hall; [constructor|].
  inversion Hall as [|? ? Hx Hl]; subst.
  cbn [mapM]. unfold bind.
  specialize (Hf x w Hx). destruct (f x w) as [y w1].
  specialize (IH w1 Hl). destruct (mapM f l w1) as [ys w2].
  cbn [fst ret] in *. constructor; assumption.
Qed.

Lemma adapt_starts_with_letter (self : DialogueComposer) (sp : str)
  (alts : list str) (text : str) (w : World) :
  Forall (fun alt => adaptable alt = true) alts ->
  Forall (fun adapted => starts_with_letter adapted = true)
    (fst (_adapt_to_character_voice self sp alts text w)).
Proof.
  intros Hall. unfold _adapt_to_character_voice.
  destruct (Dict.get sp (characters self)) as [c|].
  - apply (mapM_forall _ _ _ (fun alt => adaptable alt = true)
             (fun adapted => starts_with_letter adapted = true));
      [|exact Hall].
    intros alt w0 Ha.
    apply (adapted_starts_with_letter (voice_param c "formality")
             (voice_param c "verbosity")
             (voice_param c "emotion_intensity") alt w0 Ha).
  - cbn [fst ret]. eapply Forall_impl; [|exact Hall].
    intros alt. apply adaptable_starts_with_letter.
Qed.

Lemma library_adaptable (pattern : str) (base : list str) :
  Dict.get pattern _load_cliche_alternatives = Some base ->
  Forall (fun alt => adaptable alt = true) base.
Proof.
  intros H. apply dict_get_in in H.
  assert (Hall : forallb (forallb adaptable)
                   (map snd _load_cliche_alternatives) = true)
    by (vm_cast_no_check (@eq_refl bool true)).
  rewrite forallb_forall in Hall. specialize (Hall base H).
  apply Forall_forall. rewrite forallb_forall in Hall. exact Hall.
Qed.

(** ** [str.replace] *)

Lemma replace_from_skip (old new s : str) :
  forall k,
    Str.replace_from k old new s = Str.replace_from 0 old new (skipn k s).
Proof.
  induction s as [|c s IH]; intros k.
  - destruct k; reflexivity.
  - destruct k as [|k]; [reflexivity|]. cbn [Str.replace_from skipn]. apply IH.
Qed.

Lemma replace_no_occurrence (old new s : str) :
  Str.contains old s = false -> Str.replace_from 0 old new s = s.
Proof.
  induction s as [|c s IH]; intros H; [reflexivity|].
  cbn [Str.contains] in H. apply orb_false_iff in H as [H1 H2].
  cbn [Str.replace_from]. rewrite H1, IH by exact H2. reflexivity.
Qed.

Lemma replace_at_first (old new : str) :
  old <> [] ->
  forall pre post,
    (forall j, j < length pre ->
               Str.startswith old (skipn j (pre ++ old ++ post)) = false) ->
    Str.replace_from 0 old new (pre ++ old ++ post)
    = pre ++ new ++ Str.replace_from 0 old new post.
Proof.
  intros Hne. induction pre as [|a pre IH]; intros post Hno.
  - destruct old as [|x old]; [congruence|].
    cbn [app Str.replace_from].
    assert (Hs : Str.startswith (x :: old) (x :: old ++ post) = true)
      by (apply startswith_app; exists post; reflexivity).
    rewrite Hs. f_equal. rewrite replace_from_skip.
    replace (length (x :: old) - 1) with (length old) by (simpl; lia).
    rewrite skipn_app, skipn_all, Nat.sub_diag. reflexivity.
  - pose proof (Hno 0 ltac:(simpl; lia)) as H0. cbn [skipn app] in H0.
    cbn [app Str.replace_from]. rewrite H0. f_equal.
    apply IH. intros j Hj. apply (Hno (S j)). simpl. lia.
Qed.

Lemma first_occurrence (old s : str) :
  Str.contains old s = true ->
  exists pre post,
    s = pre ++ old ++ post /\
    forall j, j < length pre -> Str.startswith old (skipn j s) = false.
Proof.
  induction s as [|c s IH]; intros H.
  - cbn [Str.contains] in H. rewrite orb_false_r in H.
    apply startswith_app in H as [post H]. exists [], post.
    split; [exact H | intros j Hj; simpl in Hj; lia].
  - cbn [Str.contains] in H.
    destruct (Str.startswith old (c :: s)) eqn:E.
    + apply startswith_app in E as [post E]. exists [], post.
      split; [exact E | intros j Hj; simpl in Hj; lia].
    + simpl in H. destruct (IH H) as (pre & post & Hs & Hno).
      exists (c :: pre), post. split; [rewrite Hs; reflexivity|].
      intros [|j] Hj; [exact E|]. cbn [skipn]. apply Hno. simpl in Hj. lia.
Qed.

(** [str.replace(old, new)] replaces the occurrences of [old] from the
    left, each search resuming after the last replacement. *)
Lemma replace_substituted (old new : str) :
  old <> [] ->
  forall n s,
    length s <= n -> substituted old new s (Str.replace old new s).
Proof.
  intros Hne.
  assert (Hr : forall s, Str.replace old new s = Str.replace_from 0 old new s)
    by (intros s; destruct old; [congruence | reflexivity]).
  induction n as [|n IH]; intros s Hlen; rewrite Hr;
    destruct (Str.contains old s) eqn:E.
  - apply first_occurrence in E as (pre & post & -> & _).
    rewrite !length_app in Hlen. destruct old; [congruence | simpl in Hlen; lia].
  - rewrite replace_no_occurrence by exact E. apply substituted_none.
    intros Ho. apply contains_app in Ho. congruence.
  - apply first_occurrence in E as (pre & post & -> & Hno).
    rewrite replace_at_first by assumption. apply substituted_first.
    + intros a b Hab.
      destruct (le_lt_dec (length pre) (length a)) as [Hle | Hlt];
        [exact Hle|]. exfalso.
      specialize (Hno (length a) Hlt). rewrite Hab in Hno.
      rewrite skipn_app, skipn_all, Nat.sub_diag in Hno. cbn [app skipn] in Hno.
      assert (Hs : Str.startswith old (old ++ b) = true)
        by (apply startswith_app; exists b; reflexivity).
      congruence.
    + rewrite <- Hr. apply IH. rewrite !length_app in Hlen.
      destruct old; [congruence | simpl in Hlen; lia].
  - rewrite replace_no_occurrence by exact E. apply substituted_none.
    intros Ho. apply contains_app in Ho. congruence.
Qed.

(** ** The alternatives of a text *)

Lemma detected_phrase_nonempty (text phrase pattern : str) :
  In (phrase, pattern) (detected_cliches text) -> phrase <> [].
Proof.
  unfold detected_cliches.
  rewrite (detected_every_occurrence text _load_cliche_patterns
             cliche_patterns_plain).
  intros H. apply in_flat_map in H as (p & Hp & H).
  apply in_map_iff in H as (i & [= <- <-] & Hi).
  destruct (slice_stands p text i Hi) as [_ Hl].
  pose proof cliche_patterns_plain as Hall. rewrite forallb_forall in Hall.
  specialize (Hall p Hp). apply andb_true_iff in Hall as [Hn _].
  intros E. rewrite E in Hl. simpl in Hl. subst p. discriminate.
Qed.

(** Every alternative has a non-empty original phrase and five adapted
    phrases, each beginning with a letter. *)
Lemma alternatives_ready (self : DialogueComposer) (sp text : str)
  (detected : list (str * str)) :
  incl detected (detected_cliches text) ->
  forall w,
    Forall (fun alt =>
              original_phrase alt <> [] /\
              length (character_voice_adjusted alt) = 5 /\
              Forall (fun adapted => starts_with_letter adapted = true)
                (character_voice_adjusted alt))
      (fst (alternatives_for self sp text 5 detected w)).
Proof.
  induction detected as [|[phrase pattern] detected IH]; intros Hincl w;
    [constructor|].
  assert (Hincl' : incl detected (detected_cliches text))
    by (intros x Hx; apply Hincl; right; exact Hx).
  cbn [alternatives_for].
  destruct (Dict.get pattern _load_cliche_alternatives) as [[|a base]|] eqn:E;
    try (apply IH; exact Hincl').
  unfold bind.
  pose proof (library_entries_have_five _ _ E) as Hfive.
  pose proof (sample_from_length (Nat.min 5 (length (a :: base))) (a :: base)
                (length (a :: base)) w) as Hlen.
  pose proof (sample_from_in (Nat.min 5 (length (a :: base))) (a :: base)
                (length (a :: base)) w (Nat.le_min_r _ _) (Nat.le_refl _)) as Hin.
  fold (Random.sample (a :: base) (Nat.min 5 (length (a :: base)))) in Hlen, Hin.
  destruct (Random.sample (a :: base) (Nat.min 5 (length (a :: base))) w)
    as [selected w1].
  cbn [fst] in Hlen, Hin.
  assert (Hsel : Forall (fun alt => adaptable alt = true) selected).
  { pose proof (library_adaptable _ _ E) as Hb. rewrite Forall_forall in Hb, Hin.
    apply Forall_forall. intros x Hx. apply Hb. apply Hin. exact Hx. }
  pose proof (adapt_length self sp selected text w1) as Hal.
  pose proof (adapt_starts_with_letter self sp selected text w1 Hsel) as Hst.
  destruct (_adapt_to_character_voice self sp selected text w1) as [adapted w2].
  specialize (IH Hincl' w2).
  destruct (alternatives_for self sp text 5 detected w2) as [rest w3].
  cbn [fst ret] in *. unfold ret. cbn [fst].
  constructor; [|exact IH].
  cbn [original_phrase character_voice_adjusted].
  split; [|split; [|exact Hst]].
  - apply (detected_phrase_nonempty text phrase pattern).
    apply Hincl. left. reflexivity.
  - rewrite Hal, Hlen, Hfive. reflexivity.
Qed.

(** ** The assembly of a version *)

Lemma lower_upper_same (c : ascii) :
  Str.lower_char (Str.upper_char c) = Str.lower_char c.
Proof. destruct c as [[] [] [] [] [] [] [] []]; vm_compute; reflexivity. Qed.

Lemma fold_assembled (k : nat) (alts : list DialogueAlternative) :
  Forall (fun alt =>
            original_phrase alt <> [] /\
            exists adapted,
              nth_error (character_voice_adjusted alt) k = Some adapted /\
              starts_with_letter adapted = true) alts ->
  forall t,
    assembled k alts t
      (fold_left
         (fun improved_text alt =>
            match nth_error (character_voice_adjusted alt) k with
            | Some replacement =>
                Str.replace (original_phrase alt)
                  (replacement_for (original_phrase alt) replacement)
                  improved_text
            | None => improved_text
            end)
         alts t).
Proof.
  induction 1 as [|alt alts [Hne (adapted & Hnth & Hl)] _ IH]; intros t.
  - constructor.
  - cbn [fold_left]. rewrite Hnth.
    apply assembled_cons
      with (adapted := adapted)
           (replacement := replacement_for (original_phrase alt) adapted)
           (t1 := Str.replace (original_phrase alt)
                    (replacement_for (original_phrase alt) adapted) t).
    + exact Hnth.
    + intros Hup. unfold replacement_for. rewrite Hup.
      destruct (original_phrase alt); [discriminate|]. cbn [Str.nonempty andb].
      apply starts_with_letter_cons in Hl as (c & rest & -> & Hc).
      rewrite capitalize_first_cons.
      exists c, (Str.upper_char c), rest.
      split; [reflexivity|]. split; [reflexivity|].
      split; [apply upper_char_of_letter; exact Hc | apply lower_upper_same].
    + intros Hup. unfold replacement_for. rewrite Hup, andb_false_r.
      reflexivity.
    + apply (replace_substituted _ _ Hne (length t)). lia.
    + apply IH.
Qed.

Lemma nth_error_seq_some (n : nat) :
  forall a k i, nth_error (seq a n) k = Some i -> i = a + k /\ k < n.
Proof.
  induction n as [|n IH]; intros a k i H.
  - destruct k; discriminate.
  - destruct k as [|k]; simpl in H.
    + injection H as <-. lia.
    + apply IH in H. lia.
Qed.
